(** * go-kway: a lazy, stable k-way merge of sorted iterator sequences

    Shallow embedding of [heap.go], [wrap.go] and the [Merge] / [Merge2]
    entry points, together with the part of Go's [container/heap] and
    [iter.Pull] that the engine drives.

    Conventions of the embedding
    - Go [int] values that are only stored and compared (the comparator's
      result, the [index()] tag) are integers [Z]; positions inside a slice
      are [nat].
    - A slice is a [list]; an indexing expression outside the slice is a
      run-time panic, written out as [Panic IndexOutOfRange].
    - An input [iter.Seq[T]] is either [nil] ([None]) or a finite,
      side-effect-free producer, given by the list of the elements it
      yields ([Some l]).  [iter.Pull] turns it into a cursor: every call of
      [next] consumes one element of the list and is recorded in the trace.
    - The sequence a function returns is consumed through [yield]; it is a
      function of the consumer ([yield] with its state) to the [run] it
      produces: the outcome, the trace of pulls, yields and deferred
      [stop] calls, and the consumer's final state.
    - Loops carry fuel.  Fuel that runs out is the separate result
      [Timeout] / [OutOfFuel]; the entry points supply enough of it, which
      is proved below. *)

From Stdlib Require Import ZArith Lia ZifyNat Sorted Permutation.
From stdpp Require Import base list sorting.

Open Scope Z_scope.
Open Scope nat_scope.

(** [lia] with division by constants, for the parent and child positions
    of the binary heap. *)
Ltac Zify.zify_post_hook ::= Z.to_euclidean_division_equations.

(** ** Panics and fallible computations *)

Inductive panic : Type :=
| NilComparison      (* panic("kway: nil comparison function") *)
| IndexOutOfRange    (* runtime error: index out of range *)
| NilFunction.       (* runtime error: call of a nil func value *)

Inductive result (A : Type) : Type :=
| Ok (a : A)
| Panic (p : panic)
| Timeout.

Arguments Ok {A} a.
Arguments Panic {A} p.
Arguments Timeout {A}.

Definition rbind {A B} (m : result A) (k : A -> result B) : result B :=
  match m with
  | Ok a => k a
  | Panic p => Panic p
  | Timeout => Timeout
  end.

Notation "'do' x <- m ; k" := (rbind m (fun x => k))
  (at level 10, x pattern, m at level 100, k at level 200).

(** [s[i]] for a slice [s]. *)
Definition at_index {A} (s : list A) (i : nat) : result A :=
  match s !! i with
  | Some x => Ok x
  | None => Panic IndexOutOfRange
  end.

(** ** heap.go: the [heap.Interface] methods of [mergeState]

    The methods only read [cmp] and read or write [items]; they are
    functions of the [items] slice, with [cmp] and the element type's
    [index()] method fixed. *)

Section MergeStateMethods.
Context {T : Type} (index : T -> Z) (cmp : T -> T -> Z).

Definition Len (items : list T) : nat := length items.

Definition less (a b : T) : bool :=
  let v := cmp a b in
  if negb (v =? 0)%Z then (v <? 0)%Z
  else (index a <? index b)%Z.

Definition Less (items : list T) (i j : nat) : result bool :=
  do a <- at_index items i;
  do b <- at_index items j;
  Ok (less a b).

Definition Swap (items : list T) (i j : nat) : result (list T) :=
  do a <- at_index items i;
  do b <- at_index items j;
  Ok (<[j := a]> (<[i := b]> items)).

Definition Push (items : list T) (v : T) : list T := items ++ [v].

(** [old[i] = *new(T)] clears the slot that [old[:i]] then cuts off;
    it does not show in the slice that is kept. *)
Definition Pop (items : list T) : result (T * list T) :=
  match length items with
  | 0 => Panic IndexOutOfRange
  | S i => do item <- at_index items i; Ok (item, take i items)
  end.
End MergeStateMethods.

(** ** Go's container/heap, as [heap.go] calls it

    [up] and [down] are the library's loops; the fuel bounds the number
    of iterations ([j] strictly decreases in [up], [i] strictly
    increases below [n] in [down]).  Positions are [nat], so the
    library's guard against an overflowed [2*i + 1] has no counterpart.
    [down]'s boolean result is not used by [Init] and [Pop] and is left
    out. *)

Module heap.
Section Heap.
Context {T : Type} (index : T -> Z) (cmp : T -> T -> Z).

Fixpoint up_loop (fuel : nat) (h : list T) (j : nat) : result (list T) :=
  match fuel with
  | 0 => Timeout
  | S fuel' =>
      let i := (j - 1) / 2 in
      if i =? j then Ok h
      else
        do lt <- Less index cmp h j i;
        if negb lt then Ok h
        else do h' <- Swap h i j; up_loop fuel' h' i
  end.

Definition up (h : list T) (j : nat) : result (list T) :=
  up_loop (S j) h j.

Fixpoint down_loop (fuel : nat) (h : list T) (i n : nat) : result (list T) :=
  match fuel with
  | 0 => Timeout
  | S fuel' =>
      let j1 := 2 * i + 1 in
      if n <=? j1 then Ok h
      else
        do lt21 <- (if j1 + 1 <? n then Less index cmp h (j1 + 1) j1
                    else Ok false);
        let j := if lt21 then j1 + 1 else j1 in
        do lt <- Less index cmp h j i;
        if negb lt then Ok h
        else do h' <- Swap h i j; down_loop fuel' h' j n
  end.

Definition down (h : list T) (i0 n : nat) : result (list T) :=
  down_loop (S n) h i0 n.

(** [for i := n/2 - 1; i >= 0; i-- { down(h, i, n) }], with [k = i + 1]. *)
Fixpoint Init_loop (k : nat) (h : list T) (n : nat) : result (list T) :=
  match k with
  | 0 => Ok h
  | S i => do h' <- down h i n; Init_loop i h' n
  end.

Definition Init (h : list T) : result (list T) :=
  let n := Len h in
  Init_loop (n / 2) h n.

Definition Push (h : list T) (x : T) : result (list T) :=
  let h' := Push h x in
  up h' (Len h' - 1).

(** [n := h.Len() - 1] is [-1] on an empty heap, where [h.Swap(0, n)]
    indexes out of range. *)
Definition Pop (h : list T) : result (T * list T) :=
  match Len h with
  | 0 => Panic IndexOutOfRange
  | S n =>
      do h1 <- Swap h 0 n;
      do h2 <- down h1 0 n;
      Pop h2
  end.
End Heap.
End heap.

(** ** Sequences, pull handles and runs *)

(** An input [iter.Seq[T]]: [nil], or the finite list of what it yields. *)
Abbreviation Seq T := (option (list T)) (only parsing).

Inductive event (T : Type) : Type :=
| EvPull (src : nat) (r : option T)   (* a call of [next] on the handle of [seqs[src]] *)
| EvYield (v : T)                     (* a call of the consumer's [yield] *)
| EvStop (src : nat).                 (* a deferred [stop()] *)

Arguments EvPull {T} src r.
Arguments EvYield {T} v.
Arguments EvStop {T} src.

Inductive outcome : Type :=
| Drained                 (* the loop ended with an empty heap *)
| Stopped                 (* [yield] returned false *)
| Panicked (p : panic)
| OutOfFuel.

Record run (T C : Type) : Type := Run {
  run_outcome : outcome;
  run_events : list (event T);
  run_consumer : C
}.

Arguments Run {T C}.
Arguments run_outcome {T C}.
Arguments run_events {T C}.
Arguments run_consumer {T C}.

(** What a trace shows: the values handed to the consumer, and the
    handles that were pulled. *)
Definition yielded {T} (tr : list (event T)) : list T :=
  omap (fun e => match e with EvYield v => Some v | _ => None end) tr.

Definition pulled {T} (tr : list (event T)) : list nat :=
  omap (fun e => match e with EvPull h _ => Some h | _ => None end) tr.

Definition is_stop {T} (e : event T) : Prop :=
  match e with EvStop _ => True | _ => False end.

(** ** heap.go: [mergeState.all] *)

Section All.
Context {T C : Type} (index : T -> Z) (cmp : T -> T -> Z).
Context (yield : C -> T -> C * bool).

(** The variables of one call of [all]: [x.items], the local [pulls]
    ([Some h] is the [next] function of pull handle [h]; the handle of
    [seqs[i]] is numbered [i]), the state of the [iter.Pull]
    coroutines (what each one still has to yield; [None] where none
    was started), and the trace and consumer state so far. *)
Record frame : Type := Frame {
  items : list T;
  pulls : list (option nat);
  handles : list (option (list T));
  trace : list (event T);
  consumer : C
}.

Definition set_items (h : list T) (fr : frame) : frame :=
  Frame h (pulls fr) (handles fr) (trace fr) (consumer fr).

(** [next()] of pull handle [h]. *)
Definition next (h : nat) (fr : frame) : option T * frame :=
  match handles fr !! h with
  | Some (Some (v :: l)) =>
      (Some v,
       Frame (items fr) (pulls fr) (<[h := Some l]> (handles fr))
             (trace fr ++ [EvPull h (Some v)]) (consumer fr))
  | _ =>
      (None,
       Frame (items fr) (pulls fr) (handles fr)
             (trace fr ++ [EvPull h None]) (consumer fr))
  end.

(** Lines 45-52, the body of [for i, seq := range x.seqs]: start a
    pull handle on a sequence that is not nil and pull its first
    element. *)
Definition open_one (i : nat) (seq : Seq T) (fr : frame) : frame :=
  match seq with
  | None => fr
  | Some l =>
      let fr1 := Frame (items fr) (pulls fr) (<[i := Some l]> (handles fr))
                       (trace fr) (consumer fr) in
      let '(r, fr2) := next i fr1 in
      match r with
      | Some v =>
          Frame (items fr2 ++ [v]) (<[i := Some i]> (pulls fr2))
                (handles fr2) (trace fr2) (consumer fr2)
      | None => fr2
      end
  end.

Fixpoint open_loop (i : nat) (seqs : list (Seq T)) (fr : frame) : frame :=
  match seqs with
  | [] => fr
  | seq :: seqs' => open_loop (S i) seqs' (open_one i seq fr)
  end.

(** The [defer stop()] of every started handle, in the order they run. *)
Fixpoint deferred (i : nat) (seqs : list (Seq T)) : list nat :=
  match seqs with
  | [] => []
  | None :: seqs' => deferred (S i) seqs'
  | Some _ :: seqs' => deferred (S i) seqs' ++ [i]
  end.

(** [pulls[v.index()]], the function value that line 60 calls. *)
Definition pulls_at (ps : list (option nat)) (ix : Z) : result nat :=
  if (ix <? 0)%Z then Panic IndexOutOfRange
  else match ps !! Z.to_nat ix with
       | None => Panic IndexOutOfRange
       | Some None => Panic NilFunction
       | Some (Some h) => Ok h
       end.

Definition or_fault {A} (fr : frame) (m : result A)
    (k : A -> frame * option outcome) : frame * option outcome :=
  match m with
  | Ok a => k a
  | Panic p => (fr, Some (Panicked p))
  | Timeout => (fr, Some OutOfFuel)
  end.

(** Lines 60-63: pull one more element from the source of [v]. *)
Definition refill (v : T) (fr : frame) : frame * option outcome :=
  or_fault fr (pulls_at (pulls fr) (index v)) (fun p =>
    let '(r, fr') := next p fr in
    match r with
    | Some v' =>
        or_fault fr' (heap.Push index cmp (items fr') v') (fun h' =>
          (set_items h' fr', None))
    | None => (fr', None)
    end).

(** One iteration of the loop of lines 55-64; [None] goes on to the
    next iteration. *)
Definition body (fr : frame) : frame * option outcome :=
  or_fault fr (heap.Pop index cmp (items fr)) (fun '(v, h) =>
    let '(c, more) := yield (consumer fr) v in
    let fr1 := Frame h (pulls fr) (handles fr) (trace fr ++ [EvYield v]) c in
    if negb more then (fr1, Some Stopped) else refill v fr1).

Fixpoint loop (fuel : nat) (fr : frame) : frame * outcome :=
  match fuel with
  | 0 => (fr, OutOfFuel)
  | S fuel' =>
      if Len (items fr) =? 0 then (fr, Drained)
      else match body fr with
           | (fr', None) => loop fuel' fr'
           | (fr', Some o) => (fr', o)
           end
  end.

(** Elements not yet pulled. *)
Definition unpulled (hs : list (option (list T))) : list T :=
  concat (omap id hs).

Definition all_fuel (fr : frame) : nat :=
  S (length (items fr) + length (unpulled (handles fr))).

Definition all_start (seqs : list (Seq T)) (c : C) : frame :=
  open_loop 0 seqs
    (Frame [] (replicate (length seqs) None) (replicate (length seqs) None) [] c).

Definition all (seqs : list (Seq T)) (c : C) : run T C :=
  let fr1 := all_start seqs c in
  let '(fr2, o) :=
    match heap.Init index cmp (items fr1) with
    | Ok h => loop (all_fuel fr1) (set_items h fr1)
    | Panic p => (fr1, Panicked p)
    | Timeout => (fr1, OutOfFuel)
    end in
  Run o (trace fr2 ++ (EvStop <$> deferred 0 seqs)) (consumer fr2).
End All.

Arguments frame : clear implicits.
Arguments Frame {T C}.
Arguments items {T C}.
Arguments pulls {T C}.
Arguments handles {T C}.
Arguments trace {T C}.
Arguments consumer {T C}.

(** ** wrap.go *)

(** [wrappedSeqValue] and [wrappedSeq2Value]; their fields [i], [v] and
    [i], [v1], [v2] carry the type's initials, as both have an [i]. *)
Record wrappedSeqValue (T : Type) : Type := WrappedSeqValue {
  sv_i : Z;
  sv_v : T
}.

Arguments WrappedSeqValue {T}.
Arguments sv_i {T}.
Arguments sv_v {T}.

Record wrappedSeq2Value (T1 T2 : Type) : Type := WrappedSeq2Value {
  sv2_i : Z;
  sv2_v1 : T1;
  sv2_v2 : T2
}.

Arguments WrappedSeq2Value {T1 T2}.
Arguments sv2_i {T1 T2}.
Arguments sv2_v1 {T1 T2}.
Arguments sv2_v2 {T1 T2}.

(** The [index()] methods. *)
Definition index {T} (x : wrappedSeqValue T) : Z := sv_i x.
Definition index2 {T1 T2} (x : wrappedSeq2Value T1 T2) : Z := sv2_i x.

(** [wrapSeq] and [wrapSeq2] range over [seq]; they are only called on
    sequences that are not nil, here the list the sequence yields. *)
Definition wrapSeq {T} (i : Z) (seq : list T) : list (wrappedSeqValue T) :=
  (fun v => WrappedSeqValue i v) <$> seq.

Definition wrapSeq2 {T1 T2} (i : Z) (seq : list (T1 * T2))
    : list (wrappedSeq2Value T1 T2) :=
  (fun '(v1, v2) => WrappedSeq2Value i v1 v2) <$> seq.

Definition wrapCompare {T} (compare : T -> T -> Z)
    (a b : wrappedSeqValue T) : Z :=
  compare (sv_v a) (sv_v b).

Definition wrapCompare2 {T1 T2} (compare : T1 -> T2 -> T1 -> T2 -> Z)
    (a b : wrappedSeq2Value T1 T2) : Z :=
  compare (sv2_v1 a) (sv2_v2 a) (sv2_v1 b) (sv2_v2 b).

(** ** [Merge] and [Merge2] *)

Section Merge.
Context {T C : Type}.

(** The returned [iter.Seq[T]], as a function of its consumer. *)
Definition OutSeq : Type :=
  (C -> T -> C * bool) -> C -> run (wrappedSeqValue T) C.

Definition emptySeq : OutSeq := fun _ c => Run Drained [] c.

Definition mergeSeq (cmp : wrappedSeqValue T -> wrappedSeqValue T -> Z)
    (seqs : list (Seq (wrappedSeqValue T))) : OutSeq :=
  fun yield c => all index cmp (fun c v => yield c (sv_v v)) seqs c.

(** The loop that fills [wrappedSeqs] and sets [ok]. *)
Fixpoint wrap_seqs (i : nat) (seqs : list (Seq T))
    : list (Seq (wrappedSeqValue T)) * bool :=
  match seqs with
  | [] => ([], false)
  | seq :: seqs' =>
      let '(ws, ok) := wrap_seqs (S i) seqs' in
      match seq with
      | Some s => (Some (wrapSeq (Z.of_nat i) s) :: ws, true)
      | None => (None :: ws, ok)
      end
  end.

Definition Merge (cmp : option (T -> T -> Z)) (seqs : list (Seq T))
    : result OutSeq :=
  match cmp with
  | None => Panic NilComparison
  | Some cmp =>
      let '(wrappedSeqs, ok) := wrap_seqs 0 seqs in
      if negb ok then Ok emptySeq
      else Ok (mergeSeq (wrapCompare cmp) wrappedSeqs)
  end.
End Merge.

Section Merge2.
Context {T1 T2 C : Type}.

(** The returned [iter.Seq2[T1, T2]]. *)
Definition OutSeq2 : Type :=
  (C -> T1 -> T2 -> C * bool) -> C -> run (wrappedSeq2Value T1 T2) C.

Definition emptySeq2 : OutSeq2 := fun _ c => Run Drained [] c.

Definition mergeSeq2
    (cmp : wrappedSeq2Value T1 T2 -> wrappedSeq2Value T1 T2 -> Z)
    (seqs : list (Seq (wrappedSeq2Value T1 T2))) : OutSeq2 :=
  fun yield c =>
    all index2 cmp (fun c v => yield c (sv2_v1 v) (sv2_v2 v)) seqs c.

Fixpoint wrap_seqs2 (i : nat) (seqs : list (Seq (T1 * T2)))
    : list (Seq (wrappedSeq2Value T1 T2)) * bool :=
  match seqs with
  | [] => ([], false)
  | seq :: seqs' =>
      let '(ws, ok) := wrap_seqs2 (S i) seqs' in
      match seq with
      | Some s => (Some (wrapSeq2 (Z.of_nat i) s) :: ws, true)
      | None => (None :: ws, ok)
      end
  end.

Definition Merge2 (cmp : option (T1 -> T2 -> T1 -> T2 -> Z))
    (seqs : list (Seq (T1 * T2))) : result OutSeq2 :=
  match cmp with
  | None => Panic NilComparison
  | Some cmp =>
      let '(wrappedSeqs, ok) := wrap_seqs2 0 seqs in
      if negb ok then Ok emptySeq2
      else Ok (mergeSeq2 (wrapCompare2 cmp) wrappedSeqs)
  end.
End Merge2.

Arguments OutSeq : clear implicits.
Arguments OutSeq2 : clear implicits.

(** The consumer that collects every element: [collectSeq] of the tests. *)
Definition collect {T} (acc : list T) (v : T) : list T * bool := (acc ++ [v], true).

(** The consumer that breaks out of its loop at the [k]-th element. *)
Definition stop_after {T} (k : nat) (seen : list T) (v : T) : list T * bool :=
  (seen ++ [v], S (length seen) <? k).

(** What the consumer of a sequence returned by [Merge] received. *)
Definition output {T C} (r : run (wrappedSeqValue T) C) : list T :=
  sv_v <$> yielded (run_events r).

(** ** Ranging over a sequence

    [for v := range seq { if !yield(v) { return } }], the loop of
    [wrapSeq], of [wrapSeq2] and of a consumer that may break, over the
    finite list that [seq] yields: the consumer's final state, and
    whether the loop ran to the end. *)
Fixpoint range_over {T C} (l : list T) (yield : C -> T -> C * bool) (c : C)
    : C * bool :=
  match l with
  | [] => (c, true)
  | v :: l' =>
      let '(c', more) := yield c v in
      if negb more then (c', false) else range_over l' yield c'
  end.

(** [wrapSeq(i, seq)] and [wrapSeq2(i, seq)] as the functions of [yield]
    that [wrap.go] returns: they range over [seq] and hand every element,
    wrapped with [i], to [yield]. *)
Definition wrapSeq_run {T C} (i : Z) (seq : list T)
    (yield : C -> wrappedSeqValue T -> C * bool) (c : C) : C * bool :=
  range_over seq (fun c v => yield c (WrappedSeqValue i v)) c.

Definition wrapSeq2_run {T1 T2 C} (i : Z) (seq : list (T1 * T2))
    (yield : C -> wrappedSeq2Value T1 T2 -> C * bool) (c : C) : C * bool :=
  range_over seq (fun c '(v1, v2) => yield c (WrappedSeq2Value i v1 v2)) c.

(** * Specification

    The predicates and functions the properties below are stated with. *)

(** ** Slices, comparators and the heap order *)

(** The slice after [Swap(i, j)]. *)
Definition swapped {A} (s : list A) (i j : nat) (x y : A) : list A :=
  <[j := x]> (<[i := y]> s).

(** What one call of a heap routine may do to the slice. *)
Definition reshuffled {T} (n : nat) (h h' : list T) : Prop :=
  h' ≡ₚ h /\ length h' = length h /\ drop n h' = drop n h.

(** The three-way contract of a comparator: the sign of [cmp b a] is
    the opposite of the sign of [cmp a b], and "not after" is transitive. *)
Record comparator_ok {T} (cmp : T -> T -> Z) : Prop := {
  cmp_antisym : forall a b, Z.sgn (cmp b a) = (- Z.sgn (cmp a b))%Z;
  cmp_trans : forall a b c, (cmp a b <= 0)%Z -> (cmp b c <= 0)%Z -> (cmp a c <= 0)%Z
}.

Section HeapOrderDefs.
Context {T : Type} (index : T -> Z) (cmp : T -> T -> Z).
Implicit Types h : list T.

(** [a] may stand before [b]: [Less] does not put [b] first. *)
Definition before (a b : T) : Prop := less index cmp b a = false.

(** The element at [p], if any, may stand before the one at [c]. *)
Definition ordered h (p c : nat) : Prop :=
  forall x y, h !! p = Some x -> h !! c = Some y -> before x y.

(** The heap condition on [h[0:n]] for the nodes from [lo] on. *)
Definition heap_from (lo n : nat) h : Prop :=
  forall c, 0 < c < n -> lo <= (c - 1) / 2 -> ordered h ((c - 1) / 2) c.

(** The heap condition on the whole slice. *)
Definition is_heap h : Prop := heap_from 0 (length h) h.

(** The condition [down] starts from: only node [i] may be too large. *)
Definition down_inv (lo n i : nat) h : Prop :=
  (forall c, 0 < c < n -> lo <= (c - 1) / 2 -> (c - 1) / 2 <> i ->
             ordered h ((c - 1) / 2) c) /\
  (0 < i -> lo <= (i - 1) / 2 ->
   forall c, 0 < c < n -> (c - 1) / 2 = i -> ordered h ((i - 1) / 2) c).

(** The condition [up] starts from: only node [j] may be too small. *)
Definition up_inv (n j : nat) h : Prop :=
  (forall c, 0 < c < n -> c <> j -> ordered h ((c - 1) / 2) c) /\
  (0 < j -> forall c, 0 < c < n -> (c - 1) / 2 = j -> ordered h ((j - 1) / 2) c).

(** [a] is not after [b] for the comparator. *)
Definition cle (a b : T) : Prop := (cmp a b <= 0)%Z.
End HeapOrderDefs.

(** ** Traces and frames of [mergeState.all] *)

(** What handle [i] handed out, and what was emitted with index [i]. *)
Definition pulled_from {T} (i : nat) (tr : list (event T)) : list T :=
  omap (fun e => match e with
                 | EvPull h (Some v) => if decide (h = i) then Some v else None
                 | _ => None
                 end) tr.

Definition emitted_from {T} (index : T -> Z) (i : nat) (tr : list (event T)) : list T :=
  omap (fun e => match e with
                 | EvYield v => if decide (index v = Z.of_nat i) then Some v else None
                 | _ => None
                 end) tr.

(** The sources that have produced an element that was not emitted yet. *)
Definition outstanding {T} (index : T -> Z) (n : nat) (tr : list (event T)) : list nat :=
  filter (fun i => length (emitted_from index i tr) < length (pulled_from i tr)) (seq 0 n).

Section FrameDefs.
Context {T C : Type} (index : T -> Z) (cmp : T -> T -> Z).
Context (yield : C -> T -> C * bool).
Implicit Types fr : frame T C.

(** The elements of [l] that carry index [i]. *)
Definition with_index (i : nat) (l : list T) : list T :=
  filter (fun x => index x = Z.of_nat i) l.

(** Everything still to be emitted. *)
Definition pending fr : list T := items fr ++ unpulled (handles fr).

(** A frame is well formed: every element of the heap carries the
    index of a source whose [next] is in [pulls], no two carry the same
    index, what a handle still has to yield carries its index, a handle
    with something left has an element in the heap, and the trace
    accounts for the heap. *)
Record frame_ok (n : nat) fr : Prop := {
  ok_pulls_len : length (pulls fr) = n;
  ok_handles_len : length (handles fr) = n;
  ok_tagged : forall x, x ∈ items fr ->
    exists i, index x = Z.of_nat i /\ pulls fr !! i = Some (Some i);
  ok_nodup : NoDup (index <$> items fr);
  ok_pulls : forall i p, pulls fr !! i = Some (Some p) ->
    p = i /\ exists l, handles fr !! i = Some (Some l);
  ok_handles : forall i l x, handles fr !! i = Some (Some l) -> x ∈ l ->
    index x = Z.of_nat i;
  ok_frontier : forall i l, handles fr !! i = Some (Some l) -> l <> [] ->
    exists x, x ∈ items fr /\ index x = Z.of_nat i;
  ok_count : forall i,
    length (pulled_from i (trace fr)) =
    length (emitted_from index i (trace fr)) + length (with_index i (items fr))
}.

(** What one iteration does to a frame. *)
Inductive iteration fr : frame T C * option outcome -> Prop :=
| it_stop v h c :
    items fr !! 0 = Some v ->
    heap.Pop index cmp (items fr) = Ok (v, h) ->
    yield (consumer fr) v = (c, false) ->
    iteration fr
      (Frame h (pulls fr) (handles fr) (trace fr ++ [EvYield v]) c,
       Some Stopped)
| it_refill v h c i v' l h' :
    items fr !! 0 = Some v ->
    heap.Pop index cmp (items fr) = Ok (v, h) ->
    yield (consumer fr) v = (c, true) ->
    index v = Z.of_nat i ->
    handles fr !! i = Some (Some (v' :: l)) ->
    heap.Push index cmp h v' = Ok h' ->
    iteration fr
      (Frame h' (pulls fr) (<[i := Some l]> (handles fr))
             (trace fr ++ [EvYield v; EvPull i (Some v')]) c,
       None)
| it_exhausted v h c i :
    items fr !! 0 = Some v ->
    heap.Pop index cmp (items fr) = Ok (v, h) ->
    yield (consumer fr) v = (c, true) ->
    index v = Z.of_nat i ->
    handles fr !! i = Some (Some []) ->
    iteration fr
      (Frame h (pulls fr) (handles fr)
             (trace fr ++ [EvYield v; EvPull i None]) c,
       None).

(** The sources carry their position as [index()]: what [wrapSeq]
    sets up. *)
Definition tagged (seqs : list (Seq T)) : Prop :=
  forall i l x, seqs !! i = Some (Some l) -> x ∈ l -> index x = Z.of_nat i.

(** After the sources before [i] were opened. *)
Record open_inv (seqs : list (Seq T)) (i : nat) fr : Prop := {
  oi_ok : frame_ok (length seqs) fr;
  oi_rest : forall j, i <= j -> j < length seqs ->
    handles fr !! j = Some None /\ pulls fr !! j = Some None;
  oi_below : forall x, x ∈ items fr -> (index x < Z.of_nat i)%Z;
  oi_pending : pending fr ≡ₚ unpulled (take i seqs);
  oi_heads : forall j l, handles fr !! j = Some (Some l) ->
    (l = [] /\ seqs !! j = Some (Some [])) \/
    (exists x, seqs !! j = Some (Some (x :: l)) /\ x ∈ items fr)
}.

(** The iterations from a frame to the end of the loop. *)
Inductive finishes : frame T C -> frame T C -> outcome -> Prop :=
| fin_drained fr :
    items fr = [] -> finishes fr fr Drained
| fin_stopped fr fr' :
    items fr <> [] -> iteration fr (fr', Some Stopped) ->
    finishes fr fr' Stopped
| fin_step fr fr1 fr' o :
    items fr <> [] -> iteration fr (fr1, None) -> finishes fr1 fr' o ->
    finishes fr fr' o.

(** The heap is a heap, the rest of every source is sorted, and the
    element a source has in the heap is not after the rest of it. *)
Record order_ok fr : Prop := {
  oo_heap : is_heap index cmp (items fr);
  oo_sorted : forall i l, handles fr !! i = Some (Some l) -> StronglySorted (cle cmp) l;
  oo_next : forall x i l, x ∈ items fr -> index x = Z.of_nat i ->
    handles fr !! i = Some (Some l) -> Forall (cle cmp x) l
}.

(** The sources are sorted for the comparator. *)
Definition sources_sorted (seqs : list (Seq T)) : Prop :=
  forall i l, seqs !! i = Some (Some l) -> Sorted (cle cmp) l.

(** The frames at which the condition of line 55 is evaluated in a
    call of [all]. *)
Inductive reachable (seqs : list (Seq T)) (c : C) : frame T C -> Prop :=
| reach_start h :
    heap.Init index cmp (items (all_start seqs c)) = Ok h ->
    reachable seqs c (set_items h (all_start seqs c))
| reach_step fr fr' :
    reachable seqs c fr -> items fr <> [] ->
    body index cmp yield fr = (fr', None) ->
    reachable seqs c fr'.
End FrameDefs.

(** Two frames that differ in their consumer only. *)
Definition engine_eq {T C1 C2} (f1 : frame T C1) (f2 : frame T C2) : Prop :=
  items f1 = items f2 /\ pulls f1 = pulls f2 /\
  handles f1 = handles f2 /\ trace f1 = trace f2.

(** ** Sources, outputs and the two entry points *)

(** The elements of the sources, source by source. *)
Definition elements {T} (seqs : list (Seq T)) : list T := unpulled seqs.

(** The sum of the lengths of the sources. *)
Definition total_length {T} (seqs : list (Seq T)) : nat :=
  sum_list_with (fun s : Seq T => match s with Some l => length l | None => 0 end) seqs.

(** The frames at which the loop condition is evaluated while the
    sequence returned by [Merge] runs. *)
Definition merge_reachable {T C} (cmp : T -> T -> Z) (seqs : list (Seq T))
    (yield : C -> T -> C * bool) (c : C) : frame (wrappedSeqValue T) C -> Prop :=
  reachable index (wrapCompare cmp) (fun c v => yield c (sv_v v))
    (wrap_seqs 0 seqs).1 c.

(** One iteration of the loop in a sequence returned by [Merge]. *)
Definition merge_body {T C} (cmp : T -> T -> Z) (yield : C -> T -> C * bool)
    (fr : frame (wrappedSeqValue T) C) : frame (wrappedSeqValue T) C * option outcome :=
  body index (wrapCompare cmp) (fun c v => yield c (sv_v v)) fr.

(** Mapping over results, events, sequences, frames and runs. *)
Definition rmap {A B} (f : A -> B) (m : result A) : result B :=
  match m with
  | Ok a => Ok (f a)
  | Panic p => Panic p
  | Timeout => Timeout
  end.

Definition event_map {A B} (f : A -> B) (e : event A) : event B :=
  match e with
  | EvPull h r => EvPull h (f <$> r)
  | EvYield v => EvYield (f v)
  | EvStop h => EvStop h
  end.

Definition seq_map {A B} (f : A -> B) (s : option (list A)) : option (list B) :=
  fmap (M:=option) (fmap (M:=list) f) s.

Definition frame_map {A B C} (f : A -> B) (fr : frame A C) : frame B C :=
  Frame (f <$> items fr) (pulls fr) (seq_map f <$> handles fr)
        (event_map f <$> trace fr) (consumer fr).

Definition run_map {A B C} (f : A -> B) (r : run A C) : run B C :=
  Run (run_outcome r) (event_map f <$> run_events r) (run_consumer r).

(** [Merge2] seen from [Merge]: a key/value element as an element whose
    value is the pair, the four-argument comparator as a comparator of
    pairs, and a consumer of keys and values as a consumer of pairs. *)
Definition pack {T1 T2} (w : wrappedSeq2Value T1 T2) : wrappedSeqValue (T1 * T2) :=
  WrappedSeqValue (sv2_i w) (sv2_v1 w, sv2_v2 w).

Definition pair_compare {T1 T2} (cmp : T1 -> T2 -> T1 -> T2 -> Z)
    (a b : T1 * T2) : Z :=
  cmp a.1 a.2 b.1 b.2.

Definition pair_yield {T1 T2 C} (yield : C -> T1 -> T2 -> C * bool)
    (c : C) (p : T1 * T2) : C * bool :=
  yield c p.1 p.2.

(** What the consumer of a sequence returned by [Merge2] received. *)
Definition output2 {T1 T2 C} (r : run (wrappedSeq2Value T1 T2) C) : list (T1 * T2) :=
  (fun w => (sv2_v1 w, sv2_v2 w)) <$> yielded (run_events r).

(** Go's [cmp.Compare] on integers, the comparator of the tests. *)
Definition cmp_Compare (a b : Z) : Z :=
  if (a <? b)%Z then (-1)%Z else if (b <? a)%Z then 1%Z else 0%Z.

(** ** The history of a source in a trace *)

(** The results of the calls of [next] on handle [i], in order. *)
Definition pulls_of {T} (i : nat) (tr : list (event T)) : list (option T) :=
  omap (fun e => match e with
                 | EvPull h r => if decide (h = i) then Some r else None
                 | _ => None
                 end) tr.

(** The pull that found a source exhausted: it was made once the source
    had nothing in the heap ([w]) and nothing left to yield ([rest]). *)
Definition exhausted_mark {T} (w rest : list T) : list (option T) :=
  match w, rest with
  | [], [] => [None]
  | _, _ => []
  end.

Section HistoryDefs.
Context {T C : Type} (index : T -> Z).
Implicit Types fr : frame T C.

(** Nothing was pulled from, emitted for or put in the heap for [i]. *)
Definition untouched (i : nat) fr : Prop :=
  pulls_of i (trace fr) = [] /\
  emitted_from index i (trace fr) = [] /\
  with_index index i (items fr) = [].

(** Source [i] at an evaluation of the loop condition: its list is what
    was emitted, then what it has in the heap, then what its handle still
    has to yield; the pulls returned these elements in this order, and
    [None] once after the last. *)
Definition source_state (i : nat) (src : option (option (list T))) fr : Prop :=
  match src with
  | Some (Some l) =>
      exists w rest,
        l = emitted_from index i (trace fr) ++ w ++ rest /\
        handles fr !! i = Some (Some rest) /\
        with_index index i (items fr) = w /\ length w <= 1 /\
        pulls_of i (trace fr) =
          (Some <$> (emitted_from index i (trace fr) ++ w)) ++ exhausted_mark w rest
  | _ => untouched i fr
  end.

(** While the sources are opened: those before [k] are in their state,
    the others are untouched. *)
Definition hist_open (seqs : list (Seq T)) (k : nat) fr : Prop :=
  forall i, (i < k -> source_state i (seqs !! i) fr) /\
            (k <= i -> untouched i fr).

Definition hist_inv (seqs : list (Seq T)) fr : Prop :=
  forall i, source_state i (seqs !! i) fr.

(** What the trace of a finished run shows of source [i]. *)
Definition source_history (i : nat) (src : option (option (list T)))
    (tr : list (event T)) (o : outcome) : Prop :=
  match src with
  | Some (Some l) =>
      exists w rest nones,
        l = emitted_from index i tr ++ w ++ rest /\
        pulls_of i tr = (Some <$> (emitted_from index i tr ++ w)) ++ nones /\
        length w <= 1 /\
        (nones = [] \/ (nones = [None] /\ w = [] /\ rest = [])) /\
        (o = Drained -> w = [] /\ rest = [] /\ nones = [None])
  | _ => pulls_of i tr = [] /\ emitted_from index i tr = []
  end.
End HistoryDefs.

(** ** The merged list *)

(** The textbook stable merge of two lists: on a tie the element of the
    first list goes first. *)
Fixpoint stable_merge {T} (cmp : T -> T -> Z) (l1 : list T) : list T -> list T :=
  fix merge_aux (l2 : list T) : list T :=
    match l1, l2 with
    | [], _ => l2
    | _, [] => l1
    | a :: l1', b :: l2' =>
        if (cmp a b <=? 0)%Z then a :: stable_merge cmp l1' l2
        else b :: merge_aux l2'
    end.

(** The sources that are not nil, merged one after the other from the
    last to the first. *)
Definition merge_all {T} (cmp : T -> T -> Z) (seqs : list (Seq T)) : list T :=
  foldr (stable_merge cmp) [] (omap id seqs).

(** What a consumer receives that ranges over the list [l] and breaks
    when [yield] returns false. *)
Fixpoint consumed {T C} (l : list T) (yield : C -> T -> C * bool) (c : C)
    : list T :=
  match l with
  | [] => []
  | v :: l' =>
      v :: (if (yield c v).2 then consumed l' yield (yield c v).1 else [])
  end.

(** The comparator and the consumer of the [Merge2] tests: keys compared
    by [cmp.Compare], and [collectSeq2]. *)
Definition key_Compare {V} (a1 : Z) (_ : V) (b1 : Z) (_ : V) : Z :=
  cmp_Compare a1 b1.

Definition collect2 {T1 T2} (acc : list (T1 * T2)) (k : T1) (v : T2)
    : list (T1 * T2) * bool :=
  (acc ++ [(k, v)], true).

(** * Properties *)

(** ** The heap operations never fault and only permute

    None of this depends on the comparator. *)

Lemma at_index_Ok {A} (s : list A) i x : at_index s i = Ok x <-> s !! i = Some x.
Proof. unfold at_index. destruct (s !! i); split; congruence. Qed.

Lemma at_index_lookup {A} (s : list A) i x : s !! i = Some x -> at_index s i = Ok x.
Proof. apply at_index_Ok. Qed.

Lemma rbind_Ok {A B} (m : result A) (k : A -> result B) b :
  rbind m k = Ok b <-> exists a, m = Ok a /\ k a = Ok b.
Proof.
  destruct m; simpl; split; try congruence; eauto.
  - intros (a' & [= <-] & ?). done.
  - intros (? & ? & ?). done.
  - intros (? & ? & ?). done.
Qed.

Lemma swapped_lookup {A} (s : list A) i j x y k :
  s !! i = Some x -> s !! j = Some y ->
  swapped s i j x y !! k =
    if decide (k = j) then Some x else if decide (k = i) then Some y else s !! k.
Proof.
  intros Hi Hj. unfold swapped.
  apply lookup_lt_Some in Hi as Hi'. apply lookup_lt_Some in Hj as Hj'.
  destruct (decide (k = j)) as [->|Hkj].
  - rewrite list_lookup_insert_eq; [done | by rewrite length_insert].
  - rewrite list_lookup_insert_ne by done.
    destruct (decide (k = i)) as [->|Hki].
    + by rewrite list_lookup_insert_eq.
    + by rewrite list_lookup_insert_ne.
Qed.

Lemma swapped_length {A} (s : list A) i j x y :
  length (swapped s i j x y) = length s.
Proof. unfold swapped. by rewrite !length_insert. Qed.

Lemma swapped_perm {A} (s : list A) i j x y :
  s !! i = Some x -> s !! j = Some y -> swapped s i j x y ≡ₚ s.
Proof.
  intros Hi Hj. apply Permutation_inj. split; [apply swapped_length|].
  exists (fun k => if decide (k = j) then i else if decide (k = i) then j else k).
  split.
  - intros a b. repeat case_decide; subst; congruence.
  - intros k. rewrite (swapped_lookup _ _ _ _ _ _ Hi Hj).
    repeat case_decide; subst; congruence.
Qed.

Lemma swapped_drop {A} (s : list A) i j x y n :
  i < n -> j < n -> drop n (swapped s i j x y) = drop n s.
Proof. intros. unfold swapped. by rewrite !drop_insert_lt. Qed.

Section HeapShape.
Context {T : Type} (index : T -> Z) (cmp : T -> T -> Z).
Implicit Types h : list T.

Lemma Less_lookup h i j x y :
  h !! i = Some x -> h !! j = Some y ->
  Less index cmp h i j = Ok (less index cmp x y).
Proof.
  intros Hi Hj. unfold Less.
  by rewrite (at_index_lookup _ _ _ Hi), (at_index_lookup _ _ _ Hj).
Qed.

Lemma Swap_lookup h i j x y :
  h !! i = Some x -> h !! j = Some y ->
  Swap h i j = Ok (swapped h i j x y).
Proof.
  intros Hi Hj. unfold Swap.
  by rewrite (at_index_lookup _ _ _ Hi), (at_index_lookup _ _ _ Hj).
Qed.

Lemma reshuffled_refl n h : reshuffled n h h.
Proof. done. Qed.

Lemma reshuffled_trans n h1 h2 h3 :
  reshuffled n h1 h2 -> reshuffled n h2 h3 -> reshuffled n h1 h3.
Proof.
  intros (? & ? & ?) (? & ? & ?). repeat split; etrans; eauto.
Qed.

Lemma reshuffled_swapped n h i j x y :
  h !! i = Some x -> h !! j = Some y -> i < n -> j < n ->
  reshuffled n h (swapped h i j x y).
Proof.
  intros. repeat split;
    auto using swapped_perm, swapped_length, swapped_drop.
Qed.

Lemma down_loop_S fuel h i n :
  heap.down_loop index cmp (S fuel) h i n =
    let j1 := 2 * i + 1 in
    if n <=? j1 then Ok h
    else
      do lt21 <- (if j1 + 1 <? n then Less index cmp h (j1 + 1) j1
                  else Ok false);
      let j := if lt21 then j1 + 1 else j1 in
      do lt <- Less index cmp h j i;
      if negb lt then Ok h
      else do h' <- Swap h i j; heap.down_loop index cmp fuel h' j n.
Proof. reflexivity. Qed.

Lemma up_loop_S fuel h j :
  heap.up_loop index cmp (S fuel) h j =
    let i := (j - 1) / 2 in
    if i =? j then Ok h
    else
      do lt <- Less index cmp h j i;
      if negb lt then Ok h
      else do h' <- Swap h i j; heap.up_loop index cmp fuel h' i.
Proof. reflexivity. Qed.

Lemma down_loop_shape fuel : forall h i n,
  n <= length h -> n - i < fuel ->
  exists h', heap.down_loop index cmp fuel h i n = Ok h' /\ reshuffled n h h'.
Proof.
  induction fuel as [|fuel IH]; intros h i n Hn Hfuel; [lia|].
  rewrite down_loop_S. cbv zeta. destruct (n <=? 2 * i + 1) eqn:Hj1.
  { eauto using reshuffled_refl. }
  apply Nat.leb_gt in Hj1.
  destruct (lookup_lt_is_Some_2 h i) as [x Hx]; [lia|].
  destruct (lookup_lt_is_Some_2 h (2 * i + 1)) as [y1 Hy1]; [lia|].
  assert (forall j y, h !! j = Some y -> i < j < n ->
    exists h',
      (do lt <- Less index cmp h j i;
       if negb lt then Ok h
       else do h' <- Swap h i j; heap.down_loop index cmp fuel h' j n) = Ok h'
      /\ reshuffled n h h') as Htail.
  { intros j y Hy Hij.
    rewrite (Less_lookup _ _ _ _ _ Hy Hx). cbn [rbind negb].
    destruct (less index cmp y x); cbn [rbind negb]; [|eauto using reshuffled_refl].
    rewrite (Swap_lookup _ _ _ _ _ Hx Hy). cbn [rbind negb].
    destruct (IH (swapped h i j x y) j n) as (h' & Hh' & Hre);
      [by rewrite swapped_length | lia |].
    exists h'. split; [done|].
    eapply reshuffled_trans; [|done].
    apply reshuffled_swapped; auto; lia. }
  destruct (2 * i + 1 + 1 <? n) eqn:Hj2.
  - apply Nat.ltb_lt in Hj2.
    destruct (lookup_lt_is_Some_2 h (2 * i + 1 + 1)) as [y2 Hy2]; [lia|].
    rewrite (Less_lookup _ _ _ _ _ Hy2 Hy1). cbn [rbind negb].
    destruct (less index cmp y2 y1); eapply Htail; eauto; lia.
  - eapply Htail; eauto; lia.
Qed.

Lemma up_loop_shape fuel : forall h j,
  j < length h -> j < fuel ->
  exists h', heap.up_loop index cmp fuel h j = Ok h' /\ reshuffled (S j) h h'.
Proof.
  induction fuel as [|fuel IH]; intros h j Hj Hfuel; [lia|].
  rewrite up_loop_S. cbv zeta. destruct ((j - 1) / 2 =? j) eqn:Hi.
  { eauto using reshuffled_refl. }
  apply Nat.eqb_neq in Hi.
  destruct (lookup_lt_is_Some_2 h j) as [x Hx]; [lia|].
  destruct (lookup_lt_is_Some_2 h ((j - 1) / 2)) as [y Hy]; [lia|].
  rewrite (Less_lookup _ _ _ _ _ Hx Hy). cbn [rbind negb].
  destruct (less index cmp x y); cbn [rbind negb]; [|eauto using reshuffled_refl].
  rewrite (Swap_lookup _ _ _ _ _ Hy Hx). cbn [rbind negb].
  destruct (IH (swapped h ((j - 1) / 2) j y x) ((j - 1) / 2))
    as (h' & Hh' & Hp & Hl & Hd); [rewrite swapped_length; lia | lia |].
  exists h'. split; [done|].
  eapply reshuffled_trans;
    [apply (reshuffled_swapped (S j) h _ _ y x Hy Hx); lia|].
  repeat split; auto.
  replace (S j) with (S ((j - 1) / 2) + (j - (j - 1) / 2)) by lia.
  by rewrite <- !drop_drop, Hd.
Qed.

Lemma Init_loop_shape k : forall h n,
  n <= length h ->
  exists h', heap.Init_loop index cmp k h n = Ok h' /\ reshuffled n h h'.
Proof.
  induction k as [|k IH]; intros h n Hn; simpl.
  { eauto using reshuffled_refl. }
  destruct (down_loop_shape (S n) h k n) as (h1 & Hh1 & Hre1); [done | lia |].
  unfold heap.down. rewrite Hh1. cbn [rbind].
  destruct (IH h1 n) as (h2 & Hh2 & Hre2).
  { destruct Hre1 as (_ & -> & _). done. }
  eauto using reshuffled_trans.
Qed.

Lemma Init_shape h : exists h', heap.Init index cmp h = Ok h' /\ h' ≡ₚ h.
Proof.
  destruct (Init_loop_shape (Len h / 2) h (Len h)) as (h' & Hh' & Hp & _);
    [done|]. eauto.
Qed.

Lemma Push_shape h x :
  exists h', heap.Push index cmp h x = Ok h' /\ h' ≡ₚ x :: h.
Proof.
  unfold heap.Push, Push, Len.
  destruct (up_loop_shape (S (length (h ++ [x]) - 1)) (h ++ [x])
              (length (h ++ [x]) - 1)) as (h' & Hh' & Hp & _).
  { rewrite length_app. simpl. lia. }
  { lia. }
  exists h'. split; [done|]. rewrite Hp. by rewrite Permutation_app_comm.
Qed.

(** [heap.Pop] hands out the root of the slice it is given. *)
Lemma Pop_shape h x :
  h !! 0 = Some x ->
  exists h', heap.Pop index cmp h = Ok (x, h') /\ x :: h' ≡ₚ h
             /\ length h = S (length h').
Proof.
  intros Hx. unfold heap.Pop, Len.
  destruct (length h) as [|n] eqn:Hlen.
  { apply lookup_lt_Some in Hx. lia. }
  destruct (lookup_lt_is_Some_2 h n) as [y Hy]; [lia|].
  rewrite (Swap_lookup _ _ _ _ _ Hx Hy). cbn [rbind].
  destruct (down_loop_shape (S n) (swapped h 0 n x y) 0 n)
    as (h2 & Hh2 & Hp & Hl & Hd); [rewrite swapped_length; lia | lia |].
  unfold heap.down. rewrite Hh2. cbn [rbind].
  rewrite swapped_length in Hl.
  assert (h2 !! n = Some x) as Hn.
  { rewrite <- (Nat.add_0_r n), <- lookup_drop, Hd, lookup_drop, Nat.add_0_r.
    rewrite (swapped_lookup _ _ _ _ _ _ Hx Hy). by rewrite decide_True. }
  unfold Pop. rewrite Hl, Hlen, (at_index_lookup _ _ _ Hn). cbn [rbind].
  exists (take n h2). split; [done|].
  split; [|rewrite length_take; lia].
  rewrite <- (swapped_perm h 0 n x y Hx Hy), <- Hp.
  rewrite <- (take_drop n h2) at 2.
  rewrite (drop_S _ _ _ Hn), drop_ge by lia.
  by rewrite <- Permutation_middle, app_nil_r.
Qed.
End HeapShape.

(** ** The heap order

    [Less] is the order the heap keeps.  For a comparator that follows
    the three-way contract it is a strict total order up to elements that
    compare equal and carry the same index. *)

Section HeapOrder.
Context {T : Type} (index : T -> Z) (cmp : T -> T -> Z).
Implicit Types h : list T.
Local Abbreviation before := (before index cmp).
Local Abbreviation ordered := (ordered index cmp).
Local Abbreviation heap_from := (heap_from index cmp).
Local Abbreviation is_heap := (is_heap index cmp).
Local Abbreviation down_inv := (down_inv index cmp).
Local Abbreviation up_inv := (up_inv index cmp).
Local Abbreviation cle := (cle cmp).

Hypothesis Hcmp : comparator_ok cmp.

Lemma cle_before a b : index a = index b -> cle a b -> before a b.
Proof using Hcmp.
  intros Hix Hab. unfold before, less, cle in *.
  pose proof (cmp_antisym _ Hcmp a b).
  repeat case_match; simpl in *; lia.
Qed.

Lemma before_cle a b : before a b -> cle a b.
Proof using Hcmp.
  intros Hab. unfold before, less, cle in *.
  pose proof (cmp_antisym _ Hcmp a b).
  repeat case_match; simpl in *; lia.
Qed.

Lemma less_asym a b : less index cmp a b = true -> less index cmp b a = false.
Proof using Hcmp.
  unfold less. pose proof (cmp_antisym _ Hcmp a b).
  repeat case_match; simpl in *; lia.
Qed.

Lemma before_refl a : before a a.
Proof using Hcmp.
  unfold before, less. pose proof (cmp_antisym _ Hcmp a a).
  repeat case_match; simpl in *; lia.
Qed.

Lemma before_trans a b c : before a b -> before b c -> before a c.
Proof using Hcmp.
  unfold before, less.
  pose proof (cmp_antisym _ Hcmp a b). pose proof (cmp_antisym _ Hcmp b c).
  pose proof (cmp_antisym _ Hcmp a c).
  pose proof (cmp_trans _ Hcmp a b c). pose proof (cmp_trans _ Hcmp c a b).
  pose proof (cmp_trans _ Hcmp b c a).
  repeat case_match; simpl in *; lia.
Qed.

Lemma before_total a b : before a b \/ before b a.
Proof using Hcmp.
  unfold before. destruct (less index cmp b a) eqn:E; auto using less_asym.
Qed.

(** Sifting down: the smaller child is chosen, so after the swap only
    the child's place may still be out of order. *)
Lemma down_loop_order lo fuel : forall h i n h',
  n <= length h -> lo <= i ->
  heap.down_loop index cmp fuel h i n = Ok h' ->
  down_inv lo n i h -> heap_from lo n h'.
Proof using Hcmp.
  induction fuel as [|fuel IH]; intros h i n h' Hn Hlo Hrun [Hinv1 Hinv2];
    [done|].
  rewrite down_loop_S in Hrun. cbv zeta in Hrun.
  destruct (n <=? 2 * i + 1) eqn:Hj1.
  { apply Nat.leb_le in Hj1. injection Hrun as <-.
    intros c Hc Hpc. apply Hinv1; auto. lia. }
  apply Nat.leb_gt in Hj1.
  destruct (lookup_lt_is_Some_2 h i) as [x Hx]; [lia|].
  destruct (lookup_lt_is_Some_2 h (2 * i + 1)) as [y1 Hy1]; [lia|].
  assert (forall j y, h !! j = Some y -> i < j < n -> (j - 1) / 2 = i ->
    (forall c z, 0 < c < n -> (c - 1) / 2 = i -> h !! c = Some z -> before y z) ->
      (do lt <- Less index cmp h j i;
       if negb lt then Ok h
       else do h1 <- Swap h i j; heap.down_loop index cmp fuel h1 j n) = Ok h' ->
      heap_from lo n h') as Htail.
  { intros j y Hy Hij Hpj Hmin.
    rewrite (Less_lookup _ _ _ _ _ _ _ Hy Hx). cbn [rbind negb].
    destruct (less index cmp y x) eqn:Hyx; cbn [rbind negb].
    - rewrite (Swap_lookup _ _ _ _ _ Hx Hy). cbn [rbind negb].
      intros Hrun'. apply IH in Hrun'; auto;
        [by rewrite swapped_length | lia |].
      split.
      + intros c Hc Hpc Hne a b.
        rewrite !(swapped_lookup _ _ _ _ _ _ Hx Hy).
        destruct (decide (c = j)) as [->|Hcj].
        { rewrite Hpj. rewrite decide_False by lia. rewrite decide_True by done.
          intros [= <-] [= <-]. by apply less_asym. }
        destruct (decide (c = i)) as [->|Hci].
        { rewrite !decide_False by lia. intros Hp [= <-].
          eapply (Hinv2 ltac:(lia) ltac:(lia) j); eauto. lia. }
        rewrite decide_False by lia.
        destruct (decide ((c - 1) / 2 = i)) as [Hpi|Hpi].
        { intros [= <-] Hb. eapply Hmin; eauto. }
        intros Hp Hb. eapply Hinv1; eauto.
      + intros Hj0 Hlo' c Hc Hpc a b.
        rewrite !(swapped_lookup _ _ _ _ _ _ Hx Hy). rewrite Hpj.
        rewrite decide_False by lia. rewrite decide_True by done.
        rewrite !decide_False by lia.
        intros [= <-] Hb. eapply (Hinv1 c); eauto; try lia.
        by rewrite Hpc.
    - intros [= <-]. intros c Hc Hpc a b Ha Hb.
      destruct (decide ((c - 1) / 2 = i)) as [Hpi|Hpi].
      + rewrite Hpi in Ha. assert (a = x) as -> by congruence.
        eapply before_trans; [exact Hyx|]. eapply Hmin; eauto.
      + eapply Hinv1; eauto. }
  destruct (2 * i + 1 + 1 <? n) eqn:Hj2.
  - apply Nat.ltb_lt in Hj2.
    destruct (lookup_lt_is_Some_2 h (2 * i + 1 + 1)) as [y2 Hy2]; [lia|].
    rewrite (Less_lookup _ _ _ _ _ _ _ Hy2 Hy1) in Hrun. cbn [rbind negb] in Hrun.
    destruct (less index cmp y2 y1) eqn:Hy21.
    + eapply (Htail _ _ Hy2); eauto; try lia.
      intros c z Hc Hpc Hz.
      assert (c = 2 * i + 1 \/ c = 2 * i + 1 + 1) as [->| ->] by lia.
      * assert (z = y1) as -> by congruence. by apply less_asym.
      * assert (z = y2) as -> by congruence. by apply before_refl.
    + eapply (Htail _ _ Hy1); eauto; try lia.
      intros c z Hc Hpc Hz.
      assert (c = 2 * i + 1 \/ c = 2 * i + 1 + 1) as [->| ->] by lia.
      * assert (z = y1) as -> by congruence. by apply before_refl.
      * assert (z = y2) as -> by congruence. done.
  - apply Nat.ltb_ge in Hj2. cbn [rbind] in Hrun.
    eapply (Htail _ _ Hy1); eauto; try lia.
    intros c z Hc Hpc Hz. assert (c = 2 * i + 1) as -> by lia.
    assert (z = y1) as -> by congruence. by apply before_refl.
Qed.
(** Sifting up: after the swap only the parent's place may still be
    out of order. *)
Lemma up_loop_order n fuel : forall h j h',
  j < n <= length h ->
  heap.up_loop index cmp fuel h j = Ok h' ->
  up_inv n j h -> heap_from 0 n h'.
Proof using Hcmp.
  induction fuel as [|fuel IH]; intros h j h' Hj Hrun [Hinv1 Hinv2]; [done|].
  rewrite up_loop_S in Hrun. cbv zeta in Hrun.
  destruct ((j - 1) / 2 =? j) eqn:Hi.
  { apply Nat.eqb_eq in Hi. injection Hrun as <-.
    intros c Hc _. apply Hinv1; auto. lia. }
  apply Nat.eqb_neq in Hi.
  destruct (lookup_lt_is_Some_2 h j) as [x Hx]; [lia|].
  destruct (lookup_lt_is_Some_2 h ((j - 1) / 2)) as [y Hy]; [lia|].
  rewrite (Less_lookup _ _ _ _ _ _ _ Hx Hy) in Hrun. cbn [rbind negb] in Hrun.
  destruct (less index cmp x y) eqn:Hxy; cbn [rbind negb] in Hrun.
  - rewrite (Swap_lookup _ _ _ _ _ Hy Hx) in Hrun. cbn [rbind] in Hrun.
    assert (before x y) as Hbxy by (by apply less_asym).
    assert (forall c z, 0 < c < n -> c <> j -> (c - 1) / 2 = (j - 1) / 2 ->
              h !! c = Some z -> before y z) as Hsib.
    { intros c z Hc Hcj Hpc Hz. eapply (Hinv1 c); eauto. by rewrite Hpc. }
    apply IH in Hrun; auto; [rewrite swapped_length; lia|].
    split.
    + intros c Hc Hne a b.
      rewrite !(swapped_lookup _ _ _ _ _ _ Hy Hx).
      destruct (decide (c = j)) as [->|Hcj].
      { rewrite decide_False by lia. rewrite decide_True by done.
        by intros [= <-] [= <-]. }
      rewrite (decide_False (P := c = _)) by done.
      destruct (decide ((c - 1) / 2 = j)) as [Hpj|Hpj].
      { intros [= <-] Hb. eapply (Hinv2 ltac:(lia) c); eauto. }
      destruct (decide ((c - 1) / 2 = (j - 1) / 2)) as [Hpi|Hpi].
      { intros [= <-] Hb. eapply before_trans; [exact Hbxy|]. eauto. }
      intros Ha Hb. eapply (Hinv1 c); eauto.
    + intros Hi0 c Hc Hpc a b.
      rewrite !(swapped_lookup _ _ _ _ _ _ Hy Hx).
      rewrite !(decide_False (P := (_ - 1) / 2 = _)) by lia.
      intros Ha.
      assert (before a y) as Hay.
      { eapply (Hinv1 ((j - 1) / 2)); eauto; lia. }
      destruct (decide (c = j)) as [->|Hcj]; [by intros [= <-]|].
      rewrite decide_False by lia.
      intros Hb. eapply before_trans; [exact Hay|]. eauto.
  - injection Hrun as <-. intros c Hc _ a b Ha Hb.
    destruct (decide (c = j)) as [->|Hcj].
    + assert (a = y) as -> by congruence. assert (b = x) as -> by congruence.
      exact Hxy.
    + eapply (Hinv1 c); eauto.
Qed.

Lemma Init_loop_order k : forall h n h',
  n <= length h ->
  heap.Init_loop index cmp k h n = Ok h' ->
  heap_from k n h -> heap_from 0 n h'.
Proof using Hcmp.
  induction k as [|k IH]; intros h n h' Hn Hrun Hheap; simpl in Hrun.
  { by injection Hrun as <-. }
  apply rbind_Ok in Hrun as (h1 & Hdown & Hrun).
  destruct (down_loop_shape index cmp (S n) h k n) as (h1' & Hh1 & _ & Hl & _);
    [done | lia |].
  unfold heap.down in Hdown. rewrite Hh1 in Hdown. injection Hdown as ->.
  eapply IH; [by rewrite Hl | exact Hrun |].
  eapply (down_loop_order k); [exact Hn | done | exact Hh1 |].
  split.
  - intros c Hc Hpc Hne. apply Hheap; auto. lia.
  - intros. lia.
Qed.

Lemma Init_order h h' : heap.Init index cmp h = Ok h' -> is_heap h'.
Proof using Hcmp.
  intros Hrun.
  destruct (Init_loop_shape index cmp (Len h / 2) h (Len h)) as (h1 & Hh1 & _ & Hl & _);
    [done|].
  unfold heap.Init in Hrun. rewrite Hh1 in Hrun. injection Hrun as ->.
  unfold is_heap. rewrite Hl.
  eapply Init_loop_order; eauto.
  intros c Hc Hpc. unfold Len in *. lia.
Qed.

Lemma Push_order h x h' :
  is_heap h -> heap.Push index cmp h x = Ok h' -> is_heap h'.
Proof using Hcmp.
  intros Hheap Hrun. unfold heap.Push, Push, Len in Hrun.
  rewrite length_app in Hrun. simpl in Hrun.
  replace (length h + 1 - 1) with (length h) in Hrun by lia.
  destruct (up_loop_shape index cmp (S (length h)) (h ++ [x]) (length h))
    as (h1 & Hh1 & _ & Hl & _); [rewrite length_app; simpl; lia | lia |].
  unfold heap.up in Hrun. rewrite Hh1 in Hrun. injection Hrun as ->.
  unfold is_heap. rewrite Hl, length_app. simpl.
  eapply up_loop_order; eauto.
  { rewrite length_app. simpl. lia. }
  split.
  - intros c Hc Hne a b Ha Hb.
    rewrite lookup_app_l in Ha by lia. rewrite lookup_app_l in Hb by lia.
    eapply (Hheap c); eauto; lia.
  - intros. lia.
Qed.

Lemma Pop_order h x h' :
  is_heap h -> heap.Pop index cmp h = Ok (x, h') -> is_heap h'.
Proof using Hcmp.
  intros Hheap Hrun. unfold heap.Pop, Len in Hrun.
  destruct (length h) as [|n] eqn:Hlen; [done|].
  destruct (lookup_lt_is_Some_2 h 0) as [r Hr]; [lia|].
  destruct (lookup_lt_is_Some_2 h n) as [y Hy]; [lia|].
  rewrite (Swap_lookup _ _ _ _ _ Hr Hy) in Hrun. cbn [rbind] in Hrun.
  destruct (down_loop_shape index cmp (S n) (swapped h 0 n r y) 0 n)
    as (h2 & Hh2 & _ & Hl & _); [rewrite swapped_length; lia | lia |].
  unfold heap.down in Hrun. rewrite Hh2 in Hrun. cbn [rbind] in Hrun.
  rewrite swapped_length in Hl.
  assert (heap_from 0 n h2) as Hheap2.
  { eapply down_loop_order; eauto; [rewrite swapped_length; lia|].
    split; [|lia].
    intros c Hc _ Hne a b.
    rewrite !(swapped_lookup _ _ _ _ _ _ Hr Hy).
    rewrite !decide_False by lia.
    intros Ha Hb. eapply (Hheap c); eauto; lia. }
  unfold Pop in Hrun. rewrite Hl, Hlen in Hrun.
  apply rbind_Ok in Hrun as (item & _ & [= _ <-]).
  unfold is_heap. rewrite length_take_le by lia.
  intros c Hc _ a b Ha Hb.
  rewrite lookup_take_lt in Ha by lia. rewrite lookup_take_lt in Hb by lia.
  eapply (Hheap2 c); eauto; lia.
Qed.

(** The root of a heap may stand before every element. *)
Lemma root_min h x :
  is_heap h -> h !! 0 = Some x -> forall y, y ∈ h -> before x y.
Proof using Hcmp.
  intros Hheap Hx y Hy. apply list_elem_of_lookup in Hy as [k Hk].
  revert y Hk. induction (lt_wf k) as [k _ IH]. intros y Hk.
  destruct (decide (k = 0)) as [->|Hk0].
  { assert (y = x) as -> by congruence. apply before_refl. }
  apply lookup_lt_Some in Hk as Hlt.
  destruct (lookup_lt_is_Some_2 h ((k - 1) / 2)) as [z Hz]; [lia|].
  eapply before_trans; [eapply (IH ((k - 1) / 2)); eauto; lia|].
  eapply (Hheap k); eauto; lia.
Qed.
End HeapOrder.

(** ** The frames of [all]

    What holds of the variables of [all] every time the loop condition
    of line 55 is evaluated, for sources whose elements carry the
    position of their source as [index()]. *)

Lemma pulls_at_tagged {T} (index : T -> Z) ps v i :
  index v = Z.of_nat i -> ps !! i = Some (Some i) ->
  pulls_at ps (index v) = Ok i.
Proof.
  intros Hv Hi. unfold pulls_at. rewrite Hv.
  destruct (Z.of_nat i <? 0)%Z eqn:E; [apply Z.ltb_lt in E; lia|].
  by rewrite Nat2Z.id, Hi.
Qed.

Section Frames.
Context {T C : Type} (index : T -> Z) (cmp : T -> T -> Z).
Context (yield : C -> T -> C * bool).
Implicit Types fr : frame T C.
Local Abbreviation with_index := (with_index index).
Local Abbreviation frame_ok := (frame_ok index).
Local Abbreviation ok_pulls_len := (ok_pulls_len index).
Local Abbreviation ok_handles_len := (ok_handles_len index).
Local Abbreviation ok_tagged := (ok_tagged index).
Local Abbreviation ok_nodup := (ok_nodup index).
Local Abbreviation ok_pulls := (ok_pulls index).
Local Abbreviation ok_handles := (ok_handles index).
Local Abbreviation ok_frontier := (ok_frontier index).
Local Abbreviation ok_count := (ok_count index).
Local Abbreviation tagged := (tagged index).
Local Abbreviation open_inv := (open_inv index).
Local Abbreviation iteration := (iteration index cmp yield).
Local Abbreviation finishes := (finishes index cmp yield).
Local Abbreviation reachable := (reachable index cmp yield).
Local Abbreviation order_ok := (order_ok index cmp).
Local Abbreviation oo_heap := (oo_heap index cmp).
Local Abbreviation oo_sorted := (oo_sorted index cmp).
Local Abbreviation oo_next := (oo_next index cmp).
Local Abbreviation sources_sorted := (sources_sorted cmp).

Lemma body_iteration n fr :
  frame_ok n fr -> items fr <> [] -> iteration fr (body index cmp yield fr).
Proof.
  intros Hok Hne.
  destruct (items fr) as [|v0 its] eqn:Hits; [done|].
  destruct (Pop_shape index cmp (items fr) v0) as (h & Hpop & Hperm & _);
    [by rewrite Hits|].
  unfold body. rewrite Hpop. cbn [or_fault].
  destruct (yield (consumer fr) v0) as [c more] eqn:Hy.
  destruct more; cbn [negb]; [|eapply it_stop; eauto; by rewrite Hits].
  destruct (ok_tagged _ _ Hok v0) as (i & Hi & Hp); [rewrite Hits; left|].
  unfold refill. cbn [pulls]. rewrite (pulls_at_tagged index _ _ _ Hi Hp).
  cbn [or_fault]. unfold next. cbn [handles items pulls trace consumer].
  destruct (ok_pulls _ _ Hok _ _ Hp) as (_ & l & Hl). rewrite Hl.
  destruct l as [|v' l]; cbn [handles items pulls trace consumer or_fault].
  - rewrite <- app_assoc. eapply it_exhausted; eauto. by rewrite Hits.
  - destruct (Push_shape index cmp h v') as (h' & Hpush & _).
    rewrite Hpush. cbn [or_fault]. unfold set_items.
    cbn [handles items pulls trace consumer]. rewrite <- app_assoc.
    eapply it_refill; eauto. by rewrite Hits.
Qed.
Lemma with_index_cons i l v h :
  l ≡ₚ v :: h ->
  length (with_index i l) =
    (if decide (index v = Z.of_nat i) then 1 else 0) + length (with_index i h).
Proof.
  intros Hl. unfold with_index. rewrite Hl, filter_cons.
  by case_decide.
Qed.

Lemma pulled_from_app i (tr1 tr2 : list (event T)) :
  pulled_from i (tr1 ++ tr2) = pulled_from i tr1 ++ pulled_from i tr2.
Proof. apply omap_app. Qed.

Lemma emitted_from_app i (tr1 tr2 : list (event T)) :
  emitted_from index i (tr1 ++ tr2) =
    emitted_from index i tr1 ++ emitted_from index i tr2.
Proof. apply omap_app. Qed.

Lemma yielded_app (tr1 tr2 : list (event T)) :
  yielded (tr1 ++ tr2) = yielded tr1 ++ yielded tr2.
Proof. apply omap_app. Qed.

Lemma unpulled_insert (hs : list (option (list T))) i v l :
  hs !! i = Some (Some (v :: l)) ->
  unpulled hs ≡ₚ v :: unpulled (<[i := Some l]> hs).
Proof.
  intros Hi. apply lookup_lt_Some in Hi as Hlt.
  rewrite (insert_take_drop _ _ _ Hlt).
  rewrite <- (take_drop_middle _ _ _ Hi) at 1.
  unfold unpulled. rewrite !omap_app, !concat_app. simpl.
  by rewrite <- Permutation_middle.
Qed.

Lemma unpulled_elem (hs : list (option (list T))) x :
  x ∈ unpulled hs <-> exists i l, hs !! i = Some (Some l) /\ x ∈ l.
Proof.
  unfold unpulled. rewrite list_elem_of_In, in_concat. split.
  - intros (l & Hl & Hx). apply list_elem_of_In in Hl, Hx.
    apply list_elem_of_omap in Hl as (o & Ho & Hol).
    apply list_elem_of_lookup in Ho as [i Hi]. simpl in Hol. subst o. eauto.
  - intros (i & l & Hi & Hx). exists l. rewrite <- !list_elem_of_In.
    split; [|done].
    apply list_elem_of_omap. exists (Some l). split; [|done].
    apply list_elem_of_lookup. eauto.
Qed.

(** An iteration that goes on keeps the frame well formed and takes
    the root of the heap out of what is pending. *)
Lemma iteration_ok n fr fr' :
  frame_ok n fr -> iteration fr (fr', None) ->
  frame_ok n fr' /\
  exists v, items fr !! 0 = Some v /\ pending fr ≡ₚ v :: pending fr' /\
            yielded (trace fr') = yielded (trace fr) ++ [v].
Proof.
  intros Hok Hit. inversion Hit as [|v h c i v' l h' Hroot Hpop Hy Hi Hh Hpush|v h c i Hroot Hpop Hy Hi Hh]; subst.
  - (* refilled *)
    destruct (Pop_shape index cmp _ _ Hroot) as (h0 & Hpop' & Hperm & _).
    rewrite Hpop in Hpop'. injection Hpop' as <-.
    destruct (Push_shape index cmp h v') as (h0 & Hpush' & Hperm').
    rewrite Hpush in Hpush'. injection Hpush' as <-.
    destruct (ok_tagged _ _ Hok v) as (i0 & Hi0 & Hp);
      [eapply list_elem_of_lookup_2; eauto|].
    assert (i0 = i) as -> by lia.
    assert (index v' = Z.of_nat i) as Hi'.
    { eapply (ok_handles _ _ Hok); eauto. left. }
    assert (forall x, x ∈ h -> x ∈ items fr) as Hsub.
    { intros x Hx. rewrite <- Hperm. by right. }
    assert (forall x, x ∈ h -> index x <> Z.of_nat i) as Hother.
    { intros x Hx Hxi. pose proof (ok_nodup _ _ Hok) as Hnd.
      rewrite <- Hperm in Hnd. rewrite fmap_cons in Hnd.
      apply NoDup_cons in Hnd as [Hnin _]. apply Hnin.
      rewrite Hi, <- Hxi. by apply list_elem_of_fmap_2. }
    split; [split; cbn [items pulls handles trace]|].
    + apply Hok.
    + rewrite length_insert. apply Hok.
    + intros x Hx. rewrite Hperm' in Hx.
      apply elem_of_cons in Hx as [->|Hx]; eauto.
      apply (ok_tagged _ _ Hok). auto.
    + rewrite Hperm', fmap_cons, Hi', <- Hi, <- fmap_cons, Hperm. apply Hok.
    + intros j p Hj. destruct (ok_pulls _ _ Hok _ _ Hj) as (-> & l0 & Hl0).
      split; [done|].
      destruct (decide (i = j)) as [->|Hne].
      * exists l. rewrite list_lookup_insert_eq; [done|].
        by eapply lookup_lt_Some.
      * exists l0. by rewrite list_lookup_insert_ne.
    + intros j l0 x Hj Hx.
      destruct (decide (i = j)) as [->|Hne].
      * rewrite list_lookup_insert_eq in Hj by (by eapply lookup_lt_Some).
        injection Hj as <-. eapply (ok_handles _ _ Hok); eauto. by right.
      * rewrite list_lookup_insert_ne in Hj by done.
        eapply (ok_handles _ _ Hok); eauto.
    + intros j l0 Hj Hl0.
      destruct (decide (i = j)) as [->|Hne].
      * exists v'. split; [|done]. rewrite Hperm'. left.
      * rewrite list_lookup_insert_ne in Hj by done.
        destruct (ok_frontier _ _ Hok _ _ Hj Hl0) as (x & Hx & Hxj).
        exists x. split; [|done]. rewrite Hperm'. right.
        rewrite <- Hperm in Hx. apply elem_of_cons in Hx as [->|Hx]; [lia|done].
    + intros j. pose proof (ok_count _ _ Hok j) as Hc.
      rewrite (with_index_cons j _ v h) in Hc by done.
      rewrite (with_index_cons j h' v' h) by done.
      rewrite pulled_from_app, emitted_from_app, !length_app. simpl.
      rewrite Hi, Hi' in *. repeat case_decide; simpl; lia.
    + exists v. split; [done|]. split.
      * unfold pending. cbn [items handles].
        rewrite (unpulled_insert _ _ _ _ Hh), <- Hperm, Hperm'.
        simpl. rewrite <- Permutation_middle. by rewrite perm_swap.
      * cbn [trace]. by rewrite yielded_app.
  - (* exhausted *)
    destruct (Pop_shape index cmp _ _ Hroot) as (h0 & Hpop' & Hperm & _).
    rewrite Hpop in Hpop'. injection Hpop' as <-.
    assert (forall x, x ∈ h -> x ∈ items fr) as Hsub.
    { intros x Hx. rewrite <- Hperm. by right. }
    split; [split; cbn [items pulls handles trace]|].
    + apply Hok.
    + apply Hok.
    + intros x Hx. apply (ok_tagged _ _ Hok). auto.
    + pose proof (ok_nodup _ _ Hok) as Hnd.
      rewrite <- Hperm, fmap_cons in Hnd. by apply NoDup_cons in Hnd as [_ ?].
    + apply Hok.
    + apply Hok.
    + intros j l0 Hj Hl0.
      destruct (ok_frontier _ _ Hok _ _ Hj Hl0) as (x & Hx & Hxj).
      exists x. split; [|done].
      rewrite <- Hperm in Hx. apply elem_of_cons in Hx as [->|Hx]; [|done].
      assert (j = i) as -> by lia. congruence.
    + intros j. pose proof (ok_count _ _ Hok j) as Hc.
      rewrite (with_index_cons j _ v h) in Hc by done.
      rewrite pulled_from_app, emitted_from_app, !length_app. simpl.
      rewrite Hi in *. repeat case_decide; simpl; lia.
    + exists v. split; [done|]. split.
      * unfold pending. cbn [items handles]. by rewrite <- Hperm.
      * cbn [trace]. by rewrite yielded_app.
Qed.
(** *** The frame the loop starts from *)

Lemma unpulled_insert_None (hs : list (option (list T))) i l :
  hs !! i = Some None ->
  unpulled (<[i := Some l]> hs) ≡ₚ l ++ unpulled hs.
Proof.
  intros Hi. apply lookup_lt_Some in Hi as Hlt.
  rewrite (insert_take_drop _ _ _ Hlt).
  rewrite <- (take_drop_middle _ _ _ Hi) at 3.
  unfold unpulled. rewrite !omap_app, !concat_app. simpl.
  apply Permutation_app_swap_app.
Qed.

Lemma unpulled_snoc (hs : list (option (list T))) o :
  unpulled (hs ++ [o]) = unpulled hs ++ default [] o.
Proof.
  unfold unpulled. rewrite omap_app, concat_app.
  destruct o; simpl; by rewrite ?app_nil_r.
Qed.

Lemma unpulled_replicate n : unpulled (replicate n (@None (list T))) = [].
Proof. induction n; simpl; auto. Qed.

Lemma open_inv_start seqs (c : C) :
  open_inv seqs 0
    (Frame [] (replicate (length seqs) None) (replicate (length seqs) None) [] c).
Proof.
  split; [split|..]; cbn [items pulls handles trace].
  - apply length_replicate.
  - apply length_replicate.
  - intros x Hx. by apply elem_of_nil in Hx.
  - constructor.
  - intros i p Hi. apply lookup_replicate in Hi as [? _]. done.
  - intros i l x Hi. apply lookup_replicate in Hi as [? _]. done.
  - intros i l Hi. apply lookup_replicate in Hi as [? _]. done.
  - done.
  - intros j _ Hj. by rewrite !lookup_replicate_2.
  - intros x Hx. by apply elem_of_nil in Hx.
  - unfold pending. cbn [items handles]. by rewrite unpulled_replicate.
  - intros j l Hj. apply lookup_replicate in Hj as [? _]. done.
Qed.

Lemma open_one_inv seqs i seq fr :
  tagged seqs -> seqs !! i = Some seq ->
  open_inv seqs i fr -> open_inv seqs (S i) (open_one i seq fr).
Proof.
  intros Htag Hseq [Hok Hrest Hbelow Hpend Hheads].
  apply lookup_lt_Some in Hseq as Hlt.
  destruct (Hrest i) as [Hhi Hpi]; [done..|].
  assert (i < length (handles fr)) as Hlth by (by rewrite (ok_handles_len _ _ Hok)).
  assert (i < length (pulls fr)) as Hltp by (by rewrite (ok_pulls_len _ _ Hok)).
  unfold open_one. destruct seq as [[|v l]|].
  - (* an empty sequence: the first pull reports exhaustion *)
    unfold next. cbn [handles items pulls trace consumer].
    rewrite list_lookup_insert_eq by done.
    split; [split|..]; cbn [items pulls handles trace].
    + apply Hok.
    + rewrite length_insert. apply Hok.
    + apply Hok.
    + apply Hok.
    + intros j p Hj. destruct (ok_pulls _ _ Hok _ _ Hj) as (-> & l0 & Hl0).
      split; [done|]. exists l0.
      rewrite list_lookup_insert_ne; [done|]. congruence.
    + intros j l0 x Hj Hx.
      destruct (decide (i = j)) as [->|Hne].
      * rewrite list_lookup_insert_eq in Hj by done.
        injection Hj as <-. by apply elem_of_nil in Hx.
      * rewrite list_lookup_insert_ne in Hj by done.
        eapply (ok_handles _ _ Hok); eauto.
    + intros j l0 Hj Hl0.
      destruct (decide (i = j)) as [->|Hne].
      * rewrite list_lookup_insert_eq in Hj by done. congruence.
      * rewrite list_lookup_insert_ne in Hj by done.
        eapply (ok_frontier _ _ Hok); eauto.
    + intros j. pose proof (ok_count _ _ Hok j) as Hc.
      rewrite pulled_from_app, emitted_from_app, !length_app. simpl. lia.
    + intros j Hj Hjn. rewrite list_lookup_insert_ne by lia.
      apply Hrest; lia.
    + intros x Hx. apply Hbelow in Hx. lia.
    + unfold pending in *. cbn [items handles].
      rewrite (take_S_r _ _ _ Hseq), unpulled_snoc. simpl.
      rewrite (unpulled_insert_None _ _ _ Hhi). simpl.
      by rewrite app_nil_r.
    + intros j l0 Hj.
      destruct (decide (i = j)) as [->|Hne].
      * rewrite list_lookup_insert_eq in Hj by done.
        injection Hj as <-. by left.
      * rewrite list_lookup_insert_ne in Hj by done. auto.
  - (* the first element goes to the heap *)
    unfold next. cbn [handles items pulls trace consumer].
    rewrite list_lookup_insert_eq by done.
    cbn [handles items pulls trace consumer].
    rewrite list_insert_insert_eq.
    assert (index v = Z.of_nat i) as Hv.
    { eapply Htag; eauto. left. }
    split; [split|..]; cbn [items pulls handles trace].
    + rewrite length_insert. apply Hok.
    + rewrite length_insert. apply Hok.
    + intros x Hx. apply elem_of_app in Hx as [Hx|Hx].
      * destruct (ok_tagged _ _ Hok x Hx) as (j & Hj & Hpj).
        exists j. split; [done|].
        rewrite list_lookup_insert_ne; [done|]. congruence.
      * apply list_elem_of_singleton in Hx as ->.
        exists i. split; [done|]. by rewrite list_lookup_insert_eq.
    + rewrite fmap_app. apply NoDup_app. split; [apply Hok|].
      split; [|apply NoDup_singleton].
      intros ix Hix Hix'. apply list_elem_of_singleton in Hix' as ->.
      apply list_elem_of_fmap in Hix as (x & Hx1 & Hx2).
      apply Hbelow in Hx2. lia.
    + intros j p Hj.
      destruct (decide (i = j)) as [->|Hne].
      * rewrite list_lookup_insert_eq in Hj by done. injection Hj as <-.
        split; [done|]. exists l. by rewrite list_lookup_insert_eq.
      * rewrite list_lookup_insert_ne in Hj by done.
        destruct (ok_pulls _ _ Hok _ _ Hj) as (-> & l0 & Hl0).
        split; [done|]. exists l0. by rewrite list_lookup_insert_ne.
    + intros j l0 x Hj Hx.
      destruct (decide (i = j)) as [->|Hne].
      * rewrite list_lookup_insert_eq in Hj by done.
        injection Hj as <-. eapply Htag; eauto. by right.
      * rewrite list_lookup_insert_ne in Hj by done.
        eapply (ok_handles _ _ Hok); eauto.
    + intros j l0 Hj Hl0.
      destruct (decide (i = j)) as [->|Hne].
      * exists v. split; [|done]. apply elem_of_app. right. left.
      * rewrite list_lookup_insert_ne in Hj by done.
        destruct (ok_frontier _ _ Hok _ _ Hj Hl0) as (x & Hx & Hxj).
        exists x. split; [|done]. apply elem_of_app. by left.
    + intros j. pose proof (ok_count _ _ Hok j) as Hc.
      rewrite pulled_from_app, emitted_from_app, !length_app. simpl.
      unfold with_index in *. rewrite filter_app, length_app, filter_cons.
      rewrite Hv. repeat case_decide; simpl; lia.
    + intros j Hj Hjn. rewrite !list_lookup_insert_ne by lia.
      apply Hrest; lia.
    + intros x Hx. apply elem_of_app in Hx as [Hx|Hx].
      * apply Hbelow in Hx. lia.
      * apply list_elem_of_singleton in Hx as ->. lia.
    + unfold pending in *. cbn [items handles].
      rewrite (take_S_r _ _ _ Hseq), unpulled_snoc. simpl.
      rewrite (unpulled_insert_None _ _ _ Hhi), <- Hpend.
      rewrite <- !(assoc app). apply Permutation_app_head.
      rewrite (Permutation_app_comm (unpulled _)). simpl.
      by rewrite (Permutation_app_comm l).
    + intros j l0 Hj.
      destruct (decide (i = j)) as [->|Hne].
      * rewrite list_lookup_insert_eq in Hj by done.
        injection Hj as <-. right. exists v. split; [done|].
        apply elem_of_app. right. left.
      * rewrite list_lookup_insert_ne in Hj by done.
        destruct (Hheads _ _ Hj) as [?|(x & ? & ?)]; [by left|].
        right. exists x. split; [done|]. apply elem_of_app. by left.
  - (* a nil sequence is skipped *)
    split; auto.
    + intros j Hj Hjn. apply Hrest; lia.
    + intros x Hx. apply Hbelow in Hx. lia.
    + rewrite (take_S_r _ _ _ Hseq), unpulled_snoc. simpl.
      by rewrite app_nil_r.
Qed.

Lemma open_loop_inv seqs : forall rest i fr,
  tagged seqs -> drop i seqs = rest ->
  open_inv seqs i fr ->
  open_inv seqs (length seqs) (open_loop i rest fr).
Proof.
  induction rest as [|seq rest IH]; intros i fr Htag Hdrop Hinv; simpl.
  - assert (length seqs <= i) as Hle.
    { apply (f_equal length) in Hdrop. rewrite length_drop in Hdrop.
      simpl in Hdrop. lia. }
    destruct Hinv as [Hok Hrest Hbelow Hpend Hheads]. split; auto.
    + intros j Hj Hjn. apply Hrest; lia.
    + intros x Hx.
      destruct (ok_tagged _ _ Hok x Hx) as (j & Hj & Hpj).
      apply lookup_lt_Some in Hpj. rewrite (ok_pulls_len _ _ Hok) in Hpj. lia.
    + rewrite Hpend. by rewrite !take_ge by lia.
  - assert (seqs !! i = Some seq) as Hseq.
    { assert (drop i seqs !! 0 = Some seq) as H0 by (by rewrite Hdrop).
      by rewrite lookup_drop, Nat.add_0_r in H0. }
    apply IH; auto.
    + replace (S i) with (i + 1) by lia.
      by rewrite <- drop_drop, Hdrop.
    + by apply open_one_inv.
Qed.

Lemma all_start_inv seqs (c : C) :
  tagged seqs -> open_inv seqs (length seqs) (all_start seqs c).
Proof.
  intros Htag. unfold all_start.
  apply open_loop_inv; auto using open_inv_start.
Qed.
(** *** The loop *)

Lemma frame_ok_set_items n fr h :
  h ≡ₚ items fr -> frame_ok n fr -> frame_ok n (set_items h fr).
Proof.
  intros Hperm Hok. split; unfold set_items; cbn [items pulls handles trace];
    try apply Hok.
  - intros x Hx. rewrite Hperm in Hx. by apply Hok.
  - rewrite Hperm. apply (ok_nodup _ _ Hok).
  - intros i l Hi Hl. destruct (ok_frontier _ _ Hok _ _ Hi Hl) as (x & Hx & ?).
    exists x. by rewrite Hperm.
  - intros i. unfold with_index. rewrite Hperm. apply (ok_count _ _ Hok).
Qed.

Lemma pending_set_items fr h :
  h ≡ₚ items fr -> pending (set_items h fr) ≡ₚ pending fr.
Proof. intros Hperm. unfold pending. cbn [set_items items handles]. by rewrite Hperm. Qed.

(** With an empty heap nothing is left in the sources. *)
Lemma drained_unpulled n fr :
  frame_ok n fr -> items fr = [] -> unpulled (handles fr) = [].
Proof.
  intros Hok Hits.
  destruct (unpulled (handles fr)) as [|x us] eqn:Hun; [done|].
  assert (x ∈ unpulled (handles fr)) as Hx by (rewrite Hun; left).
  apply unpulled_elem in Hx as (i & l & Hi & Hx).
  destruct (ok_frontier _ _ Hok i l Hi) as (y & Hy & _).
  { intros ->. by apply elem_of_nil in Hx. }
  rewrite Hits in Hy. by apply elem_of_nil in Hy.
Qed.

Lemma loop_finishes n fuel : forall fr,
  frame_ok n fr -> length (pending fr) < fuel ->
  exists fr' o, loop index cmp yield fuel fr = (fr', o) /\ finishes fr fr' o.
Proof.
  induction fuel as [|fuel IH]; intros fr Hok Hfuel; [lia|].
  simpl. unfold Len. destruct (length (items fr) =? 0) eqn:Hlen.
  { apply Nat.eqb_eq, length_zero_iff_nil in Hlen.
    eauto using fin_drained. }
  apply Nat.eqb_neq in Hlen.
  assert (items fr <> []) as Hne by (intros E; by rewrite E in Hlen).
  pose proof (body_iteration n fr Hok Hne) as Hit.
  destruct (body index cmp yield fr) as [fr1 [o|]] eqn:Hbody.
  - inversion Hit; subst. eauto using fin_stopped.
  - destruct (iteration_ok n fr fr1 Hok Hit) as (Hok1 & v & _ & Hperm & _).
    destruct (IH fr1 Hok1) as (fr' & o & Hloop & Hfin).
    { apply Permutation_length in Hperm. simpl in Hperm. lia. }
    eauto using fin_step.
Qed.
(** *** Order *)

(** The root of the heap may stand before everything that is pending. *)
Lemma pending_min n fr v :
  comparator_ok cmp -> frame_ok n fr -> order_ok fr ->
  items fr !! 0 = Some v ->
  forall y, y ∈ pending fr -> before index cmp v y.
Proof.
  intros Hcmp Hok Hord Hv y Hy.
  pose proof (root_min index cmp Hcmp _ _ (oo_heap _ Hord) Hv) as Hroot.
  apply elem_of_app in Hy as [Hy|Hy]; [auto|].
  apply unpulled_elem in Hy as (i & l & Hi & Hy).
  destruct (ok_frontier _ _ Hok i l Hi) as (x & Hx & Hxi).
  { intros ->. by apply elem_of_nil in Hy. }
  eapply before_trans; [done | by apply Hroot |].
  apply cle_before; [done | |].
  - rewrite Hxi. symmetry. eapply (ok_handles _ _ Hok); eauto.
  - pose proof (oo_next _ Hord x i l Hx Hxi Hi) as Hall.
    rewrite Forall_forall in Hall. auto.
Qed.

Lemma same_index_same_item n fr x y :
  frame_ok n fr -> x ∈ items fr -> y ∈ items fr -> index x = index y -> x = y.
Proof.
  intros Hok Hx Hy Hxy. pose proof (ok_nodup _ _ Hok) as Hnd.
  apply list_elem_of_lookup in Hx as [i Hi], Hy as [j Hj].
  assert (i = j) as ->; [|congruence].
  eapply NoDup_lookup; [exact Hnd | |].
  - rewrite list_lookup_fmap, Hi. done.
  - rewrite list_lookup_fmap, Hj. simpl. by rewrite Hxy.
Qed.

Lemma iteration_order n fr fr' :
  comparator_ok cmp -> frame_ok n fr -> order_ok fr ->
  iteration fr (fr', None) -> order_ok fr'.
Proof.
  intros Hcmp Hok Hord Hit.
  inversion Hit as [|v h c i v' l h' Hroot Hpop Hy Hi Hh Hpush|v h c i Hroot Hpop Hy Hi Hh]; subst.
  - destruct (Pop_shape index cmp _ _ Hroot) as (h0 & Hpop' & Hperm & _).
    rewrite Hpop in Hpop'. injection Hpop' as <-.
    destruct (Push_shape index cmp h v') as (h0 & Hpush' & Hperm').
    rewrite Hpush in Hpush'. injection Hpush' as <-.
    pose proof (oo_sorted _ Hord _ _ Hh) as Hsorted.
    apply StronglySorted_inv in Hsorted as [Hsl Hvl].
    assert (v ∈ items fr) as Hvin by (eapply list_elem_of_lookup_2; eauto).
    split; cbn [items handles].
    + eapply Push_order; eauto. eapply Pop_order; eauto. apply Hord.
    + intros j l0 Hj.
      destruct (decide (i = j)) as [->|Hne].
      * rewrite list_lookup_insert_eq in Hj by (by eapply lookup_lt_Some).
        by injection Hj as <-.
      * rewrite list_lookup_insert_ne in Hj by done.
        eapply (oo_sorted _ Hord); eauto.
    + intros x j l0 Hx Hxj Hj. rewrite Hperm' in Hx.
      assert (index v' = Z.of_nat i) as Hi'.
      { eapply (ok_handles _ _ Hok); eauto. left. }
      apply elem_of_cons in Hx as [->|Hx].
      * assert (j = i) as -> by lia.
        rewrite list_lookup_insert_eq in Hj by (by eapply lookup_lt_Some).
        by injection Hj as <-.
      * assert (x ∈ items fr) as Hxin by (rewrite <- Hperm; by right).
        destruct (decide (i = j)) as [->|Hne].
        { assert (x = v) as ->.
          { eapply same_index_same_item; eauto. congruence. }
          pose proof (ok_nodup _ _ Hok) as Hnd.
          rewrite <- Hperm, fmap_cons in Hnd.
          apply NoDup_cons in Hnd as [Hnin _]. destruct Hnin.
          by apply list_elem_of_fmap_2. }
        rewrite list_lookup_insert_ne in Hj by done.
        eapply (oo_next _ Hord); eauto.
  - destruct (Pop_shape index cmp _ _ Hroot) as (h0 & Hpop' & Hperm & _).
    rewrite Hpop in Hpop'. injection Hpop' as <-.
    split; cbn [items handles].
    + eapply Pop_order; eauto. apply Hord.
    + apply Hord.
    + intros x j l0 Hx Hxj Hj.
      eapply (oo_next _ Hord); eauto. rewrite <- Hperm. by right.
Qed.

(** What a run of iterations emits: the pending elements, root by
    root; in heap order when the frame is in order. *)
Lemma finishes_emits n fr fr' o :
  finishes fr fr' o -> frame_ok n fr ->
  exists out,
    yielded (trace fr') = yielded (trace fr) ++ out /\
    pending fr ≡ₚ out ++ pending fr' /\
    (o = Drained -> pending fr' = []) /\
    (comparator_ok cmp -> order_ok fr ->
     StronglySorted (before index cmp) out).
Proof.
  induction 1 as [fr Hits|fr fr' Hne Hit|fr fr1 fr' o Hne Hit Hfin IH];
    intros Hok.
  - exists []. rewrite app_nil_r. split_and!; auto.
    + intros _. unfold pending. by rewrite Hits, (drained_unpulled n fr).
    + constructor.
  - inversion Hit as [v h c Hroot Hpop Hy| |]; subst.
    destruct (Pop_shape index cmp _ _ Hroot) as (h0 & Hpop' & Hperm & _).
    rewrite Hpop in Hpop'. injection Hpop' as <-.
    exists [v]. cbn [trace]. rewrite yielded_app. split_and!; auto.
    + unfold pending. cbn [items handles]. by rewrite <- Hperm.
    + done.
    + intros _ _. repeat constructor.
  - destruct (iteration_ok n fr fr1 Hok Hit) as (Hok1 & v & Hroot & Hperm & Hyield).
    destruct (IH Hok1) as (out & Hout & Hpend & Hdr & Hsorted).
    exists (v :: out). split_and!; auto.
    + rewrite Hout, Hyield, <- app_assoc. done.
    + rewrite Hperm, Hpend. done.
    + intros Hcmp Hord. constructor.
      * apply Hsorted; [done|].
        exact (iteration_order n fr fr1 Hcmp Hok Hord Hit).
      * apply Forall_forall. intros y Hy.
        apply (pending_min n fr v Hcmp Hok Hord Hroot).
        rewrite Hperm, Hpend. right. apply elem_of_app. by left.
Qed.
(** *** A call of [all] *)

Lemma reachable_ok seqs c fr :
  tagged seqs -> reachable seqs c fr -> frame_ok (length seqs) fr.
Proof.
  intros Htag. induction 1 as [h Hinit|fr fr' _ IH Hne Hbody].
  - destruct (Init_shape index cmp (items (all_start seqs c))) as (h' & Hh' & Hperm).
    rewrite Hinit in Hh'. injection Hh' as <-.
    apply frame_ok_set_items; [done|]. by apply all_start_inv.
  - pose proof (body_iteration _ _ IH Hne) as Hit. rewrite Hbody in Hit.
    by destruct (iteration_ok _ _ _ IH Hit).
Qed.

Lemma reachable_heap seqs c fr :
  comparator_ok cmp -> tagged seqs -> reachable seqs c fr ->
  is_heap index cmp (items fr).
Proof.
  intros Hcmp Htag. induction 1 as [h Hinit|fr fr' Hreach IH Hne Hbody].
  - cbn [set_items items]. by eapply Init_order.
  - pose proof (body_iteration _ _ (reachable_ok _ _ _ Htag Hreach) Hne) as Hit.
    rewrite Hbody in Hit.
    inversion Hit as [|v h c0 i v' l h' Hroot Hpop Hy Hi Hh Hpush
                      |v h c0 i Hroot Hpop Hy Hi Hh]; subst; cbn [items].
    + apply (Push_order index cmp Hcmp h v' h'); [|done].
      exact (Pop_order index cmp Hcmp _ _ _ IH Hpop).
    + exact (Pop_order index cmp Hcmp _ _ _ IH Hpop).
Qed.

Lemma start_order seqs (c : C) h :
  comparator_ok cmp -> tagged seqs -> sources_sorted seqs ->
  heap.Init index cmp (items (all_start seqs c)) = Ok h ->
  order_ok (set_items h (all_start seqs c)).
Proof.
  intros Hcmp Htag Hsorted Hinit.
  destruct (Init_shape index cmp (items (all_start seqs c))) as (h' & Hh' & Hperm).
  rewrite Hinit in Hh'. injection Hh' as <-.
  destruct (all_start_inv seqs c Htag) as [Hok _ _ _ Hheads].
  assert (forall i l, seqs !! i = Some (Some l) -> StronglySorted (cle cmp) l) as Hss.
  { intros i l Hi. apply Sorted_StronglySorted; [|by eapply Hsorted].
    intros x y z. apply (cmp_trans _ Hcmp). }
  split; cbn [set_items items handles].
  - by eapply Init_order.
  - intros i l Hi. destruct (Hheads _ _ Hi) as [[-> _]|(x & Hx & _)].
    + constructor.
    + apply Hss in Hx. by apply StronglySorted_inv in Hx as [? _].
  - intros x i l Hx Hxi Hi. rewrite Hperm in Hx.
    destruct (Hheads _ _ Hi) as [[-> _]|(x' & Hx' & Hin)]; [constructor|].
    assert (x = x') as ->.
    { eapply same_index_same_item; eauto. rewrite Hxi. symmetry.
      eapply Htag; eauto. left. }
    apply Hss in Hx'. by apply StronglySorted_inv in Hx' as [_ ?].
Qed.

(** A call of [all] on tagged sources builds its heap and runs its
    iterations to the end: it neither faults nor runs out of fuel. *)
Lemma all_finishes seqs c :
  tagged seqs ->
  exists h fr' o,
    heap.Init index cmp (items (all_start seqs c)) = Ok h /\
    finishes (set_items h (all_start seqs c)) fr' o /\
    all index cmp yield seqs c =
      Run o (trace fr' ++ (EvStop <$> deferred 0 seqs)) (consumer fr').
Proof.
  intros Htag.
  destruct (Init_shape index cmp (items (all_start seqs c))) as (h & Hinit & Hperm).
  pose proof (all_start_inv seqs c Htag) as [Hok _ _ _ _].
  destruct (loop_finishes (length seqs) (all_fuel (all_start seqs c))
              (set_items h (all_start seqs c))) as (fr' & o & Hloop & Hfin).
  { by apply frame_ok_set_items. }
  { unfold all_fuel. rewrite (pending_set_items _ _ Hperm).
    unfold pending. rewrite length_app. lia. }
  exists h, fr', o. split_and!; auto.
  unfold all. by rewrite Hinit, Hloop.
Qed.
Lemma finishes_continues fr fr' o :
  (forall c v, (yield c v).2 = true) -> finishes fr fr' o -> o = Drained.
Proof.
  intros Hy. induction 1 as [|fr fr' _ Hit|]; auto.
  inversion Hit as [v h c _ _ Hyv| |]; subst.
  specialize (Hy (consumer fr) v). rewrite Hyv in Hy. done.
Qed.

Lemma finishes_stopped fr fr' :
  finishes fr fr' Stopped -> exists tr v, trace fr' = tr ++ [EvYield v].
Proof.
  remember Stopped as o eqn:Ho.
  induction 1 as [|fr fr' _ Hit|]; [done| |auto].
  inversion Hit; subst. cbn [trace]. eauto.
Qed.

Lemma open_one_yielded i seq fr :
  yielded (trace (open_one i seq fr)) = yielded (trace fr) /\
  consumer (open_one i seq fr) = consumer fr.
Proof.
  unfold open_one, next. destruct seq as [l|]; [|done].
  cbn [handles items pulls trace consumer].
  destruct (<[i:=Some l]> (handles fr) !! i) as [[[|v l']|]|];
    cbn [handles items pulls trace consumer];
    rewrite yielded_app; simpl; by rewrite app_nil_r.
Qed.

Lemma open_loop_yielded seqs : forall i fr,
  yielded (trace (open_loop i seqs fr)) = yielded (trace fr) /\
  consumer (open_loop i seqs fr) = consumer fr.
Proof.
  induction seqs as [|seq seqs IH]; intros i fr; simpl; [done|].
  destruct (IH (S i) (open_one i seq fr)) as [-> ->].
  apply open_one_yielded.
Qed.

Lemma all_start_consumer (seqs : list (Seq T)) (c : C) :
  consumer (all_start seqs c) = c.
Proof. unfold all_start. by destruct (open_loop_yielded seqs 0 (Frame [] (replicate (length seqs) None) (replicate (length seqs) None) [] c)) as [_ ->]. Qed.

Lemma all_start_yielded (seqs : list (Seq T)) (c : C) :
  yielded (trace (all_start seqs c)) = [].
Proof. unfold all_start. by destruct (open_loop_yielded seqs 0 (Frame [] (replicate (length seqs) None) (replicate (length seqs) None) [] c)) as [-> _]. Qed.
Lemma pulled_app (tr1 tr2 : list (event T)) :
  pulled (tr1 ++ tr2) = pulled tr1 ++ pulled tr2.
Proof using Type. apply omap_app. Qed.

Lemma open_one_pulled i seq fr :
  length (pulled (trace (open_one i seq fr))) =
    length (pulled (trace fr)) + length (omap id [seq]).
Proof using Type.
  clear index cmp yield.
  unfold open_one, next. destruct seq as [l|]; [|simpl; lia].
  cbn [handles items pulls trace consumer].
  destruct (<[i:=Some l]> (handles fr) !! i) as [[[|v l']|]|];
    cbn [handles items pulls trace consumer];
    rewrite pulled_app, length_app; simpl; lia.
Qed.

Lemma open_loop_pulled seqs : forall i fr,
  length (pulled (trace (open_loop i seqs fr))) =
    length (pulled (trace fr)) + length (omap id seqs).
Proof using Type.
  clear index cmp yield.
  induction seqs as [|seq seqs IH]; intros i fr; [simpl; lia|].
  cbn [open_loop]. rewrite IH, open_one_pulled.
  change (seq :: seqs) with ([seq] ++ seqs). rewrite omap_app, length_app. lia.
Qed.

(** The pulls of the loop: one for every element emitted, but for the
    one at which the consumer stopped. *)
Lemma finishes_pulled fr fr' o :
  finishes fr fr' o ->
  length (pulled (trace fr')) + length (yielded (trace fr)) +
    (if o is Stopped then 1 else 0) =
  length (pulled (trace fr)) + length (yielded (trace fr')).
Proof.
  induction 1 as [fr Hits|fr fr' Hne Hit|fr fr1 fr' o Hne Hit Hfin IH].
  - lia.
  - inversion Hit; subst. cbn [trace].
    rewrite pulled_app, yielded_app, !length_app. simpl. lia.
  - inversion Hit; subst; cbn [trace] in IH;
      rewrite pulled_app, yielded_app, !length_app in IH; simpl in IH; lia.
Qed.

Lemma finishes_outcome fr fr' o :
  finishes fr fr' o -> o = Drained \/ o = Stopped.
Proof. induction 1; auto. Qed.
(** *** A single source *)

Lemma single_item fr v :
  frame_ok 1 fr -> items fr !! 0 = Some v -> items fr = [v].
Proof.
  intros Hok Hv. destruct (items fr) as [|v0 [|x its]] eqn:Hits; simplify_eq/=;
    [done|].
  assert (forall y, y ∈ items fr -> index y = 0%Z) as Hzero.
  { intros y Hy. destruct (ok_tagged _ _ Hok y Hy) as (i & -> & Hi).
    apply lookup_lt_Some in Hi. rewrite (ok_pulls_len _ _ Hok) in Hi.
    by replace i with 0 by lia. }
  pose proof (ok_nodup _ _ Hok) as Hnd. rewrite Hits in Hnd, Hzero.
  rewrite !fmap_cons in Hnd. apply NoDup_cons in Hnd as [Hnin _].
  destruct Hnin. rewrite (Hzero v), (Hzero x); [left | right; left | left].
Qed.

Lemma finishes_single fr fr' o :
  finishes fr fr' o -> frame_ok 1 fr -> o = Drained ->
  yielded (trace fr') = yielded (trace fr) ++ pending fr.
Proof.
  induction 1 as [fr Hits|fr fr' Hne Hit|fr fr1 fr' o Hne Hit Hfin IH];
    intros Hok Ho; [|done|].
  - unfold pending. by rewrite Hits, (drained_unpulled 1 fr), app_nil_r.
  - destruct (iteration_ok 1 fr fr1 Hok Hit) as (Hok1 & v & Hroot & _ & Hyield).
    rewrite (IH Hok1 Ho), Hyield, <- app_assoc. f_equal. simpl.
    pose proof (single_item _ _ Hok Hroot) as Hits.
    pose proof (ok_handles_len _ _ Hok) as Hlen.
    destruct (handles fr) as [|hd [|? ?]] eqn:Hhs; simplify_eq/=.
    unfold pending. rewrite Hits, Hhs.
    destruct (Pop_shape index cmp _ _ Hroot) as (h0 & Hpop0 & Hperm & _).
    rewrite Hits in Hperm.
    apply Permutation_cons_inv_l in Hperm as (k1 & k2 & Hk & Hp).
    destruct k1 as [|? [|? ?]]; simplify_eq/=.
    apply Permutation_nil_r in Hp as ->.
    inversion Hit as [|v0 h c i v' l h' _ Hpop Hy Hi Hh Hpush
                      |v0 h c i _ Hpop Hy Hi Hh]; subst; cbn [items handles];
      rewrite Hpop0 in Hpop; injection Hpop as <- <-;
      rewrite Hhs in Hh;
      (destruct i as [|i]; [|by destruct i]); simplify_eq/=.
    + destruct (Push_shape index cmp [] v') as (h0 & Hpush' & Hperm').
      rewrite Hpush in Hpush'. injection Hpush' as <-.
      apply Permutation_singleton_r in Hperm' as ->.
      rewrite Hhs. unfold unpulled. simpl. by rewrite !app_nil_r.
    + rewrite Hhs. done.
Qed.
(** *** The size of the frontier *)

Lemma frontier_size n fr :
  frame_ok n fr ->
  length (items fr) = length (outstanding index n (trace fr)).
Proof.
  intros Hok.
  rewrite <- (length_fmap (Z.to_nat ∘ index) (items fr)).
  apply Permutation_length, NoDup_Permutation.
  - rewrite list_fmap_compose. apply NoDup_fmap_2_strong; [|apply (ok_nodup _ _ Hok)].
    intros a b Ha Hb Hab.
    apply list_elem_of_fmap in Ha as (x & -> & Hx), Hb as (y & -> & Hy).
    destruct (ok_tagged _ _ Hok x Hx) as (i & Hi & _).
    destruct (ok_tagged _ _ Hok y Hy) as (j & Hj & _).
    rewrite Hi, Hj in *. rewrite !Nat2Z.id in Hab. by subst.
  - apply NoDup_filter, NoDup_seq.
  - intros i. unfold outstanding.
    rewrite list_elem_of_filter, elem_of_seq, (ok_count _ _ Hok i).
    rewrite list_elem_of_fmap. split.
    + intros (x & -> & Hx). simpl.
      destruct (ok_tagged _ _ Hok x Hx) as (j & Hj & Hpj).
      apply lookup_lt_Some in Hpj. rewrite (ok_pulls_len _ _ Hok) in Hpj.
      rewrite Hj, Nat2Z.id. split; [|lia].
      assert (x ∈ with_index j (items fr)) as Hin.
      { apply list_elem_of_filter. done. }
      destruct (with_index j (items fr)); [by apply elem_of_nil in Hin|].
      simpl. lia.
    + intros [Hlt _].
      destruct (with_index i (items fr)) as [|x ?] eqn:Hw; [simpl in Hlt; lia|].
      assert (x ∈ with_index i (items fr)) as Hin by (rewrite Hw; left).
      apply list_elem_of_filter in Hin as [Hxi Hx].
      exists x. split; [|done]. simpl. by rewrite Hxi, Nat2Z.id.
Qed.

(** What is pending in a frame of a call comes from the sources. *)
Lemma reachable_pending seqs c fr :
  tagged seqs -> reachable seqs c fr ->
  forall x, x ∈ pending fr -> x ∈ unpulled seqs.
Proof.
  intros Htag. induction 1 as [h Hinit|fr fr' Hreach IH Hne Hbody]; intros x Hx.
  - destruct (Init_shape index cmp (items (all_start seqs c))) as (h' & Hh' & Hperm).
    rewrite Hinit in Hh'. injection Hh' as <-.
    rewrite (pending_set_items _ _ Hperm) in Hx.
    destruct (all_start_inv seqs c Htag) as [_ _ _ Hpend _].
    by rewrite Hpend, take_ge in Hx.
  - pose proof (reachable_ok _ _ _ Htag Hreach) as Hok.
    pose proof (body_iteration _ _ Hok Hne) as Hit. rewrite Hbody in Hit.
    destruct (iteration_ok _ _ _ Hok Hit) as (_ & v & _ & Hperm & _).
    apply IH. rewrite Hperm. by right.
Qed.
End Frames.

(** ** Two consumers of one merge

    The engine does not look at its consumer: two runs go through the
    same frames for as long as both consumers go on. *)

Section TwoConsumers.
Context {T C1 C2 : Type} (index : T -> Z) (cmp : T -> T -> Z).
Context (yield1 : C1 -> T -> C1 * bool) (yield2 : C2 -> T -> C2 * bool).

Lemma iteration_engine_eq f1 f2 f1' f2' :
  engine_eq f1 f2 ->
  iteration index cmp yield1 f1 (f1', None) ->
  iteration index cmp yield2 f2 (f2', None) ->
  engine_eq f1' f2'.
Proof.
  intros (Hi & Hp & Hh & Ht) H1 H2.
  inversion H1 as [|v h c i v' l h' Hroot Hpop Hy Hix Hhd Hpush
                   |v h c i Hroot Hpop Hy Hix Hhd]; subst;
  inversion H2 as [|v2 h2 c2 i2 v2' l2 h2' Hroot2 Hpop2 Hy2 Hix2 Hhd2 Hpush2
                   |v2 h2 c2 i2 Hroot2 Hpop2 Hy2 Hix2 Hhd2]; subst;
  rewrite <- Hi in *; rewrite <- Hh in *;
  rewrite Hpop in Hpop2; injection Hpop2 as <- <-;
  assert (i2 = i) as -> by lia;
  rewrite Hhd in Hhd2; simplify_eq/=.
  - rewrite Hpush in Hpush2. injection Hpush2 as <-.
    by repeat split; cbn [items pulls handles trace]; f_equal.
  - by repeat split; cbn [items pulls handles trace]; f_equal.
Qed.

Lemma engine_eq_open_one i seq (f1 : frame T C1) (f2 : frame T C2) :
  engine_eq f1 f2 -> engine_eq (open_one i seq f1) (open_one i seq f2).
Proof.
  intros (Hi & Hp & Hh & Ht). unfold open_one, next.
  destruct seq as [l|]; [|done].
  cbn [items pulls handles trace consumer]. rewrite Hh.
  destruct (<[i:=Some l]> (handles f2) !! i) as [[[|v l']|]|];
    cbn [items pulls handles trace consumer];
    repeat split; cbn [items pulls handles trace]; congruence.
Qed.

Lemma engine_eq_open_loop seqs : forall i (f1 : frame T C1) (f2 : frame T C2),
  engine_eq f1 f2 -> engine_eq (open_loop i seqs f1) (open_loop i seqs f2).
Proof.
  induction seqs as [|seq seqs IH]; intros i f1 f2 Heq; simpl; [done|].
  by apply IH, engine_eq_open_one.
Qed.

Lemma engine_eq_all_start (seqs : list (Seq T)) (c1 : C1) (c2 : C2) :
  engine_eq (all_start seqs c1) (all_start seqs c2).
Proof. unfold all_start. by apply engine_eq_open_loop. Qed.

Lemma finishes_trace_grows fr fr' o :
  finishes index cmp yield2 fr fr' o -> exists evs, trace fr' = trace fr ++ evs.
Proof.
  induction 1 as [fr _|fr fr' _ Hit|fr fr1 fr' o _ Hit _ [evs ->]].
  - exists []. by rewrite app_nil_r.
  - inversion Hit; subst. cbn [trace]. eauto.
  - inversion Hit; subst; cbn [trace]; rewrite <- app_assoc; eauto.
Qed.

(** A consumer that stops has received a prefix of what a consumer
    that never stops receives. *)
Lemma finishes_prefix f1 f1' o1 :
  finishes index cmp yield1 f1 f1' o1 ->
  forall f2 f2' o2,
    (forall c v, (yield2 c v).2 = true) ->
    engine_eq f1 f2 ->
    finishes index cmp yield2 f2 f2' o2 ->
    yielded (trace f1') `prefix_of` yielded (trace f2').
Proof.
  induction 1 as [f1 Hits|f1 f1' Hne Hit|f1 f1a f1' o1 Hne Hit Hfin IH];
    intros f2 f2' o2 Hy Heq Hfin2.
  - destruct Heq as (Hi & _ & _ & Ht). rewrite Ht.
    apply finishes_trace_grows in Hfin2 as [evs ->].
    rewrite yielded_app. by apply prefix_app_r.
  - inversion Hit as [v h c Hroot Hpop Hyv| |]; subst. cbn [trace].
    destruct Heq as (Hi & _ & _ & Ht).
    inversion Hfin2 as [f Hits2|f f' Hne2 Hit2|f fa f' o Hne2 Hit2 Hfin2'];
      subst.
    + congruence.
    + inversion Hit2 as [v2 h2 c2 _ _ Hyv2| |]; subst.
      specialize (Hy (consumer f2) v2). by rewrite Hyv2 in Hy.
    + apply finishes_trace_grows in Hfin2' as [evs ->].
      assert (exists evs', trace fa = trace f1 ++ [EvYield v] ++ evs') as [evs' ->].
      { rewrite Hi in Hroot.
        inversion Hit2; subst; cbn [trace]; rewrite Ht;
          simplify_eq/=; eauto. }
      rewrite !yielded_app, <- !app_assoc. apply prefix_app.
      simpl. by apply prefix_cons, prefix_nil.
  - inversion Hfin2 as [f Hits2|f f' Hne2 Hit2|f fa f' o Hne2 Hit2 Hfin2'];
      subst.
    + destruct Heq as (Hi & _). congruence.
    + inversion Hit2 as [v2 h2 c2 _ _ Hyv2| |]; subst.
      specialize (Hy (consumer f2) v2). by rewrite Hyv2 in Hy.
    + eapply IH; eauto. eapply iteration_engine_eq; eauto.
Qed.
End TwoConsumers.

(** ** [Merge] on its sources *)

Section MergeFacts.
Context {T : Type}.
Implicit Types seqs : list (Seq T).

Lemma elements_length seqs : length (elements seqs) = total_length seqs.
Proof.
  unfold elements, unpulled, total_length.
  induction seqs as [|[l|] seqs IH]; simpl; auto.
  rewrite length_app. f_equal. exact IH.
Qed.

Lemma wrapSeq_values i (l : list T) : sv_v <$> wrapSeq i l = l.
Proof. unfold wrapSeq. rewrite <- list_fmap_compose. apply list_fmap_id. Qed.

Lemma wrap_seqs_lookup seqs : forall i j,
  (wrap_seqs i seqs).1 !! j =
    fmap (wrapSeq (Z.of_nat (i + j))) <$> seqs !! j.
Proof.
  induction seqs as [|s seqs IH]; intros i j; simpl; [done|].
  specialize (IH (S i)). destruct (wrap_seqs (S i) seqs) as [ws ok].
  simpl in IH.
  destruct j as [|j].
  - rewrite Nat.add_0_r. by destruct s.
  - replace (i + S j) with (S i + j) by lia. destruct s; simpl; apply IH.
Qed.

Lemma wrap_seqs_length seqs : forall i, length (wrap_seqs i seqs).1 = length seqs.
Proof.
  induction seqs as [|s seqs IH]; intros i; simpl; [done|].
  specialize (IH (S i)). destruct (wrap_seqs (S i) seqs) as [ws ok].
  destruct s; simpl in *; by rewrite IH.
Qed.

Lemma wrap_seqs_nil seqs : forall i,
  (wrap_seqs i seqs).2 = false <-> Forall (fun s => s = None) seqs.
Proof.
  induction seqs as [|s seqs IH]; intros i; simpl; [by split|].
  specialize (IH (S i)). destruct (wrap_seqs (S i) seqs) as [ws ok].
  destruct s; simpl in *.
  - split; [done|]. by inversion 1.
  - rewrite IH. split; [by constructor|]. by inversion 1.
Qed.

Lemma wrap_seqs_elements seqs : forall i,
  sv_v <$> elements (wrap_seqs i seqs).1 = elements seqs.
Proof.
  induction seqs as [|s seqs IH]; intros i; simpl; [done|].
  specialize (IH (S i)). destruct (wrap_seqs (S i) seqs) as [ws ok].
  unfold elements, unpulled in *.
  destruct s; simpl in *; [|done].
  rewrite fmap_app, wrapSeq_values. f_equal. exact IH.
Qed.

Lemma wrap_seqs_tagged seqs : tagged index (wrap_seqs 0 seqs).1.
Proof.
  intros i l x Hi Hx. rewrite wrap_seqs_lookup in Hi. simpl in Hi.
  destruct (seqs !! i) as [[s|]|]; simplify_eq/=.
  unfold wrapSeq in Hx. apply list_elem_of_fmap in Hx as (v & -> & _). done.
Qed.

Lemma wrap_seqs_sorted (cmp : T -> T -> Z) seqs :
  sources_sorted cmp seqs ->
  sources_sorted (wrapCompare cmp) (wrap_seqs 0 seqs).1.
Proof.
  intros Hsorted i l Hi. rewrite wrap_seqs_lookup in Hi. simpl in Hi.
  destruct (seqs !! i) as [[s|]|] eqn:Hs; simplify_eq/=.
  eapply Sorted_fmap; [|by eapply Hsorted]. done.
Qed.

Lemma wrapCompare_ok (cmp : T -> T -> Z) :
  comparator_ok cmp -> comparator_ok (wrapCompare cmp).
Proof.
  intros [Ha Ht]. split; unfold wrapCompare; [auto|].
  intros a b c. apply Ht.
Qed.

(** The two ways a call of [Merge] goes. *)
Lemma Merge_run {C} (cmp : T -> T -> Z) seqs (yield : C -> T -> C * bool) c :
  ((wrap_seqs 0 seqs).2 = false /\ Forall (fun s => s = None) seqs /\
   Merge (C:=C) (Some cmp) seqs = Ok emptySeq) \/
  ((wrap_seqs 0 seqs).2 = true /\ exists h fr' o,
     Merge (C:=C) (Some cmp) seqs = Ok (mergeSeq (wrapCompare cmp) (wrap_seqs 0 seqs).1) /\
     heap.Init index (wrapCompare cmp)
       (items (all_start (wrap_seqs 0 seqs).1 c)) = Ok h /\
     finishes index (wrapCompare cmp) (fun c v => yield c (sv_v v))
       (set_items h (all_start (wrap_seqs 0 seqs).1 c)) fr' o /\
     mergeSeq (wrapCompare cmp) (wrap_seqs 0 seqs).1 yield c =
       Run o (trace fr' ++ (EvStop <$> deferred 0 (wrap_seqs 0 seqs).1))
           (consumer fr')).
Proof.
  unfold Merge. pose proof (wrap_seqs_nil seqs 0) as Hnil.
  destruct (wrap_seqs 0 seqs) as [ws ok] eqn:Hws. simpl in Hnil.
  destruct ok; simpl.
  - right. split; [done|].
    destruct (all_finishes index (wrapCompare cmp) (fun c v => yield c (sv_v v)) ws c)
      as (h & fr' & o & Hinit & Hfin & Hall).
    { pose proof (wrap_seqs_tagged seqs) as Htag. by rewrite Hws in Htag. }
    exists h, fr', o. split_and!; auto.
  - left. split_and!; [done | by apply Hnil | done].
Qed.
Lemma yielded_stops (l : list nat) : yielded (T:=wrappedSeqValue T) (EvStop <$> l) = [].
Proof. induction l; simpl; auto. Qed.

Lemma elements_nil seqs : Forall (fun s => s = None) seqs -> elements seqs = [].
Proof. induction 1 as [|s seqs -> _ IH]; auto. Qed.

Lemma strongly_sorted_lookup {A} (R : relation A) l p q a b :
  StronglySorted R l -> l !! p = Some a -> l !! q = Some b -> p < q -> R a b.
Proof.
  intros Hsorted. revert p q. induction Hsorted as [|x l _ IH Hall];
    intros p q Hp Hq Hpq; [done|].
  destruct q as [|q]; [lia|]. destruct p as [|p]; simpl in *.
  - injection Hp as ->. rewrite Forall_forall in Hall. apply Hall.
    by eapply list_elem_of_lookup_2.
  - eapply IH; eauto. lia.
Qed.

(** What a sequence returned by [Merge] emits, for any consumer: some
    of the tagged elements of the sources, all of them when it is
    drained, in heap order when the sources are sorted. *)
Lemma Merge_emits {C} (cmp : T -> T -> Z) seqs (yield : C -> T -> C * bool) c :
  exists s, Merge (Some cmp) seqs = Ok s /\
    (run_outcome (s yield c) = Drained \/ run_outcome (s yield c) = Stopped) /\
    ((forall c v, (yield c v).2 = true) -> run_outcome (s yield c) = Drained) /\
    (exists rest,
       elements (wrap_seqs 0 seqs).1 ≡ₚ yielded (run_events (s yield c)) ++ rest /\
       (run_outcome (s yield c) = Drained -> rest = [])) /\
    (comparator_ok cmp -> sources_sorted cmp seqs ->
     StronglySorted (before index (wrapCompare cmp))
       (yielded (run_events (s yield c)))).
Proof.
  destruct (Merge_run cmp seqs yield c)
    as [(_ & Hnil & HM)|(_ & h & fr' & o & HM & Hinit & Hfin & Hrun)];
    eexists; (split; [exact HM|]).
  - simpl. split_and!; auto; [|constructor].
    exists []. split; [|done].
    assert (sv_v <$> elements (wrap_seqs 0 seqs).1 = []) as Hel.
    { by rewrite wrap_seqs_elements, elements_nil. }
    apply fmap_nil_inv in Hel. by rewrite Hel.
  - rewrite Hrun. cbn [run_outcome run_events].
    rewrite yielded_app, yielded_stops, app_nil_r.
    pose proof (all_start_inv index (wrapCompare cmp)
                  (fun c v => yield c (sv_v v)) _ c (wrap_seqs_tagged seqs))
      as [Hok _ _ Hpend _].
    destruct (Init_shape index (wrapCompare cmp)
                (items (all_start (wrap_seqs 0 seqs).1 c))) as (h' & Hh' & Hperm).
    rewrite Hinit in Hh'. injection Hh' as <-.
    destruct (finishes_emits index (wrapCompare cmp) _ _ _ _ _ Hfin
                (frame_ok_set_items index _ _ _ Hperm Hok))
      as (out & Hout & Hp & Hdr & Hsorted).
    cbn [set_items trace] in Hout. rewrite all_start_yielded in Hout.
    simpl in Hout. rewrite Hout.
    split_and!.
    + eapply finishes_outcome; eauto.
    + intros Hy. eapply finishes_continues; [|exact Hfin].
      intros c0 v. apply Hy.
    + exists (pending fr'). split; [|done].
      rewrite <- Hp, (pending_set_items _ _ Hperm), Hpend.
      by rewrite take_ge.
    + intros Hcmp Hss. apply Hsorted; [by apply wrapCompare_ok|].
      apply (start_order index (wrapCompare cmp) (fun c v => yield c (sv_v v)));
        auto using wrapCompare_ok, wrap_seqs_tagged, wrap_seqs_sorted.
Qed.
End MergeFacts.

(** ** Consumers that stop *)

Section Stopping.
Context {T : Type}.
Implicit Types seqs : list (Seq T).

Lemma finishes_stop_after {V} (ix : V -> Z) (cmp : V -> V -> Z) (f : V -> T) k
    (fr fr' : frame V (list T)) o :
  finishes ix cmp (fun c v => stop_after k c (f v)) fr fr' o ->
  length (consumer fr) = length (yielded (trace fr)) ->
  length (yielded (trace fr)) < k ->
  (o = Stopped /\ length (yielded (trace fr')) = k) \/
  (o = Drained /\ length (yielded (trace fr')) < k).
Proof.
  induction 1 as [fr Hits|fr fr' Hne Hit|fr fr1 fr' o Hne Hit Hfin IH];
    intros Hseen Hk.
  - by right.
  - left. split; [done|].
    inversion Hit as [v h c Hroot Hpop Hyv| |]; subst. cbn [trace].
    unfold stop_after in Hyv. injection Hyv as _ Hlt.
    apply Nat.ltb_ge in Hlt.
    rewrite yielded_app, length_app. simpl. lia.
  - apply IH.
    + inversion Hit as [|v h c i v' l h' Hroot Hpop Hyv Hix Hhd Hpush
                        |v h c i Hroot Hpop Hyv Hix Hhd]; subst;
        cbn [trace consumer]; unfold stop_after in Hyv;
        injection Hyv as <- _;
        rewrite yielded_app, !length_app; simpl; lia.
    + inversion Hit as [|v h c i v' l h' Hroot Hpop Hyv Hix Hhd Hpush
                        |v h c i Hroot Hpop Hyv Hix Hhd]; subst;
        cbn [trace consumer]; unfold stop_after in Hyv;
        injection Hyv as _ Hlt; apply Nat.ltb_lt in Hlt;
        rewrite yielded_app, !length_app; simpl; lia.
Qed.

(** Whatever the consumer, it receives a prefix of what a consumer
    that never stops receives. *)
Lemma Merge_prefix {C1 C2} (cmp : T -> T -> Z) seqs
    (yield1 : C1 -> T -> C1 * bool) c1 (yield2 : C2 -> T -> C2 * bool) c2 :
  (forall c v, (yield2 c v).2 = true) ->
  exists s1 s2, Merge (Some cmp) seqs = Ok s1 /\ Merge (Some cmp) seqs = Ok s2 /\
    output (s1 yield1 c1) `prefix_of` output (s2 yield2 c2).
Proof.
  intros Hy.
  destruct (Merge_run cmp seqs yield1 c1)
    as [(Hok1 & _ & HM1)|(Hok1 & h1 & fr1 & o1 & HM1 & Hinit1 & Hfin1 & Hrun1)];
  destruct (Merge_run cmp seqs yield2 c2)
    as [(Hok2 & _ & HM2)|(Hok2 & h2 & fr2 & o2 & HM2 & Hinit2 & Hfin2 & Hrun2)];
    try congruence;
    eexists _, _; (split; [exact HM1|]); (split; [exact HM2|]); [done|].
  unfold output. rewrite Hrun1, Hrun2. cbn [run_events].
  rewrite !yielded_app, !yielded_stops, !app_nil_r.
  assert (yielded (trace fr1) `prefix_of` yielded (trace fr2)) as [rest ->].
  { eapply (finishes_prefix _ _ _ _ _ _ _ Hfin1);
      [intros c v; apply Hy | | exact Hfin2].
    destruct (engine_eq_all_start (wrap_seqs 0 seqs).1 c1 c2)
      as (Hi & Hp & Hh & Ht).
    rewrite Hi, Hinit2 in Hinit1. injection Hinit1 as ->.
    by repeat split. }
  rewrite fmap_app. by apply prefix_app_r.
Qed.

(** After the consumer has stopped, only the deferred [stop] calls
    follow. *)
Lemma Merge_stopped_trace {C} (cmp : T -> T -> Z) seqs
    (yield : C -> T -> C * bool) c :
  exists s, Merge (Some cmp) seqs = Ok s /\
    (run_outcome (s yield c) = Stopped ->
     exists tr v,
       run_events (s yield c) =
         tr ++ EvYield v :: (EvStop <$> deferred 0 (wrap_seqs 0 seqs).1)).
Proof.
  destruct (Merge_run cmp seqs yield c)
    as [(_ & _ & HM)|(_ & h & fr' & o & HM & Hinit & Hfin & Hrun)];
    eexists; (split; [exact HM|]); [done|].
  rewrite Hrun. cbn [run_outcome run_events]. intros ->.
  apply finishes_stopped in Hfin as (tr & v & ->).
  exists tr, v. by rewrite <- app_assoc.
Qed.

Lemma wrap_seqs_live seqs : forall i,
  length (omap id (wrap_seqs i seqs).1) = length (omap id seqs).
Proof.
  induction seqs as [|s seqs IH]; intros i; simpl; [done|].
  specialize (IH (S i)). destruct (wrap_seqs (S i) seqs) as [ws ok].
  destruct s; simpl in *; [f_equal|]; exact IH.
Qed.

Lemma pulled_stops (l : list nat) : pulled (T:=wrappedSeqValue T) (EvStop <$> l) = [].
Proof. induction l; simpl; auto. Qed.

(** What a run has pulled when it ends: the first element of every
    source that is not nil, and one more element for every element the
    consumer took and went on. *)
Lemma Merge_pulls {C} (cmp : T -> T -> Z) seqs (yield : C -> T -> C * bool) c :
  exists s, Merge (Some cmp) seqs = Ok s /\
    length (pulled (run_events (s yield c))) +
      (if run_outcome (s yield c) is Stopped then 1 else 0) =
    length (omap id seqs) + length (output (s yield c)).
Proof.
  destruct (Merge_run cmp seqs yield c)
    as [(_ & Hnil & HM)|(_ & h & fr' & o & HM & Hinit & Hfin & Hrun)];
    eexists; (split; [exact HM|]).
  - simpl. clear -Hnil. induction Hnil as [|? ? -> _ IH]; simpl; auto.
  - unfold output. rewrite Hrun. cbn [run_outcome run_events].
    rewrite pulled_app, yielded_app, pulled_stops, yielded_stops, !app_nil_r.
    rewrite length_fmap.
    pose proof (finishes_pulled _ _ _ _ _ _ Hfin) as Hp.
    cbn [set_items trace] in Hp.
    rewrite all_start_yielded in Hp. unfold all_start in Hp.
    rewrite open_loop_pulled, wrap_seqs_live in Hp. simpl in Hp. lia.
Qed.

(** A consumer that breaks at the [k]-th element has received the
    first [k] elements of the merge. *)
Lemma Merge_stop_after (cmp : T -> T -> Z) seqs k :
  0 < k ->
  exists s, Merge (Some cmp) seqs = Ok s /\
    output (s (stop_after k) []) = take k (output (s collect [])) /\
    (k <= total_length seqs -> run_outcome (s (stop_after k) []) = Stopped).
Proof.
  intros Hk.
  destruct (Merge_prefix cmp seqs (stop_after k) [] collect [])
    as (s & s' & HM & HM' & Hprefix); [done|].
  rewrite HM in HM'. injection HM' as <-.
  exists s. split; [done|].
  destruct (Merge_emits cmp seqs collect [])
    as (s' & HM' & _ & Hdr & (rest & Hperm & Hrest) & _).
  rewrite HM in HM'. injection HM' as <-.
  rewrite (Hrest (Hdr (fun _ _ => eq_refl))), app_nil_r in Hperm.
  assert (length (output (s collect [])) = total_length seqs) as Hfull.
  { unfold output. rewrite <- Hperm, wrap_seqs_elements. apply elements_length. }
  assert (output (s (stop_after k) []) =
          take (length (output (s (stop_after k) []))) (output (s collect [])))
    as Htake.
  { destruct Hprefix as [rest' ->]. by rewrite take_app_length. }
  destruct (Merge_run cmp seqs (stop_after k) [])
    as [(_ & Hnil & HM')|(_ & h & fr' & o & HM' & Hinit & Hfin & Hrun)];
    rewrite HM in HM'; injection HM' as ->.
  { split; [by destruct k|].
    unfold total_length. intros Hle. exfalso.
    assert (sum_list_with (fun s : Seq T => match s with
              | Some l => length l | None => 0 end) seqs = 0); [|lia].
    clear -Hnil. induction Hnil as [|? ? -> _ IH]; simpl; auto. }
  destruct (finishes_stop_after index (wrapCompare cmp) sv_v k _ _ _ Hfin)
    as [[-> Hlen]|[-> Hlen]].
  { cbn [set_items trace consumer].
    by rewrite all_start_yielded, all_start_consumer. }
  { cbn [set_items trace]. rewrite all_start_yielded. simpl. lia. }
  - assert (length (output (mergeSeq (wrapCompare cmp) (wrap_seqs 0 seqs).1
                               (stop_after k) [])) = k) as Hlenk.
    { unfold output. rewrite Hrun. cbn [run_events].
      by rewrite length_fmap, yielded_app, yielded_stops, app_nil_r. }
    split; [by rewrite Hlenk in Htake|].
    intros _. by rewrite Hrun.
  - destruct (Merge_emits cmp seqs (stop_after k) [])
      as (s' & HM' & _ & _ & (rest' & Hperm' & Hrest') & _).
    rewrite HM in HM'. injection HM' as <-.
    assert (run_outcome (mergeSeq (wrapCompare cmp) (wrap_seqs 0 seqs).1
                           (stop_after k) []) = Drained) as Hdrk
      by (by rewrite Hrun).
    rewrite (Hrest' Hdrk), app_nil_r in Hperm'.
    assert (length (output (mergeSeq (wrapCompare cmp) (wrap_seqs 0 seqs).1
                               (stop_after k) [])) = total_length seqs) as Hlenk.
    { unfold output. rewrite <- Hperm', wrap_seqs_elements. apply elements_length. }
    assert (total_length seqs < k) as Hlt.
    { rewrite <- Hlenk. unfold output. rewrite Hrun. cbn [run_events].
      by rewrite length_fmap, yielded_app, yielded_stops, app_nil_r. }
    split; [|lia].
    rewrite Htake, Hlenk, <- Hfull. by rewrite !take_ge by lia.
Qed.
End Stopping.

(** ** The engine under a change of element type

    [mergeState] is generic in its element type and only uses it
    through [index()] and [cmp].  A function between two element types
    that preserves both carries a run on one type to the run on the
    other.  This is how [Merge2] relates to [Merge] on pairs. *)

Section MapEngine.
Context {A B C : Type} (f : A -> B).
Context (indexA : A -> Z) (cmpA : A -> A -> Z).
Context (indexB : B -> Z) (cmpB : B -> B -> Z).
Context (yieldA : C -> A -> C * bool) (yieldB : C -> B -> C * bool).
Hypothesis Hindex : forall a, indexB (f a) = indexA a.
Hypothesis Hcmp : forall a b, cmpB (f a) (f b) = cmpA a b.
Hypothesis Hyield : forall c a, yieldB c (f a) = yieldA c a.

Lemma at_index_map (s : list A) i :
  at_index (f <$> s) i = rmap f (at_index s i).
Proof. unfold at_index. rewrite list_lookup_fmap. by destruct (s !! i). Qed.

Lemma less_map a b : less indexB cmpB (f a) (f b) = less indexA cmpA a b.
Proof. unfold less. by rewrite Hcmp, !Hindex. Qed.

Lemma Less_map h i j :
  Less indexB cmpB (f <$> h) i j = Less indexA cmpA h i j.
Proof.
  unfold Less. rewrite !at_index_map.
  destruct (at_index h i); simpl; try done.
  destruct (at_index h j); simpl; try done.
  by rewrite less_map.
Qed.

Lemma Swap_map (h : list A) i j :
  Swap (f <$> h) i j = rmap (fmap f) (Swap h i j).
Proof.
  unfold Swap. rewrite !at_index_map.
  destruct (at_index h i); simpl; try done.
  destruct (at_index h j); simpl; try done.
  by rewrite !list_fmap_insert.
Qed.

Lemma up_loop_map fuel : forall h j,
  heap.up_loop indexB cmpB fuel (f <$> h) j =
    rmap (fmap f) (heap.up_loop indexA cmpA fuel h j).
Proof.
  induction fuel as [|fuel IH]; intros h j; [done|].
  rewrite !up_loop_S. cbv zeta. rewrite Less_map, Swap_map.
  destruct ((j - 1) / 2 =? j); [done|].
  destruct (Less indexA cmpA h j ((j - 1) / 2)) as [[|]| |];
    cbn [rbind rmap negb]; try done.
  destruct (Swap h ((j - 1) / 2) j); cbn [rbind rmap negb]; try done.
Qed.

Lemma down_loop_map fuel : forall h i n,
  heap.down_loop indexB cmpB fuel (f <$> h) i n =
    rmap (fmap f) (heap.down_loop indexA cmpA fuel h i n).
Proof.
  induction fuel as [|fuel IH]; intros h i n; [done|].
  rewrite !down_loop_S. cbv zeta. rewrite !Less_map.
  destruct (n <=? 2 * i + 1); [done|].
  destruct (if 2 * i + 1 + 1 <? n
            then Less indexA cmpA h (2 * i + 1 + 1) (2 * i + 1)
            else Ok false) as [lt21| |]; cbn [rbind rmap negb]; try done.
  rewrite Less_map, Swap_map.
  destruct (Less indexA cmpA h (if lt21 then 2 * i + 1 + 1 else 2 * i + 1) i)
    as [[|]| |]; cbn [rbind rmap negb]; try done.
  destruct (Swap h i (if lt21 then 2 * i + 1 + 1 else 2 * i + 1));
    cbn [rbind rmap negb]; try done.
Qed.

Lemma Init_loop_map k : forall h n,
  heap.Init_loop indexB cmpB k (f <$> h) n =
    rmap (fmap f) (heap.Init_loop indexA cmpA k h n).
Proof.
  induction k as [|k IH]; intros h n; simpl; [done|].
  unfold heap.down. rewrite down_loop_map.
  destruct (heap.down_loop indexA cmpA (S n) h k n); simpl; try done.
Qed.

Lemma Init_map h :
  heap.Init indexB cmpB (f <$> h) = rmap (fmap f) (heap.Init indexA cmpA h).
Proof. unfold heap.Init, Len. rewrite length_fmap. apply Init_loop_map. Qed.

Lemma Push_map h x :
  heap.Push indexB cmpB (f <$> h) (f x) =
    rmap (fmap f) (heap.Push indexA cmpA h x).
Proof.
  unfold heap.Push, heap.up, Push, Len.
  rewrite <- up_loop_map, fmap_app, !length_app, length_fmap. done.
Qed.

Lemma Pop_map h :
  heap.Pop indexB cmpB (f <$> h) =
    rmap (fun '(x, h') => (f x, f <$> h')) (heap.Pop indexA cmpA h).
Proof.
  unfold heap.Pop, heap.down, Len. rewrite length_fmap.
  destruct (length h) as [|n]; [done|].
  rewrite Swap_map. destruct (Swap h 0 n) as [h1| |]; cbn [rbind rmap]; try done.
  rewrite down_loop_map.
  destruct (heap.down_loop indexA cmpA (S n) h1 0 n) as [h2| |]; cbn [rbind rmap];
    try done.
  unfold Pop. rewrite length_fmap. destruct (length h2) as [|m]; [done|].
  rewrite at_index_map. destruct (at_index h2 m); cbn [rbind rmap]; try done.
  by rewrite fmap_take.
Qed.

Lemma next_map p (fr : frame A C) :
  next p (frame_map f fr) =
    (f <$> (next p fr).1, frame_map f (next p fr).2).
Proof.
  unfold next, frame_map. cbn [handles items pulls trace consumer].
  rewrite list_lookup_fmap.
  destruct (handles fr !! p) as [[[|v l]|]|]; simpl;
    cbn [handles items pulls trace consumer];
    by rewrite ?fmap_app, ?list_fmap_insert.
Qed.

Lemma open_one_map i seq (fr : frame A C) :
  open_one i (seq_map f seq) (frame_map f fr) = frame_map f (open_one i seq fr).
Proof.
  unfold open_one. destruct seq as [l|]; [|done].
  change (seq_map f (Some l)) with (Some (f <$> l)). cbv beta iota.
  set (fr1 := Frame (items fr) (pulls fr) (<[i:=Some l]> (handles fr))
                    (trace fr) (consumer fr)).
  assert (Frame (items (frame_map f fr)) (pulls (frame_map f fr))
                (<[i:=Some (f <$> l)]> (handles (frame_map f fr)))
                (trace (frame_map f fr)) (consumer (frame_map f fr))
          = frame_map f fr1) as ->.
  { unfold frame_map, fr1. cbn [handles items pulls trace consumer].
    by rewrite list_fmap_insert. }
  rewrite next_map. destruct (next i fr1) as [[v|] fr2]; simpl; [|done].
  unfold frame_map. cbn [handles items pulls trace consumer].
  by rewrite fmap_app.
Qed.

Lemma open_loop_map seqs : forall i (fr : frame A C),
  open_loop i (seq_map f <$> seqs) (frame_map f fr) =
    frame_map f (open_loop i seqs fr).
Proof.
  induction seqs as [|seq seqs IH]; intros i fr; simpl; [done|].
  rewrite <- IH. f_equal. apply open_one_map.
Qed.

Lemma all_start_map seqs (c : C) :
  all_start (seq_map f <$> seqs) c = frame_map f (all_start seqs c).
Proof.
  unfold all_start. rewrite <- open_loop_map, length_fmap. f_equal.
  unfold frame_map. cbn [handles items pulls trace consumer].
  by rewrite fmap_replicate.
Qed.

Lemma deferred_map seqs : forall i,
  deferred i (seq_map f <$> seqs) = deferred i seqs.
Proof.
  induction seqs as [|[l|] seqs IH]; intros i; simpl; [done|..];
    by rewrite IH.
Qed.

Lemma unpulled_map (hs : list (option (list A))) :
  unpulled (seq_map f <$> hs) = f <$> unpulled hs.
Proof.
  unfold unpulled. induction hs as [|[l|] hs IH]; simpl; [done|..].
  - rewrite fmap_app. f_equal. exact IH.
  - exact IH.
Qed.

Lemma refill_map v (fr : frame A C) :
  refill indexB cmpB (f v) (frame_map f fr) =
    prod_map (frame_map f) id (refill indexA cmpA v fr).
Proof.
  unfold refill. rewrite Hindex.
  change (pulls (frame_map f fr)) with (pulls fr).
  destruct (pulls_at (pulls fr) (indexA v)) as [p| |]; simpl; try done.
  rewrite next_map. destruct (next p fr) as [[v'|] fr']; simpl; [|done].
  change (items (frame_map f fr')) with (f <$> items fr').
  rewrite Push_map.
  destruct (heap.Push indexA cmpA (items fr') v'); simpl; done.
Qed.

Lemma body_map (fr : frame A C) :
  body indexB cmpB yieldB (frame_map f fr) =
    prod_map (frame_map f) id (body indexA cmpA yieldA fr).
Proof.
  unfold body. change (items (frame_map f fr)) with (f <$> items fr).
  rewrite Pop_map.
  destruct (heap.Pop indexA cmpA (items fr)) as [[v h]| |]; simpl; try done.
  rewrite Hyield. destruct (yieldA (consumer fr) v) as [c more].
  destruct more; simpl.
  - rewrite <- refill_map. f_equal.
    unfold frame_map. cbn [handles items pulls trace consumer].
    by rewrite fmap_app.
  - unfold frame_map. cbn [handles items pulls trace consumer].
    by rewrite fmap_app.
Qed.

Lemma loop_map fuel : forall (fr : frame A C),
  loop indexB cmpB yieldB fuel (frame_map f fr) =
    prod_map (frame_map f) id (loop indexA cmpA yieldA fuel fr).
Proof.
  induction fuel as [|fuel IH]; intros fr; simpl; [done|].
  unfold Len. rewrite length_fmap.
  destruct (length (items fr) =? 0); [done|].
  rewrite body_map. destruct (body indexA cmpA yieldA fr) as [fr' [o|]]; simpl;
    [done|]. apply IH.
Qed.

Lemma all_map seqs (c : C) :
  all indexB cmpB yieldB (seq_map f <$> seqs) c =
    run_map f (all indexA cmpA yieldA seqs c).
Proof.
  unfold all. rewrite all_start_map, deferred_map.
  change (items (frame_map f (all_start seqs c)))
    with (f <$> items (all_start seqs c)).
  rewrite Init_map.
  assert (all_fuel (frame_map f (all_start seqs c)) = all_fuel (all_start seqs c))
    as ->.
  { unfold all_fuel, frame_map. cbn [handles items].
    by rewrite unpulled_map, !length_fmap. }
  destruct (heap.Init indexA cmpA (items (all_start seqs c))) as [h| |];
    cbn [rmap].
  - change (set_items (f <$> h) (frame_map f (all_start seqs c)))
      with (frame_map f (set_items h (all_start seqs c))).
    rewrite loop_map.
    destruct (loop indexA cmpA yieldA (all_fuel (all_start seqs c))
                (set_items h (all_start seqs c))) as [fr2 o]. simpl.
    unfold run_map. cbn [run_outcome run_events run_consumer].
    rewrite fmap_app, <- list_fmap_compose. done.
  - unfold run_map. cbn [run_outcome run_events run_consumer].
    rewrite fmap_app, <- list_fmap_compose. done.
  - unfold run_map. cbn [run_outcome run_events run_consumer].
    rewrite fmap_app, <- list_fmap_compose. done.
Qed.
End MapEngine.

(** * Main results: [Merge] and [Merge2] *)

Lemma merge_reachable_ok {T C} (cmp : T -> T -> Z) seqs (yield : C -> T -> C * bool) c fr :
  merge_reachable cmp seqs yield c fr -> frame_ok index (length seqs) fr.
Proof.
  intros Hreach. rewrite <- (wrap_seqs_length seqs 0).
  eapply reachable_ok; [apply wrap_seqs_tagged | exact Hreach].
Qed.

Lemma merge_reachable_source {T C} (cmp : T -> T -> Z) seqs (yield : C -> T -> C * bool) c fr v :
  merge_reachable cmp seqs yield c fr -> v ∈ pending fr ->
  exists i l, seqs !! i = Some (Some l) /\ sv_v v ∈ l /\ sv_i v = Z.of_nat i.
Proof.
  intros Hreach Hv.
  eapply reachable_pending in Hv; [|apply wrap_seqs_tagged|exact Hreach].
  apply unpulled_elem in Hv as (i & l & Hi & Hv).
  rewrite wrap_seqs_lookup in Hi. simpl in Hi.
  destruct (seqs !! i) as [[l0|]|] eqn:Hl0; simplify_eq/=.
  unfold wrapSeq in Hv. apply list_elem_of_fmap in Hv as (x & -> & Hx).
  exists i, l0. done.
Qed.

Lemma yielded_map {A B} (f : A -> B) (tr : list (event A)) :
  yielded (event_map f <$> tr) = f <$> yielded tr.
Proof.
  induction tr as [|[h r|v|h] tr IH]; simpl; [done|..]; try exact IH.
  f_equal. exact IH.
Qed.

Lemma wrapSeq2_pack {T1 T2} i (l : list (T1 * T2)) :
  pack <$> wrapSeq2 i l = wrapSeq i l.
Proof.
  unfold wrapSeq2, wrapSeq. rewrite <- list_fmap_compose.
  apply list_fmap_ext. by intros _ [v1 v2] _.
Qed.

Lemma wrap_seqs2_pack {T1 T2} (seqs : list (Seq (T1 * T2))) : forall i,
  wrap_seqs i seqs =
    (seq_map pack <$> (wrap_seqs2 i seqs).1, (wrap_seqs2 i seqs).2).
Proof.
  induction seqs as [|seq seqs IH]; intros i; simpl; [done|].
  rewrite (IH (S i)). destruct (wrap_seqs2 (S i) seqs) as [ws ok]. simpl.
  destruct seq as [l|]; simpl; [|done].
  by rewrite wrapSeq2_pack.
Qed.

Lemma cmp_Compare_ok : comparator_ok cmp_Compare.
Proof.
  split; unfold cmp_Compare; intros; repeat case_match; lia.
Qed.

(** C1: for sources that are each sorted for the comparator, the sequence
    returned by [Merge], consumed to the end, is drained; what it yields
    is sorted for the comparator, has as many elements as the sources
    together, and is a permutation of their elements. *)
Theorem Merge_sorted_total {T C} (cmp : T -> T -> Z) (seqs : list (Seq T))
    (yield : C -> T -> C * bool) (c : C) :
  comparator_ok cmp ->
  sources_sorted cmp seqs ->
  (forall c v, (yield c v).2 = true) ->
  exists s, Merge (Some cmp) seqs = Ok s /\
    run_outcome (s yield c) = Drained /\
    Sorted (cle cmp) (output (s yield c)) /\
    length (output (s yield c)) = total_length seqs /\
    output (s yield c) ≡ₚ elements seqs.
Proof.
  intros Hcmp Hsorted Hyield.
  destruct (Merge_emits cmp seqs yield c)
    as (s & HM & _ & Hdr & (rest & Hperm & Hrest) & Hss).
  exists s. specialize (Hdr Hyield). specialize (Hrest Hdr). subst rest.
  rewrite app_nil_r in Hperm.
  assert (output (s yield c) ≡ₚ elements seqs) as Hout.
  { unfold output. by rewrite <- Hperm, wrap_seqs_elements. }
  split_and!; auto.
  - apply StronglySorted_Sorted. unfold output.
    eapply StronglySorted_fmap; [|apply (Hss Hcmp Hsorted)].
    intros a b Hab.
    by apply (before_cle index (wrapCompare cmp) (wrapCompare_ok _ Hcmp)) in Hab.
  - by rewrite Hout, elements_length.
Qed.

Lemma Merge_sorted_total_witness :
  sources_sorted cmp_Compare [Some [1; 3; 5]; None; Some [2; 4; 6]]%Z /\
  exists s, Merge (Some cmp_Compare) [Some [1; 3; 5]; None; Some [2; 4; 6]]%Z = Ok s /\
    run_outcome (s collect []) = Drained /\
    Sorted (cle cmp_Compare) (output (s collect [])) /\
    length (output (s collect [])) = 6 /\
    output (s collect []) ≡ₚ [1; 3; 5; 2; 4; 6]%Z.
Proof.
  assert (sources_sorted cmp_Compare [Some [1; 3; 5]; None; Some [2; 4; 6]]%Z) as Hs.
  { intros i l Hl. destruct i as [|[|[|i]]]; simplify_eq/=;
      repeat constructor; by vm_compute. }
  split; [exact Hs|].
  exact (Merge_sorted_total cmp_Compare
           [Some [1; 3; 5]; None; Some [2; 4; 6]]%Z collect []
           cmp_Compare_ok Hs (fun _ _ => eq_refl)).
Defined.

(** C2: [Less] compares by the comparator first and by ascending source
    index only when the comparator returns zero; and for sorted sources
    the merge is stable: whenever [a], tagged with source [i], and [b],
    tagged with a later source [j], compare equal and both were yielded,
    [a] was yielded before [b].  Consumed to the end, the sequence yields
    every element of every source, tagged with its source. *)
Theorem Merge_stable {T C} (cmp : T -> T -> Z) (seqs : list (Seq T))
    (yield : C -> T -> C * bool) (c : C) :
  comparator_ok cmp ->
  sources_sorted cmp seqs ->
  (forall a b : wrappedSeqValue T,
     less index (wrapCompare cmp) a b = true <->
     (cmp (sv_v a) (sv_v b) < 0)%Z \/
     (cmp (sv_v a) (sv_v b) = 0%Z /\ (sv_i a < sv_i b)%Z)) /\
  exists s, Merge (Some cmp) seqs = Ok s /\
    ((forall c v, (yield c v).2 = true) ->
     yielded (run_events (s yield c)) ≡ₚ elements (wrap_seqs 0 seqs).1) /\
    forall p q a b,
      yielded (run_events (s yield c)) !! p = Some a ->
      yielded (run_events (s yield c)) !! q = Some b ->
      (sv_i a < sv_i b)%Z -> cmp (sv_v a) (sv_v b) = 0%Z ->
      p < q.
Proof.
  intros Hcmp Hsorted. split.
  { intros a b. unfold less, wrapCompare, index.
    repeat case_match; simpl in *; lia. }
  destruct (Merge_emits cmp seqs yield c)
    as (s & HM & _ & Hdr & (rest & Hperm & Hrest) & Hss).
  exists s. split_and!; auto.
  - intros Hyield. rewrite Hperm, (Hrest (Hdr Hyield)). by rewrite app_nil_r.
  - intros p q a b Hp Hq Hij Hab.
    destruct (decide (p < q)) as [|Hge]; [done|]. exfalso.
    assert (p <> q) by (intros ->; assert (a = b) by congruence; subst; lia).
    pose proof (strongly_sorted_lookup _ _ q p b a (Hss Hcmp Hsorted) Hq Hp
                  ltac:(lia)) as Hba.
    unfold before, less, wrapCompare, index in Hba. rewrite Hab in Hba.
    simpl in Hba. lia.
Qed.

Lemma Merge_stable_witness :
  exists s, Merge (Some cmp_Compare) [Some [1; 3; 5]; Some [1; 3; 5]]%Z = Ok s /\
    yielded (run_events (s collect [])) =
      [WrappedSeqValue 0 1; WrappedSeqValue 1 1; WrappedSeqValue 0 3;
       WrappedSeqValue 1 3; WrappedSeqValue 0 5; WrappedSeqValue 1 5]%Z /\
    forall p q a b,
      yielded (run_events (s collect [])) !! p = Some a ->
      yielded (run_events (s collect [])) !! q = Some b ->
      (sv_i a < sv_i b)%Z -> cmp_Compare (sv_v a) (sv_v b) = 0%Z ->
      p < q.
Proof.
  destruct (Merge_stable cmp_Compare [Some [1; 3; 5]; Some [1; 3; 5]]%Z collect [])
    as (_ & s & HM & _ & Hstable).
  - exact cmp_Compare_ok.
  - intros i l Hl. destruct i as [|[|i]]; simplify_eq/=;
      repeat constructor; by vm_compute.
  - exists s. injection HM as <-. split; [reflexivity|]. split; [reflexivity|].
    exact Hstable.
Defined.

(** C4: with a nil comparator both [Merge] and [Merge2] panic at the
    call, whatever the sources: no sequence is returned, so nothing is
    built and nothing can be yielded. *)
Theorem nil_comparison_panics {T T1 T2 C} (seqs : list (Seq T))
    (seqs2 : list (Seq (T1 * T2))) :
  Merge (C:=C) None seqs = Panic NilComparison /\
  Merge2 (C:=C) None seqs2 = Panic NilComparison.
Proof. split; reflexivity. Qed.

(** C5: without sources, and with any number of sources that are all
    nil, [Merge] returns [emptySeq], which yields nothing and pulls
    nothing; with a single empty sequence the returned sequence yields
    nothing, and its only pull is the one that finds the source
    exhausted. *)
Theorem Merge_absent {T C} (cmp : T -> T -> Z) (yield : C -> T -> C * bool)
    (c : C) (n : nat) :
  Merge (C:=C) (Some cmp) [] = Ok emptySeq /\
  Merge (C:=C) (Some cmp) (replicate n None) = Ok emptySeq /\
  emptySeq (T:=T) yield c = Run Drained [] c /\
  exists s, Merge (Some cmp) [Some []] = Ok s /\
    s yield c = Run Drained [EvPull 0 None; EvStop 0] c.
Proof.
  split_and!; try reflexivity.
  - unfold Merge.
    pose proof (wrap_seqs_nil (replicate n (@None (list T))) 0) as [_ Hnil].
    destruct (wrap_seqs 0 (replicate n None)) as [ws ok]. simpl in *.
    rewrite Hnil; [done|]. apply Forall_forall.
    intros s Hs. by apply elem_of_replicate in Hs as [-> _].
  - eexists. split; reflexivity.
Qed.

(** C6: [Merge] of a single sequence, consumed to the end, yields the
    elements of that sequence in their order, whatever the comparator
    and whether or not the sequence is sorted. *)
Theorem Merge_single {T C} (cmp : T -> T -> Z) (l : list T)
    (yield : C -> T -> C * bool) (c : C) :
  (forall c v, (yield c v).2 = true) ->
  exists s, Merge (Some cmp) [Some l] = Ok s /\
    run_outcome (s yield c) = Drained /\
    output (s yield c) = l.
Proof.
  intros Hyield.
  destruct (Merge_run cmp [Some l] yield c)
    as [(_ & Hnil & _)|(_ & h & fr' & o & HM & Hinit & Hfin & Hrun)].
  { by inversion Hnil. }
  eexists. split; [exact HM|]. unfold output. rewrite Hrun.
  cbn [run_outcome run_events].
  assert (o = Drained) as ->.
  { eapply finishes_continues; [|exact Hfin]. intros c0 v. apply Hyield. }
  split; [done|].
  rewrite yielded_app, yielded_stops, app_nil_r.
  pose proof (all_start_inv index (wrapCompare cmp)
                (fun c v => yield c (sv_v v)) _ c (wrap_seqs_tagged [Some l]))
    as [Hok _ _ _ _].
  destruct (Init_shape index (wrapCompare cmp)
              (items (all_start (wrap_seqs 0 [Some l]).1 c))) as (h' & Hh' & Hperm).
  rewrite Hinit in Hh'. injection Hh' as <-.
  rewrite (finishes_single index (wrapCompare cmp) _ _ _ _ Hfin
             (frame_ok_set_items index _ _ _ Hperm Hok) eq_refl).
  cbn [set_items trace]. rewrite all_start_yielded. simpl.
  unfold pending. cbn [set_items items handles].
  rewrite <- (wrapSeq_values 0 l) at 2. f_equal.
  destruct l as [|v l]; cbn in Hperm |- *.
  - by apply Permutation_nil_r in Hperm as ->.
  - apply Permutation_singleton_r in Hperm as ->.
    unfold unpulled. simpl. by rewrite app_nil_r.
Qed.

Lemma Merge_single_witness :
  exists s, Merge (Some (fun _ _ : Z => 1%Z)) [Some [3; 1; 2; 7; 0]%Z] = Ok s /\
    run_outcome (s collect []) = Drained /\
    output (s collect []) = [3; 1; 2; 7; 0]%Z.
Proof.
  exact (Merge_single (fun _ _ => 1%Z) [3; 1; 2; 7; 0]%Z collect []
           (fun _ _ => eq_refl)).
Defined.

(** C3: whatever the consumer, what it has received when it stops is
    the beginning of the full merge, and after the [yield] that returned
    false the run makes no pull: only the deferred [stop] calls follow,
    and all that was ever pulled is the first element of every source
    that is not nil and one more element for every element emitted
    before the last.  In particular a consumer that breaks at the [k]-th element has
    received exactly the first [k] elements of the full merge. *)
Theorem Merge_early_stop {T C} (cmp : T -> T -> Z) (seqs : list (Seq T))
    (yield : C -> T -> C * bool) (c : C) (k : nat) :
  0 < k ->
  exists (s : OutSeq T C) (sl : OutSeq T (list T)),
    Merge (Some cmp) seqs = Ok s /\ Merge (Some cmp) seqs = Ok sl /\
    output (s yield c) =
      take (length (output (s yield c))) (output (sl collect [])) /\
    (run_outcome (s yield c) = Stopped ->
     (exists tr v stops,
        run_events (s yield c) = tr ++ EvYield v :: (EvStop <$> stops)) /\
     S (length (pulled (run_events (s yield c)))) =
       length (omap id seqs) + length (output (s yield c))) /\
    output (sl (stop_after k) []) = take k (output (sl collect [])) /\
    (k <= total_length seqs -> run_outcome (sl (stop_after k) []) = Stopped).
Proof.
  intros Hk.
  destruct (Merge_prefix cmp seqs yield c collect [])
    as (s & sl & HM & HMl & [rest Hprefix]); [done|].
  destruct (Merge_stopped_trace cmp seqs yield c) as (s' & HM' & Hstopped).
  rewrite HM in HM'. injection HM' as <-.
  destruct (Merge_stop_after cmp seqs k Hk) as (sl' & HMl' & Htake & Hout).
  rewrite HMl in HMl'. injection HMl' as <-.
  destruct (Merge_pulls cmp seqs yield c) as (s' & HM' & Hpulls).
  rewrite HM in HM'. injection HM' as <-.
  exists s, sl. split_and!; auto.
  - by rewrite Hprefix, take_app_length.
  - intros Hs. split.
    + destruct (Hstopped Hs) as (tr & v & ->). eauto.
    + rewrite Hs in Hpulls. lia.
Qed.

Lemma Merge_early_stop_witness :
  exists (s sl : OutSeq Z (list Z)),
    Merge (Some cmp_Compare) [Some [1; 3; 5; 7; 9]; Some [2; 4; 6; 8; 10]]%Z = Ok s /\
    Merge (Some cmp_Compare) [Some [1; 3; 5; 7; 9]; Some [2; 4; 6; 8; 10]]%Z = Ok sl /\
    output (s (stop_after 3) []) =
      take (length (output (s (stop_after 3) []))) (output (sl collect [])) /\
    (run_outcome (s (stop_after 3) []) = Stopped ->
     (exists tr v stops,
        run_events (s (stop_after 3) []) = tr ++ EvYield v :: (EvStop <$> stops)) /\
     S (length (pulled (run_events (s (stop_after 3) [])))) =
       2 + length (output (s (stop_after 3) []))) /\
    output (sl (stop_after 3) []) = take 3 (output (sl collect [])) /\
    (3 <= 10 -> run_outcome (sl (stop_after 3) []) = Stopped).
Proof.
  exact (Merge_early_stop cmp_Compare
           [Some [1; 3; 5; 7; 9]; Some [2; 4; 6; 8; 10]]%Z (stop_after 3) [] 3
           ltac:(lia)).
Defined.

(** C7: at every evaluation of the loop condition the heap holds at
    most one element per source, each tagged with a source; its size is
    the number of sources that have produced an element that was not
    emitted yet; and, for a comparator that follows the three-way
    contract, it is a heap for [Less] whose root may stand before all
    its elements, as is what [heap.Pop] leaves behind. *)
Theorem frontier_invariants {T C} (cmp : T -> T -> Z) (seqs : list (Seq T))
    (yield : C -> T -> C * bool) (c : C) (fr : frame (wrappedSeqValue T) C) :
  merge_reachable cmp seqs yield c fr ->
  NoDup (index <$> items fr) /\
  (forall x, x ∈ items fr -> exists i, sv_i x = Z.of_nat i /\ i < length seqs) /\
  length (items fr) = length (outstanding index (length seqs) (trace fr)) /\
  (comparator_ok cmp ->
   is_heap index (wrapCompare cmp) (items fr) /\
   (forall v, items fr !! 0 = Some v ->
      forall y, y ∈ items fr -> before index (wrapCompare cmp) v y) /\
   (forall v h, heap.Pop index (wrapCompare cmp) (items fr) = Ok (v, h) ->
      items fr !! 0 = Some v /\
      is_heap index (wrapCompare cmp) h /\
      forall y, y ∈ h -> before index (wrapCompare cmp) v y)).
Proof.
  intros Hreach. pose proof (merge_reachable_ok _ _ _ _ _ Hreach) as Hok.
  split_and!.
  - apply (ok_nodup _ _ _ Hok).
  - intros x Hx. destruct (ok_tagged _ _ _ Hok x Hx) as (i & Hi & Hp).
    exists i. split; [done|].
    apply lookup_lt_Some in Hp. by rewrite (ok_pulls_len _ _ _ Hok) in Hp.
  - apply (frontier_size index (wrapCompare cmp) (fun c v => yield c (sv_v v)) _ _ Hok).
  - intros Hcmp. pose proof (wrapCompare_ok _ Hcmp) as Hcmp'.
    assert (is_heap index (wrapCompare cmp) (items fr)) as Hheap.
    { eapply reachable_heap; [done | apply wrap_seqs_tagged | exact Hreach]. }
    assert (forall v, items fr !! 0 = Some v ->
              forall y, y ∈ items fr -> before index (wrapCompare cmp) v y) as Hmin.
    { intros v Hv. by apply root_min. }
    split_and!; auto.
    intros v h Hpop.
    destruct (items fr !! 0) as [r|] eqn:Hr.
    + destruct (Pop_shape index (wrapCompare cmp) _ _ Hr) as (h0 & Hpop' & Hperm & _).
      rewrite Hpop in Hpop'. injection Hpop' as -> ->.
      split_and!; [done | by eapply Pop_order |].
      intros y Hy. apply (Hmin r eq_refl). rewrite <- Hperm. by right.
    + destruct (items fr); [by unfold heap.Pop in Hpop | done].
Qed.

Lemma frontier_invariants_witness :
  let seqs := [Some [1; 3; 5]; None; Some [2; 4; 6]]%Z in
  let fr := set_items [WrappedSeqValue 0 1; WrappedSeqValue 2 2]%Z
              (all_start (wrap_seqs 0 seqs).1 []) in
  merge_reachable cmp_Compare seqs collect [] fr /\
  NoDup (index <$> items fr) /\
  length (items fr) = length (outstanding index 3 (trace fr)) /\
  is_heap index (wrapCompare cmp_Compare) (items fr).
Proof.
  intros seqs fr.
  assert (merge_reachable cmp_Compare seqs collect [] fr) as Hreach.
  { apply reach_start. reflexivity. }
  destruct (frontier_invariants cmp_Compare seqs collect [] fr Hreach)
    as (Hnd & _ & Hsize & Hheap).
  split_and!; [exact Hreach | exact Hnd | exact Hsize |].
  apply (Hheap cmp_Compare_ok).
Defined.

(** C8: an iteration pops the root [v] of the heap, an element of the
    source [i] it is tagged with, and hands it to the consumer.  When
    the consumer goes on, the iteration makes exactly one pull, on the
    handle of that same source [i]: a value it yields is pushed on the
    heap, which is as large as before; when the source is exhausted
    nothing is pushed and the heap is one element smaller. *)
Theorem refill_same_source {T C} (cmp : T -> T -> Z) (seqs : list (Seq T))
    (yield : C -> T -> C * bool) (c : C) (fr : frame (wrappedSeqValue T) C) :
  merge_reachable cmp seqs yield c fr ->
  items fr <> [] ->
  exists v h c' more i src,
    items fr !! 0 = Some v /\
    heap.Pop index (wrapCompare cmp) (items fr) = Ok (v, h) /\
    length (items fr) = S (length h) /\
    yield (consumer fr) (sv_v v) = (c', more) /\
    sv_i v = Z.of_nat i /\ seqs !! i = Some (Some src) /\ sv_v v ∈ src /\
    (more = false ->
     merge_body cmp yield fr =
       (Frame h (pulls fr) (handles fr) (trace fr ++ [EvYield v]) c',
        Some Stopped)) /\
    (more = true ->
     match handles fr !! i with
     | Some (Some (v' :: rest)) =>
         sv_i v' = Z.of_nat i /\ sv_v v' ∈ src /\
         exists h',
           heap.Push index (wrapCompare cmp) h v' = Ok h' /\
           h' ≡ₚ v' :: h /\
           merge_body cmp yield fr =
             (Frame h' (pulls fr) (<[i := Some rest]> (handles fr))
                    (trace fr ++ [EvYield v; EvPull i (Some v')]) c',
              None)
     | Some (Some []) =>
         merge_body cmp yield fr =
           (Frame h (pulls fr) (handles fr)
                  (trace fr ++ [EvYield v; EvPull i None]) c',
            None)
     | _ => False
     end).
Proof.
  intros Hreach Hne.
  pose proof (merge_reachable_ok _ _ _ _ _ Hreach) as Hok.
  pose proof (body_iteration index (wrapCompare cmp)
                (fun c v => yield c (sv_v v)) _ _ Hok Hne) as Hit.
  fold (merge_body cmp yield fr) in Hit.
  assert (forall v, items fr !! 0 = Some v ->
            exists i src, seqs !! i = Some (Some src) /\ sv_v v ∈ src /\
                          sv_i v = Z.of_nat i) as Hsrc.
  { intros v Hv. eapply merge_reachable_source; [exact Hreach|].
    apply elem_of_app. left. by eapply list_elem_of_lookup_2. }
  inversion Hit as [v h c' Hroot Hpop Hy Hbody
                    |v h c' i v' l h' Hroot Hpop Hy Hi Hhd Hpush Hbody
                    |v h c' i Hroot Hpop Hy Hi Hhd Hbody];
    destruct (Hsrc v Hroot) as (i0 & src & Hsrc0 & Hin & Hi0);
    destruct (Pop_shape index (wrapCompare cmp) _ _ Hroot) as (h0 & Hpop' & _ & Hlen);
    rewrite Hpop in Hpop'; injection Hpop' as <-.
  - exists v, h, c', false, i0, src. by split_and!; auto.
  - assert (i0 = i) as -> by (unfold index in Hi; lia).
    exists v, h, c', true, i, src. split_and!; auto; try done.
    intros _. rewrite Hhd.
    destruct (Push_shape index (wrapCompare cmp) h v') as (h0 & Hpush' & Hperm').
    rewrite Hpush in Hpush'. injection Hpush' as <-.
    destruct (merge_reachable_source cmp seqs yield c fr v' Hreach)
      as (i1 & src1 & Hsrc1 & Hin1 & Hi1).
    { apply elem_of_app. right. apply unpulled_elem.
      exists i, (v' :: l). split; [done|left]. }
    assert (sv_i v' = Z.of_nat i) as Hi'.
    { apply (ok_handles _ _ _ Hok i (v' :: l) v' Hhd). left. }
    assert (i1 = i) as -> by lia.
    rewrite Hsrc0 in Hsrc1. injection Hsrc1 as <-.
    split_and!; auto. exists h'. split_and!; auto.
  - assert (i0 = i) as -> by (unfold index in Hi; lia).
    exists v, h, c', true, i, src. split_and!; auto; try done.
    intros _. by rewrite Hhd.
Qed.

Lemma refill_same_source_witness :
  let seqs := [Some [1; 3]; Some [2]]%Z in
  let fr := set_items [WrappedSeqValue 0 1; WrappedSeqValue 1 2]%Z
              (all_start (wrap_seqs 0 seqs).1 []) in
  merge_reachable cmp_Compare seqs collect [] fr /\
  merge_body cmp_Compare collect fr =
    (Frame [WrappedSeqValue 1 2; WrappedSeqValue 0 3]%Z
           [Some 0; Some 1] [Some []; Some []]
           [EvPull 0 (Some (WrappedSeqValue 0 1)); EvPull 1 (Some (WrappedSeqValue 1 2));
            EvYield (WrappedSeqValue 0 1); EvPull 0 (Some (WrappedSeqValue 0 3))]%Z
           [1%Z],
     None).
Proof.
  intros seqs fr.
  assert (merge_reachable cmp_Compare seqs collect [] fr) as Hreach.
  { apply reach_start. reflexivity. }
  split; [exact Hreach|].
  destruct (refill_same_source cmp_Compare seqs collect [] fr Hreach ltac:(done))
    as (v & h & c' & more & i & src & _).
  reflexivity.
Defined.

(** C10: every element of the heap carries an index that is a position
    of [pulls] holding the [next] function of that very source, so that
    line 60 finds a function to call; no iteration panics, and a
    sequence returned by [Merge] ends drained or stopped. *)
Theorem refill_never_faults {T C} (cmp : T -> T -> Z) (seqs : list (Seq T))
    (yield : C -> T -> C * bool) (c : C) (fr : frame (wrappedSeqValue T) C) :
  merge_reachable cmp seqs yield c fr ->
  (forall v, v ∈ items fr ->
     exists i, index v = Z.of_nat i /\ i < length (pulls fr) /\
               pulls fr !! i = Some (Some i) /\
               pulls_at (pulls fr) (index v) = Ok i) /\
  (items fr <> [] ->
   (merge_body cmp yield fr).2 = None \/
   (merge_body cmp yield fr).2 = Some Stopped) /\
  (exists s, Merge (Some cmp) seqs = Ok s /\
     (run_outcome (s yield c) = Drained \/ run_outcome (s yield c) = Stopped)).
Proof.
  intros Hreach.
  pose proof (merge_reachable_ok _ _ _ _ _ Hreach) as Hok.
  split_and!.
  - intros v Hv. destruct (ok_tagged _ _ _ Hok v Hv) as (i & Hi & Hp).
    exists i. split_and!; auto.
    + by eapply lookup_lt_Some.
    + by apply (pulls_at_tagged index).
  - intros Hne.
    pose proof (body_iteration index (wrapCompare cmp)
                  (fun c v => yield c (sv_v v)) _ _ Hok Hne) as Hit.
    fold (merge_body cmp yield fr) in Hit.
    inversion Hit; auto.
  - destruct (Merge_emits cmp seqs yield c) as (s & HM & Ho & _). eauto.
Qed.

Lemma refill_never_faults_witness :
  let seqs := [Some [1; 3]; None; Some [2]]%Z in
  let fr := set_items [WrappedSeqValue 0 1; WrappedSeqValue 2 2]%Z
              (all_start (wrap_seqs 0 seqs).1 []) in
  merge_reachable cmp_Compare seqs collect [] fr /\
  pulls fr = [Some 0; None; Some 2] /\
  forall v, v ∈ items fr ->
    exists i, index v = Z.of_nat i /\ i < length (pulls fr) /\
              pulls fr !! i = Some (Some i) /\
              pulls_at (pulls fr) (index v) = Ok i.
Proof.
  intros seqs fr.
  assert (merge_reachable cmp_Compare seqs collect [] fr) as Hreach.
  { apply reach_start. reflexivity. }
  split; [exact Hreach|]. split; [reflexivity|].
  exact (proj1 (refill_never_faults cmp_Compare seqs collect [] fr Hreach)).
Defined.

(** C9: [Merge2] on key/value sequences is [Merge] on the sequences of
    pairs with the comparator and the consumer adapted to pairs: the two
    runs have the same outcome, the same final consumer state and,
    element for element packed into a pair, the same pulls, yields and
    stops; the consumer receives the same pairs in the same order, and
    every pair it receives is a pair of the source whose index the
    element carries. *)
Theorem Merge2_as_Merge {T1 T2 C} (cmp : T1 -> T2 -> T1 -> T2 -> Z)
    (seqs : list (Seq (T1 * T2))) (yield : C -> T1 -> T2 -> C * bool) (c : C) :
  exists s2 s1,
    Merge2 (Some cmp) seqs = Ok s2 /\
    Merge (Some (pair_compare cmp)) seqs = Ok s1 /\
    run_map pack (s2 yield c) = s1 (pair_yield yield) c /\
    output2 (s2 yield c) = output (s1 (pair_yield yield) c) /\
    forall w, w ∈ yielded (run_events (s2 yield c)) ->
      exists i l, seqs !! i = Some (Some l) /\
                  (sv2_v1 w, sv2_v2 w) ∈ l /\ sv2_i w = Z.of_nat i.
Proof.
  assert (exists s2 s1,
    Merge2 (Some cmp) seqs = Ok s2 /\
    Merge (Some (pair_compare cmp)) seqs = Ok s1 /\
    run_map pack (s2 yield c) = s1 (pair_yield yield) c)
    as (s2 & s1 & HM2 & HM1 & Hrun).
  { unfold Merge2, Merge. rewrite (wrap_seqs2_pack seqs 0).
    destruct (wrap_seqs2 0 seqs) as [ws ok]. simpl.
    destruct ok; simpl; eexists _, _; split_and!; try reflexivity.
    unfold mergeSeq2, mergeSeq. symmetry.
    by apply (all_map pack index2 (wrapCompare2 cmp) index
                (wrapCompare (pair_compare cmp))). }
  exists s2, s1. split_and!; auto.
  - unfold output, output2. rewrite <- Hrun. cbn [run_map run_events].
    rewrite yielded_map, <- list_fmap_compose. done.
  - intros w Hw.
    destruct (Merge_emits (pair_compare cmp) seqs (pair_yield yield) c)
      as (s1' & HM1' & _ & _ & (rest & Hperm & _) & _).
    rewrite HM1 in HM1'. injection HM1' as <-.
    assert (pack w ∈ elements (wrap_seqs 0 seqs).1) as Hin.
    { rewrite Hperm. apply elem_of_app. left. rewrite <- Hrun.
      cbn [run_map run_events]. rewrite yielded_map.
      by apply list_elem_of_fmap_2. }
    apply unpulled_elem in Hin as (i & l & Hi & Hin).
    rewrite wrap_seqs_lookup in Hi. simpl in Hi.
    destruct (seqs !! i) as [[l0|]|] eqn:Hl0; simplify_eq/=.
    unfold wrapSeq in Hin. apply list_elem_of_fmap in Hin as (x & Hx & Hxin).
    exists i, l0. unfold pack in Hx. injection Hx as Hi <-. done.
Qed.

(** * Further properties

    Properties of the code beyond the main results: the methods of
    [mergeState] and the heap over them, the functions of [wrap.go], the
    protocol between a merge and its sources and consumer, and the list
    that [Merge] and [Merge2] compute. *)

(** ** The [heap.Interface] methods on their own *)

Lemma less_before {T} (index : T -> Z) (cmp : T -> T -> Z) a b :
  comparator_ok cmp -> less index cmp a b = true -> before index cmp a b.
Proof. intros Hcmp Hab. by apply (less_asym index cmp Hcmp). Qed.

(** X1: for a comparator that follows the three-way contract, [Less] is a
    strict order: no element is less than itself, it is asymmetric and
    transitive; two elements of different sources are always ordered one
    way or the other, and two elements that [Less] does not order either
    way compare equal and come from the same source. *)
Theorem Less_strict_order {T} (index : T -> Z) (cmp : T -> T -> Z) :
  comparator_ok cmp ->
  (forall a, less index cmp a a = false) /\
  (forall a b, less index cmp a b = true -> less index cmp b a = false) /\
  (forall a b c, less index cmp a b = true -> less index cmp b c = true ->
                 less index cmp a c = true) /\
  (forall a b, index a <> index b ->
               less index cmp a b = true \/ less index cmp b a = true) /\
  (forall a b, less index cmp a b = false -> less index cmp b a = false ->
               cmp a b = 0%Z /\ index a = index b).
Proof.
  intros Hcmp. split_and!.
  - intros a. apply (before_refl index cmp Hcmp).
  - apply (less_asym index cmp Hcmp).
  - intros a b c Hab Hbc.
    destruct (less index cmp a c) eqn:Hac; [done|exfalso].
    assert (before index cmp c b) as Hcb.
    { apply (before_trans index cmp Hcmp c a b); [exact Hac|].
      by apply less_before. }
    unfold before in Hcb. congruence.
  - intros a b Hne. pose proof (cmp_antisym cmp Hcmp a b) as Hs.
    unfold less. repeat case_match; lia.
  - intros a b Hab Hba. pose proof (cmp_antisym cmp Hcmp a b) as Hs.
    unfold less in Hab, Hba. repeat case_match; lia.
Qed.

Lemma Less_strict_order_witness :
  let lt := less index (wrapCompare cmp_Compare) in
  lt (WrappedSeqValue 0 5%Z) (WrappedSeqValue 1 5%Z) = true /\
  lt (WrappedSeqValue 1 5%Z) (WrappedSeqValue 0 5%Z) = false /\
  forall a b c, lt a b = true -> lt b c = true -> lt a c = true.
Proof.
  intros lt. split; [reflexivity|]. split; [reflexivity|].
  exact (proj1 (proj2 (proj2
    (Less_strict_order index (wrapCompare cmp_Compare)
       (wrapCompare_ok _ cmp_Compare_ok))))).
Defined.

(** X2: [Swap(i, j)] inside the slice exchanges the two elements and
    leaves the others and the length, so the result is a permutation, and
    a second [Swap(i, j)] restores the slice; with an index outside the
    slice it panics. *)
Theorem Swap_involutive {T} (items : list T) (i j : nat) :
  (i < length items -> j < length items ->
   exists s, Swap items i j = Ok s /\
     length s = length items /\ s ≡ₚ items /\
     s !! i = items !! j /\ s !! j = items !! i /\
     (forall k, k <> i -> k <> j -> s !! k = items !! k) /\
     Swap s i j = Ok items) /\
  (length items <= i \/ length items <= j ->
   Swap items i j = Panic IndexOutOfRange).
Proof.
  split.
  - intros Hi Hj.
    destruct (lookup_lt_is_Some_2 _ _ Hi) as [x Hx].
    destruct (lookup_lt_is_Some_2 _ _ Hj) as [y Hy].
    exists (swapped items i j x y).
    assert (forall k, swapped items i j x y !! k =
              if decide (k = j) then Some x
              else if decide (k = i) then Some y else items !! k) as Hlk.
    { intros k. by apply swapped_lookup. }
    split_and!.
    + by apply Swap_lookup.
    + apply swapped_length.
    + by apply swapped_perm.
    + rewrite Hlk. repeat case_decide; congruence.
    + rewrite Hlk. repeat case_decide; congruence.
    + intros k Hki Hkj. rewrite Hlk. repeat case_decide; congruence.
    + assert (swapped items i j x y !! i = Some y) as Hi'.
      { rewrite Hlk. repeat case_decide; congruence. }
      assert (swapped items i j x y !! j = Some x) as Hj'.
      { rewrite Hlk. repeat case_decide; congruence. }
      rewrite (Swap_lookup _ _ _ _ _ Hi' Hj'). f_equal.
      apply list_eq. intros k.
      rewrite (swapped_lookup _ _ _ _ _ k Hi' Hj'), Hlk.
      repeat case_decide; congruence.
  - intros Hout. unfold Swap, at_index.
    destruct (items !! i) as [x|] eqn:Hx; [|done].
    destruct (items !! j) as [y|] eqn:Hy; [|done].
    apply lookup_lt_Some in Hx, Hy. lia.
Qed.

Lemma Swap_involutive_witness :
  exists s, Swap [10; 20; 30; 40]%Z 1 3 = Ok s /\
    s = [10; 40; 30; 20]%Z /\
    Swap s 1 3 = Ok [10; 20; 30; 40]%Z.
Proof.
  destruct (proj1 (Swap_involutive [10; 20; 30; 40]%Z 1 3))
    as (s & Hs & _ & _ & _ & _ & _ & Hback); [simpl; lia | simpl; lia |].
  exists s. split; [exact Hs|]. split; [|exact Hback].
  injection Hs as <-. reflexivity.
Defined.

(** X3: [Pop] undoes [Push]: it returns the element pushed last and the
    slice as it was; what [Pop] returns, pushed back, gives the slice
    [Pop] was called on, whose last element it is; [Push] makes [Len] one
    larger; [Pop] panics exactly on the empty slice. *)
Theorem Push_Pop_roundtrip {T} (items : list T) (v : T) :
  Pop (Push items v) = Ok (v, items) /\
  Len (Push items v) = S (Len items) /\
  (forall x rest, Pop items = Ok (x, rest) ->
     Push rest x = items /\ Len items = S (Len rest) /\ last items = Some x) /\
  (Pop items = Panic IndexOutOfRange <-> items = []).
Proof.
  split_and!.
  - unfold Pop, Push. rewrite length_app. simpl.
    replace (length items + 1) with (S (length items)) by lia.
    unfold at_index. rewrite lookup_app_r by lia.
    rewrite Nat.sub_diag. simpl. by rewrite take_app_length.
  - unfold Len, Push. rewrite length_app. simpl. lia.
  - intros x rest. unfold Pop, Push, Len.
    destruct (length items) as [|n] eqn:Hlen; [done|].
    unfold at_index. destruct (items !! n) as [y|] eqn:Hy; [|done].
    simpl. intros [= -> <-].
    assert (items = take n items ++ [x]) as Heq.
    { rewrite <- (take_drop n items) at 1. f_equal.
      rewrite (drop_S _ _ _ Hy). rewrite drop_ge by lia. done. }
    split_and!.
    + by rewrite <- Heq.
    + rewrite length_take. lia.
    + rewrite Heq. apply last_snoc.
  - unfold Pop. destruct items as [|a l]; [done|].
    split; [|done]. simpl. unfold at_index.
    destruct ((a :: l) !! length l) eqn:Hl; [done|].
    apply lookup_ge_None in Hl. simpl in Hl. lia.
Qed.

Lemma Push_Pop_roundtrip_witness :
  Pop [1; 2; 3]%Z = Ok (3%Z, [1; 2]%Z) /\
  Push [1; 2]%Z 3%Z = [1; 2; 3]%Z /\ last [1; 2; 3]%Z = Some 3%Z.
Proof.
  split; [reflexivity|].
  destruct (proj1 (proj2 (proj2 (Push_Pop_roundtrip [1; 2; 3]%Z 0%Z)))
              3%Z [1; 2]%Z eq_refl) as (H1 & _ & H3).
  split; [exact H1 | exact H3].
Defined.

(** ** [container/heap] over these methods *)

(** X4: [heap.Init] over these methods never faults and only permutes
    the slice, whatever the comparator; for a comparator that follows the
    three-way contract the result is a heap, whose first element may stand
    before every element. *)
Theorem Init_heapifies {T} (index : T -> Z) (cmp : T -> T -> Z) (h : list T) :
  exists h', heap.Init index cmp h = Ok h' /\ h' ≡ₚ h /\
    (comparator_ok cmp ->
     is_heap index cmp h' /\
     forall x, h' !! 0 = Some x -> forall y, y ∈ h -> before index cmp x y).
Proof.
  destruct (Init_shape index cmp h) as (h' & Hinit & Hperm).
  exists h'. split_and!; auto.
  intros Hcmp.
  pose proof (Init_order index cmp Hcmp h h' Hinit) as Hheap.
  split; [done|]. intros x Hx y Hy.
  apply (root_min index cmp Hcmp h' x Hheap Hx). by rewrite Hperm.
Qed.

Lemma Init_heapifies_witness :
  exists h', heap.Init index (wrapCompare cmp_Compare)
               [WrappedSeqValue 0 9; WrappedSeqValue 1 4; WrappedSeqValue 2 7;
                WrappedSeqValue 3 1; WrappedSeqValue 4 4]%Z = Ok h' /\
    h' !! 0 = Some (WrappedSeqValue 3 1%Z) /\
    is_heap index (wrapCompare cmp_Compare) h'.
Proof.
  destruct (Init_heapifies index (wrapCompare cmp_Compare)
              [WrappedSeqValue 0 9; WrappedSeqValue 1 4; WrappedSeqValue 2 7;
               WrappedSeqValue 3 1; WrappedSeqValue 4 4]%Z)
    as (h' & Hinit & _ & Hheap).
  exists h'. split; [exact Hinit|]. split.
  - injection Hinit as <-. reflexivity.
  - exact (proj1 (Hheap (wrapCompare_ok _ cmp_Compare_ok))).
Defined.

(** X5: [heap.Push] never faults and adds exactly the pushed element,
    and keeps a heap a heap; [heap.Pop] panics on the empty heap, and
    otherwise returns the first element and keeps all the others; from a
    heap, what it leaves is a heap again and the element it returns may
    stand before all that is left. *)
Theorem heap_Push_Pop {T} (index : T -> Z) (cmp : T -> T -> Z)
    (h : list T) (x : T) :
  (exists h', heap.Push index cmp h x = Ok h' /\ h' ≡ₚ x :: h /\
     (comparator_ok cmp -> is_heap index cmp h -> is_heap index cmp h')) /\
  (h = [] -> heap.Pop index cmp h = Panic IndexOutOfRange) /\
  (forall r, h !! 0 = Some r ->
     exists h', heap.Pop index cmp h = Ok (r, h') /\ r :: h' ≡ₚ h /\
       (comparator_ok cmp -> is_heap index cmp h ->
        is_heap index cmp h' /\ forall y, y ∈ h' -> before index cmp r y)).
Proof.
  split_and!.
  - destruct (Push_shape index cmp h x) as (h' & Hpush & Hperm).
    exists h'. split_and!; auto.
    intros Hcmp Hheap. by apply (Push_order index cmp Hcmp h x h').
  - by intros ->.
  - intros r Hr.
    destruct (Pop_shape index cmp h r Hr) as (h' & Hpop & Hperm & _).
    exists h'. split_and!; auto.
    intros Hcmp Hheap. split.
    + by apply (Pop_order index cmp Hcmp h r h').
    + intros y Hy. apply (root_min index cmp Hcmp h r Hheap Hr).
      rewrite <- Hperm. by right.
Qed.

Lemma heap_Push_Pop_witness :
  let h := [WrappedSeqValue 0 2; WrappedSeqValue 1 5; WrappedSeqValue 2 3]%Z in
  is_heap index (wrapCompare cmp_Compare) h /\
  exists h', heap.Pop index (wrapCompare cmp_Compare) h =
               Ok (WrappedSeqValue 0 2%Z, h') /\
    is_heap index (wrapCompare cmp_Compare) h'.
Proof.
  intros h.
  assert (is_heap index (wrapCompare cmp_Compare) h) as Hheap.
  { intros c Hc _ a b Ha Hb. simpl in Hc.
    destruct c as [|[|[|c]]]; try lia; simplify_eq/=; reflexivity. }
  split; [exact Hheap|].
  destruct (proj2 (proj2 (heap_Push_Pop index (wrapCompare cmp_Compare) h
                            (WrappedSeqValue 0 0%Z)))
              (WrappedSeqValue 0 2%Z) eq_refl) as (h' & Hpop & _ & Hord).
  exists h'. split; [exact Hpop|].
  exact (proj1 (Hord (wrapCompare_ok _ cmp_Compare_ok) Hheap)).
Defined.

(** ** The history of each source

    What the trace tells of one source: its pulls, what was emitted of
    it, and what it has in the heap.  No assumption is made on the
    comparator or on the order of the sources. *)

Lemma pulls_of_app {T} i (tr1 tr2 : list (event T)) :
  pulls_of i (tr1 ++ tr2) = pulls_of i tr1 ++ pulls_of i tr2.
Proof. apply omap_app. Qed.

Lemma pulled_from_pulls_of {T} i (tr : list (event T)) :
  pulled_from i tr = omap id (pulls_of i tr).
Proof.
  induction tr as [|[h r|v|h] tr IH]; simpl; auto.
  destruct r as [v|]; case_decide; simpl; by rewrite ?IH.
Qed.

Lemma emitted_from_yielded {T} (index : T -> Z) i (tr : list (event T)) :
  emitted_from index i tr = with_index index i (yielded tr).
Proof.
  unfold with_index.
  induction tr as [|[h r|v|h] tr IH]; simpl; auto.
  rewrite filter_cons. case_decide; simpl; by rewrite IH.
Qed.

Lemma omap_id_fmap_Some {A} (l : list A) : omap id (Some <$> l) = l.
Proof. induction l; simpl; by f_equal. Qed.

Lemma range_over_app {T C} (l1 l2 : list T) (yield : C -> T -> C * bool) c :
  range_over (l1 ++ l2) yield c =
    if (range_over l1 yield c).2 then range_over l2 yield (range_over l1 yield c).1
    else range_over l1 yield c.
Proof.
  revert c. induction l1 as [|v l1 IH]; intros c; simpl; [done|].
  destruct (yield c v) as [c' more]. destruct more; simpl; [apply IH|done].
Qed.

Lemma range_over_fmap {A B C} (f : A -> B) (l : list A)
    (yield : C -> B -> C * bool) c :
  range_over (f <$> l) yield c = range_over l (fun c v => yield c (f v)) c.
Proof.
  revert c. induction l as [|v l IH]; intros c; simpl; [done|].
  destruct (yield c (f v)) as [c' more]. destruct more; simpl; [apply IH|done].
Qed.

Lemma filter_none {A} (P : A -> Prop) `{forall x, Decision (P x)} (l : list A) :
  (forall x, x ∈ l -> ~ P x) -> filter P l = [].
Proof.
  induction l as [|x l IH]; intros Hl; [done|].
  rewrite filter_cons, decide_False; [|apply Hl; left].
  apply IH. intros y Hy. apply Hl. by right.
Qed.

Lemma filter_all {A} (P : A -> Prop) `{forall x, Decision (P x)} (l : list A) :
  (forall x, x ∈ l -> P x) -> filter P l = l.
Proof.
  induction l as [|x l IH]; intros Hl; [done|].
  rewrite filter_cons, decide_True; [|apply Hl; left].
  f_equal. apply IH. intros y Hy. apply Hl. by right.
Qed.

Section HistoryFrames.
Context {T C : Type} (index : T -> Z).
Implicit Types fr : frame T C.

Lemma with_index_short (l : list T) i :
  NoDup (index <$> l) -> length (with_index index i l) <= 1.
Proof.
  intros Hnd. unfold with_index.
  induction l as [|x l IH]; simpl; [lia|].
  rewrite fmap_cons in Hnd. apply NoDup_cons in Hnd as [Hnin Hnd].
  rewrite filter_cons. case_decide as Hx; [|by apply IH].
  assert (filter (fun x => index x = Z.of_nat i) l = []) as ->; [|simpl; lia].
  apply filter_none. intros y Hy Hyi. apply Hnin.
  rewrite Hx, <- Hyi. by apply list_elem_of_fmap_2.
Qed.

Lemma short_perm_eq (l1 l2 : list T) :
  l1 ≡ₚ l2 -> length l2 <= 1 -> l1 = l2.
Proof.
  intros Hperm Hlen. destruct l2 as [|x [|y l2]]; simpl in Hlen; [| |lia].
  - by apply Permutation_nil_r in Hperm.
  - by apply Permutation_singleton_r in Hperm.
Qed.

Lemma with_index_perm_eq (l l' : list T) i :
  NoDup (index <$> l) -> l' ≡ₚ l ->
  with_index index i l' = with_index index i l.
Proof.
  intros Hnd Hperm. apply short_perm_eq; [|by apply with_index_short].
  unfold with_index. by rewrite Hperm.
Qed.

Lemma source_state_ext i src fr fr' :
  pulls_of i (trace fr') = pulls_of i (trace fr) ->
  emitted_from index i (trace fr') = emitted_from index i (trace fr) ->
  with_index index i (items fr') = with_index index i (items fr) ->
  handles fr' !! i = handles fr !! i ->
  source_state index i src fr -> source_state index i src fr'.
Proof.
  intros Hp He Hw Hh. unfold source_state, untouched.
  destruct src as [[l|]|]; rewrite Hp, He, Hw, ?Hh; done.
Qed.

Lemma untouched_ext i fr fr' :
  pulls_of i (trace fr') = pulls_of i (trace fr) ->
  emitted_from index i (trace fr') = emitted_from index i (trace fr) ->
  with_index index i (items fr') = with_index index i (items fr) ->
  untouched index i fr -> untouched index i fr'.
Proof. intros Hp He Hw. unfold untouched. by rewrite Hp, He, Hw. Qed.

Lemma open_one_eq k seq fr :
  k < length (handles fr) ->
  open_one k seq fr =
    match seq with
    | None => fr
    | Some [] =>
        Frame (items fr) (pulls fr) (<[k := Some []]> (handles fr))
              (trace fr ++ [EvPull k None]) (consumer fr)
    | Some (v :: l) =>
        Frame (items fr ++ [v]) (<[k := Some k]> (pulls fr))
              (<[k := Some l]> (handles fr))
              (trace fr ++ [EvPull k (Some v)]) (consumer fr)
    end.
Proof.
  intros Hk. unfold open_one. destruct seq as [[|v l]|]; [| |done].
  - unfold next. cbn [handles items pulls trace consumer].
    by rewrite list_lookup_insert_eq by done.
  - unfold next. cbn [handles items pulls trace consumer].
    rewrite list_lookup_insert_eq by done.
    cbn [handles items pulls trace consumer].
    by rewrite list_insert_insert_eq.
Qed.

Lemma hist_open_start seqs (c : C) :
  hist_open index seqs 0
    (Frame [] (replicate (length seqs) None) (replicate (length seqs) None) [] c).
Proof. intros i. split; [lia|]. intros _. done. Qed.

Lemma hist_inv_set_items seqs n fr h :
  frame_ok index n fr -> h ≡ₚ items fr ->
  hist_inv index seqs fr -> hist_inv index seqs (set_items h fr).
Proof.
  intros Hok Hperm Hhist i.
  apply (source_state_ext i _ fr); cbn [set_items trace items handles]; auto.
  apply with_index_perm_eq; [apply (ok_nodup _ _ _ Hok)|done].
Qed.

Lemma with_index_root n fr v i :
  frame_ok index n fr -> v ∈ items fr -> index v = Z.of_nat i ->
  with_index index i (items fr) = [v].
Proof.
  intros Hok Hv Hi.
  pose proof (with_index_short (items fr) i (ok_nodup _ _ _ Hok)) as Hlen.
  assert (v ∈ with_index index i (items fr)) as Hin.
  { unfold with_index. by apply list_elem_of_filter. }
  destruct (with_index index i (items fr)) as [|x [|y l]]; simpl in Hlen.
  - by apply elem_of_nil in Hin.
  - by apply list_elem_of_singleton in Hin as ->.
  - lia.
Qed.

Lemma with_index_popped n fr v h i :
  frame_ok index n fr -> v :: h ≡ₚ items fr -> index v = Z.of_nat i ->
  with_index index i h = [].
Proof.
  intros Hok Hperm Hi.
  assert (with_index index i (v :: h) = [v]) as Hvh.
  { rewrite (with_index_perm_eq _ (v :: h) i (ok_nodup _ _ _ Hok) Hperm).
    apply (with_index_root n); auto. rewrite <- Hperm. left. }
  unfold with_index in *. rewrite filter_cons, decide_True in Hvh by done.
  by injection Hvh.
Qed.

Lemma with_index_other n fr v h i j :
  frame_ok index n fr -> v :: h ≡ₚ items fr -> index v = Z.of_nat i ->
  j <> i -> with_index index j h = with_index index j (items fr).
Proof.
  intros Hok Hperm Hi Hj.
  rewrite <- (with_index_perm_eq _ (v :: h) j (ok_nodup _ _ _ Hok) Hperm).
  unfold with_index. rewrite filter_cons, decide_False by lia. done.
Qed.

Lemma hist_inv_drained seqs n fr i :
  frame_ok index n fr -> hist_inv index seqs fr -> items fr = [] ->
  source_history index i (seqs !! i) (trace fr) Drained.
Proof.
  intros Hok Hhist Hits. specialize (Hhist i).
  unfold source_state, source_history in *.
  destruct (seqs !! i) as [[l|]|];
    [|destruct Hhist as (? & ? & _); done..].
  destruct Hhist as (w & rest & Hl & Hrest & Hw & Hlen & Hpulls).
  rewrite Hits in Hw. cbn in Hw. subst w.
  assert (rest = []) as ->.
  { destruct rest as [|x rest]; [done|].
    destruct (ok_frontier _ _ _ Hok i (x :: rest) Hrest) as (y & Hy & _); [done|].
    rewrite Hits in Hy. by apply elem_of_nil in Hy. }
  exists [], [], [None]. split_and!; auto.
Qed.

End HistoryFrames.

Section History.
Context {T C : Type} (index : T -> Z) (cmp : T -> T -> Z).
Context (yield : C -> T -> C * bool).
Implicit Types fr : frame T C.

Lemma open_one_hist seqs k seq fr :
  tagged index seqs -> seqs !! k = Some seq ->
  open_inv index seqs k fr ->
  hist_open index seqs k fr -> hist_open index seqs (S k) (open_one k seq fr).
Proof.
  intros Htag Hseq [Hok Hrest Hbelow _ _] Hhist.
  apply lookup_lt_Some in Hseq as Hlt.
  assert (k < length (handles fr)) as Hlth
    by (by rewrite (ok_handles_len _ _ _ Hok)).
  destruct (proj2 (Hhist k) (le_n _)) as (Hpk & Hek & Hwk).
  assert (forall j r, j <> k ->
            pulls_of j (trace fr ++ [EvPull k r]) = pulls_of j (trace fr)) as Hpo.
  { intros j r Hj. rewrite pulls_of_app. simpl.
    rewrite decide_False by done. by rewrite app_nil_r. }
  assert (forall j r, emitted_from index j (trace fr ++ [EvPull k r]) =
                      emitted_from index j (trace fr)) as Heo.
  { intros j r. rewrite emitted_from_app. simpl. by rewrite app_nil_r. }
  assert (forall j v, index v = Z.of_nat k -> j <> k ->
            with_index index j (items fr ++ [v]) = with_index index j (items fr))
    as Hwo.
  { intros j v Hv Hj. unfold with_index. rewrite filter_app, filter_cons.
    rewrite decide_False by lia. by rewrite app_nil_r. }
  rewrite (open_one_eq _ _ _ Hlth).
  intros i. destruct (decide (i = k)) as [->|Hik].
  - split; [intros _|lia]. rewrite Hseq.
    destruct seq as [[|v l]|]; cbn [source_state].
    + exists [], []. cbn [trace handles items].
      rewrite Heo, Hek, pulls_of_app, Hpk, Hwk. simpl.
      rewrite decide_True by done.
      rewrite list_lookup_insert_eq by done. split_and!; auto.
    + assert (index v = Z.of_nat k) as Hv by (eapply Htag; eauto; left).
      exists [v], l. cbn [trace handles items].
      rewrite Heo, Hek, pulls_of_app, Hpk. simpl.
      rewrite decide_True by done.
      rewrite list_lookup_insert_eq by done.
      unfold with_index in *. rewrite filter_app, Hwk, filter_cons.
      rewrite decide_True by done. simpl. split_and!; auto.
    + done.
  - destruct seq as [[|v l]|].
    + split; intros Hi.
      * apply (source_state_ext index i _ fr); cbn [trace items handles]; auto.
        -- by rewrite list_lookup_insert_ne.
        -- apply Hhist. lia.
      * apply (untouched_ext index i fr); cbn [trace items handles]; auto.
        apply Hhist. lia.
    + assert (index v = Z.of_nat k) as Hv by (eapply Htag; eauto; left).
      split; intros Hi.
      * apply (source_state_ext index i _ fr); cbn [trace items handles]; auto.
        -- by rewrite list_lookup_insert_ne.
        -- apply Hhist. lia.
      * apply (untouched_ext index i fr); cbn [trace items handles]; auto.
        apply Hhist. lia.
    + split; intros Hi; apply Hhist; lia.
Qed.

Lemma open_loop_hist seqs : forall rest k fr,
  tagged index seqs -> drop k seqs = rest ->
  open_inv index seqs k fr -> hist_open index seqs k fr ->
  hist_inv index seqs (open_loop k rest fr).
Proof.
  induction rest as [|seq rest IH]; intros k fr Htag Hdrop Hinv Hhist; simpl.
  - assert (length seqs <= k) as Hle.
    { apply (f_equal length) in Hdrop. rewrite length_drop in Hdrop.
      simpl in Hdrop. lia. }
    intros i. destruct (decide (i < k)) as [Hi|Hi]; [by apply Hhist|].
    rewrite lookup_ge_None_2 by lia. apply Hhist. lia.
  - assert (seqs !! k = Some seq) as Hseq.
    { assert (drop k seqs !! 0 = Some seq) as H0 by (by rewrite Hdrop).
      by rewrite lookup_drop, Nat.add_0_r in H0. }
    apply IH; auto.
    + replace (S k) with (k + 1) by lia.
      by rewrite <- drop_drop, Hdrop.
    + by apply (open_one_inv index cmp yield).
    + by apply open_one_hist.
Qed.

Lemma all_start_hist seqs (c : C) :
  tagged index seqs -> hist_inv index seqs (all_start seqs c).
Proof.
  intros Htag. unfold all_start.
  apply open_loop_hist; auto.
  - apply (open_inv_start index).
  - apply hist_open_start.
Qed.

Lemma iteration_hist seqs n fr fr' :
  frame_ok index n fr -> hist_inv index seqs fr ->
  iteration index cmp yield fr (fr', None) ->
  hist_inv index seqs fr'.
Proof.
  intros Hok Hhist Hit.
  inversion Hit as [|v h c i v' l h' Hroot Hpop Hy Hi Hh Hpush
                    |v h c i Hroot Hpop Hy Hi Hh]; subst.
  - (* refilled *)
    destruct (Pop_shape index cmp _ _ Hroot) as (h0 & Hpop' & Hperm & _).
    rewrite Hpop in Hpop'. injection Hpop' as <-.
    destruct (Push_shape index cmp h v') as (h0 & Hpush' & Hperm').
    rewrite Hpush in Hpush'. injection Hpush' as <-.
    assert (v ∈ items fr) as Hv by (by eapply list_elem_of_lookup_2).
    assert (index v' = Z.of_nat i) as Hi'.
    { eapply (ok_handles _ _ _ Hok); eauto. left. }
    pose proof (with_index_root index n fr v i Hok Hv Hi) as Hw.
    pose proof (with_index_popped index n fr v h i Hok Hperm Hi) as Hwh.
    assert (NoDup (index <$> v' :: h)) as Hnd'.
    { rewrite fmap_cons, Hi', <- Hi, <- fmap_cons, Hperm.
      apply (ok_nodup _ _ _ Hok). }
    intros j. destruct (decide (j = i)) as [->|Hj].
    + specialize (Hhist i). unfold source_state in *.
      destruct (seqs !! i) as [[l0|]|];
        [|destruct Hhist as (_ & _ & Hu); congruence..].
      destruct Hhist as (w & rest & Hl0 & Hrest & Hww & _ & Hpulls).
      rewrite Hw in Hww. subst w. rewrite Hh in Hrest. injection Hrest as <-.
      exists [v'], l. cbn [trace handles items].
      rewrite emitted_from_app, pulls_of_app, Hpulls. simpl.
      rewrite !decide_True by done. simpl.
      rewrite (with_index_perm_eq index _ _ i Hnd' Hperm').
      unfold with_index in *. rewrite filter_cons, decide_True, Hwh by done.
      rewrite list_lookup_insert_eq by (by eapply lookup_lt_Some).
      split_and!; auto.
      * rewrite Hl0. by rewrite <- !(assoc app).
      * rewrite !app_nil_r, !fmap_app, <- !(assoc app). done.
    + apply (source_state_ext index j _ fr); cbn [trace handles items]; auto.
      * rewrite pulls_of_app. simpl. rewrite decide_False by done.
        by rewrite app_nil_r.
      * rewrite emitted_from_app. simpl. rewrite decide_False by lia.
        by rewrite app_nil_r.
      * rewrite (with_index_perm_eq index _ _ j Hnd' Hperm').
        unfold with_index at 1. rewrite filter_cons, decide_False by lia.
        by apply (with_index_other index n fr v h i j).
      * by rewrite list_lookup_insert_ne.
  - (* exhausted *)
    destruct (Pop_shape index cmp _ _ Hroot) as (h0 & Hpop' & Hperm & _).
    rewrite Hpop in Hpop'. injection Hpop' as <-.
    assert (v ∈ items fr) as Hv by (by eapply list_elem_of_lookup_2).
    pose proof (with_index_root index n fr v i Hok Hv Hi) as Hw.
    pose proof (with_index_popped index n fr v h i Hok Hperm Hi) as Hwh.
    intros j. destruct (decide (j = i)) as [->|Hj].
    + specialize (Hhist i). unfold source_state in *.
      destruct (seqs !! i) as [[l0|]|];
        [|destruct Hhist as (_ & _ & Hu); congruence..].
      destruct Hhist as (w & rest & Hl0 & Hrest & Hww & _ & Hpulls).
      rewrite Hw in Hww. subst w. rewrite Hh in Hrest. injection Hrest as <-.
      exists [], []. cbn [trace handles items].
      rewrite emitted_from_app, pulls_of_app, Hpulls. simpl.
      rewrite !decide_True by done. simpl.
      split_and!; auto.
      * rewrite Hl0. by rewrite <- !(assoc app).
      * rewrite !app_nil_r. done.
    + apply (source_state_ext index j _ fr); cbn [trace handles items]; auto.
      * rewrite pulls_of_app. simpl. rewrite decide_False by done.
        by rewrite app_nil_r.
      * rewrite emitted_from_app. simpl. rewrite decide_False by lia.
        by rewrite app_nil_r.
      * by apply (with_index_other index n fr v h i j).
Qed.

Lemma finishes_history seqs n fr fr' o :
  finishes index cmp yield fr fr' o ->
  frame_ok index n fr -> hist_inv index seqs fr ->
  forall i, source_history index i (seqs !! i) (trace fr') o.
Proof.
  induction 1 as [fr Hits|fr fr' Hne Hit|fr fr1 fr' o Hne Hit Hfin IH];
    intros Hok Hhist i.
  - by apply (hist_inv_drained index seqs n).
  - inversion Hit as [v h c Hroot Hpop Hy| |]; subst.
    destruct (Pop_shape index cmp _ _ Hroot) as (h0 & Hpop' & Hperm & _).
    rewrite Hpop in Hpop'. injection Hpop' as <-.
    assert (v ∈ items fr) as Hv by (by eapply list_elem_of_lookup_2).
    destruct (ok_tagged _ _ _ Hok v Hv) as (i0 & Hi0 & _).
    pose proof (with_index_root index n fr v i0 Hok Hv Hi0) as Hw.
    cbn [trace]. specialize (Hhist i).
    unfold source_state, source_history in *.
    rewrite emitted_from_app, pulls_of_app. simpl. rewrite !app_nil_r.
    destruct (decide (index v = Z.of_nat i)) as [Hvi|Hvi].
    + assert (i0 = i) as -> by lia.
      destruct (seqs !! i) as [[l|]|];
        [|destruct Hhist as (_ & _ & Hu); congruence..].
      destruct Hhist as (w & rest & Hl & Hrest & Hww & _ & Hpulls).
      rewrite Hw in Hww. subst w.
      exists [], rest, []. rewrite Hpulls. simpl. rewrite !app_nil_r.
      split_and!; auto; try done. rewrite Hl. by rewrite <- !(assoc app).
    + rewrite app_nil_r.
      destruct (seqs !! i) as [[l|]|];
        [|destruct Hhist as (? & ? & _); done..].
      destruct Hhist as (w & rest & Hl & Hrest & Hww & Hlen & Hpulls).
      exists w, rest, (exhausted_mark w rest). split_and!; auto; try done.
      unfold exhausted_mark. destruct w, rest; auto.
  - destruct (iteration_ok index cmp yield n fr fr1 Hok Hit) as (Hok1 & _).
    apply IH; auto. by apply (iteration_hist seqs n fr).
Qed.

End History.

Lemma pulls_of_stops {T} i (l : list nat) :
  pulls_of i (EvStop (T:=T) <$> l) = [].
Proof. induction l; simpl; auto. Qed.

Lemma emitted_from_stops {T} (index : T -> Z) i (l : list nat) :
  emitted_from index i (EvStop <$> l) = [].
Proof. induction l; simpl; auto. Qed.

Lemma source_history_stops {T} (index : T -> Z) i src (tr : list (event T)) l o :
  source_history index i src tr o ->
  source_history index i src (tr ++ (EvStop <$> l)) o.
Proof.
  unfold source_history.
  by rewrite emitted_from_app, pulls_of_app, pulls_of_stops,
    emitted_from_stops, !app_nil_r.
Qed.

Section Runs.
Context {T C : Type} (index : T -> Z) (cmp : T -> T -> Z).
Context (yield : C -> T -> C * bool).
Implicit Types fr : frame T C.

(** The history of every source in a call of [all]. *)
Lemma all_history seqs (c : C) :
  tagged index seqs ->
  forall i,
    source_history index i (seqs !! i)
      (run_events (all index cmp yield seqs c))
      (run_outcome (all index cmp yield seqs c)).
Proof.
  intros Htag i.
  destruct (all_finishes index cmp yield seqs c Htag)
    as (h & fr' & o & Hinit & Hfin & ->).
  cbn [run_events run_outcome].
  destruct (Init_shape index cmp (items (all_start seqs c)))
    as (h' & Hh' & Hperm).
  rewrite Hinit in Hh'. injection Hh' as <-.
  pose proof (all_start_inv index cmp yield seqs c Htag) as [Hok _ _ _ _].
  apply source_history_stops.
  eapply (finishes_history index cmp yield seqs); [exact Hfin|..].
  - by apply frame_ok_set_items.
  - eapply hist_inv_set_items; [exact Hok|done|].
    by apply (all_start_hist index cmp yield).
Qed.

(** No [stop] runs before [all] returns. *)
Lemma open_one_trace i seq fr :
  exists evs, trace (open_one i seq fr) = trace fr ++ evs /\
              Forall (fun e => ~ is_stop e) evs.
Proof.
  unfold open_one. destruct seq as [l|]; [|exists []; by rewrite app_nil_r].
  unfold next. cbn [handles items pulls trace consumer].
  destruct (<[i:=Some l]> (handles fr) !! i) as [[[|v l']|]|];
    cbn [handles items pulls trace consumer];
    eexists; (split; [reflexivity|]); repeat constructor; auto.
Qed.

Lemma open_loop_trace seqs : forall i fr,
  exists evs, trace (open_loop i seqs fr) = trace fr ++ evs /\
              Forall (fun e => ~ is_stop e) evs.
Proof.
  induction seqs as [|seq seqs IH]; intros i fr; simpl.
  - exists []. by rewrite app_nil_r.
  - destruct (IH (S i) (open_one i seq fr)) as (evs2 & -> & H2).
    destruct (open_one_trace i seq fr) as (evs1 & -> & H1).
    exists (evs1 ++ evs2). rewrite (assoc app). split; [done|].
    by apply Forall_app.
Qed.

Lemma finishes_no_stop fr fr' o :
  finishes index cmp yield fr fr' o ->
  exists evs, trace fr' = trace fr ++ evs /\
              Forall (fun e => ~ is_stop e) evs.
Proof.
  induction 1 as [fr Hits|fr fr' Hne Hit|fr fr1 fr' o Hne Hit Hfin IH].
  - exists []. by rewrite app_nil_r.
  - inversion Hit; subst. cbn [trace]. eexists. split; [done|].
    repeat constructor; auto.
  - destruct IH as (evs2 & -> & H2).
    inversion Hit; subst; cbn [trace]; eexists;
      (split; [by rewrite <- (assoc app)|]);
      repeat constructor; auto.
Qed.

(** The consumer has accepted everything it was handed before the last
    element, and its state is the one these calls leave. *)
Lemma finishes_consumer (c0 : C) fr fr' o :
  finishes index cmp yield fr fr' o ->
  range_over (yielded (trace fr)) yield c0 = (consumer fr, true) ->
  range_over (yielded (trace fr')) yield c0 =
    (consumer fr', if o is Drained then true else false) /\
  forall k, k < length (yielded (trace fr')) ->
    (range_over (take k (yielded (trace fr'))) yield c0).2 = true.
Proof.
  induction 1 as [fr Hits|fr fr' Hne Hit|fr fr1 fr' o Hne Hit Hfin IH];
    intros Hc.
  - split; [done|]. intros k Hk.
    rewrite <- (take_drop k (yielded (trace fr))) in Hc.
    rewrite range_over_app in Hc.
    by destruct (range_over (take k (yielded (trace fr))) yield c0) as [c1 []].
  - inversion Hit as [v h c Hroot Hpop Hy| |]; subst. cbn [trace consumer].
    rewrite yielded_app. simpl. split.
    + rewrite range_over_app, Hc. simpl. by rewrite Hy.
    + intros k Hk. rewrite length_app in Hk. simpl in Hk.
      rewrite take_app_le by lia.
      rewrite <- (take_drop k (yielded (trace fr))) in Hc.
      rewrite range_over_app in Hc.
      by destruct (range_over (take k (yielded (trace fr))) yield c0) as [c1 []].
  - apply IH.
    inversion Hit as [|v h c i v' l h' Hroot Hpop Hy Hi Hh Hpush
                      |v h c i Hroot Hpop Hy Hi Hh]; subst;
      cbn [trace consumer]; rewrite yielded_app; simpl;
      rewrite range_over_app, Hc; simpl; by rewrite Hy.
Qed.
End Runs.

(** The deferred [stop] calls: every started handle once, last started
    first. *)
Lemma deferred_spec {T} (seqs : list (option (list T))) : forall i,
  StronglySorted (fun a b => b < a) (deferred i seqs) /\
  forall j, j ∈ deferred i seqs <->
            i <= j /\ exists l, seqs !! (j - i) = Some (Some l).
Proof.
  induction seqs as [|seq seqs IH]; intros i; simpl.
  - split; [constructor|]. intros j. split; [by intros ?%elem_of_nil|].
    intros (_ & l & Hl). done.
  - destruct (IH (S i)) as [Hsorted Hmem].
    assert (forall j, S i <= j -> seqs !! (j - S i) = (seq :: seqs) !! (j - i))
      as Hshift.
    { intros j Hj. replace (j - i) with (S (j - S i)) by lia. done. }
    destruct seq as [l0|].
    + split.
      * apply StronglySorted_app_2; [|done|repeat constructor].
        intros a b Ha Hb. apply list_elem_of_singleton in Hb as ->.
        apply Hmem in Ha. lia.
      * intros j. rewrite elem_of_app, list_elem_of_singleton, Hmem. split.
        -- intros [(Hj & l & Hl)| ->].
           ++ split; [lia|]. exists l. by rewrite <- Hshift.
           ++ split; [lia|]. exists l0. by rewrite Nat.sub_diag.
        -- intros (Hj & l & Hl). destruct (decide (j = i)) as [->|Hne]; [by right|].
           left. split; [lia|]. exists l. rewrite Hshift; [done|lia].
    + split; [done|]. intros j. rewrite Hmem. split.
      * intros (Hj & l & Hl). split; [lia|]. exists l. by rewrite <- Hshift.
      * intros (Hj & l & Hl). destruct (decide (j = i)) as [->|Hne].
        { by rewrite Nat.sub_diag in Hl. }
        split; [lia|]. exists l. rewrite Hshift; [done|lia].
Qed.

Lemma deferred_wrap_seqs {T} (seqs : list (option (list T))) : forall i k,
  deferred i (wrap_seqs k seqs).1 = deferred i seqs.
Proof.
  induction seqs as [|seq seqs IH]; intros i k; simpl; [done|].
  specialize (IH (S i) (S k)).
  destruct (wrap_seqs (S k) seqs) as [ws ok]. simpl in IH.
  destruct seq; simpl; by rewrite IH.
Qed.

(** ** Runs of [Merge] *)

Section MergeRuns.
Context {T : Type}.
Implicit Types seqs : list (option (list T)).

Lemma Merge_history {C} (cmp : T -> T -> Z) seqs (yield : C -> T -> C * bool) c :
  exists s, Merge (Some cmp) seqs = Ok s /\
    forall i,
      source_history index i ((wrap_seqs 0 seqs).1 !! i)
        (run_events (s yield c)) (run_outcome (s yield c)).
Proof.
  destruct (Merge_run cmp seqs yield c)
    as [(_ & Hnil & HM)|(_ & h & fr' & o & HM & _ & _ & _)].
  - exists emptySeq. split; [done|]. intros i.
    rewrite wrap_seqs_lookup. simpl.
    destruct (seqs !! i) as [[l|]|] eqn:Hi; simpl; [|done..].
    eapply Forall_lookup_1 in Hnil; [|exact Hi]. done.
  - eexists. split; [exact HM|]. intros i. unfold mergeSeq.
    apply all_history. apply wrap_seqs_tagged.
Qed.

Lemma wrapSeq_index (i : Z) (l : list T) :
  Forall (fun w => sv_i w = i) (wrapSeq i l).
Proof. unfold wrapSeq. apply Forall_fmap, Forall_forall. done. Qed.

(** X6: whatever the comparator and the consumer, and however the run
    ends, the run of a sequence returned by [Merge] ends with the deferred
    [stop] calls and has none before them; every source that is not nil
    is stopped exactly once, no other handle is, and the handles are
    stopped in the reverse of the order of the sources. *)
Theorem Merge_stops_sources {C} (cmp : T -> T -> Z) seqs
    (yield : C -> T -> C * bool) (c : C) :
  exists s, Merge (Some cmp) seqs = Ok s /\
    exists tr stops,
      run_events (s yield c) = tr ++ (EvStop <$> stops) /\
      Forall (fun e => ~ is_stop e) tr /\
      StronglySorted (fun a b => b < a) stops /\
      forall i, i ∈ stops <-> exists l, seqs !! i = Some (Some l).
Proof.
  destruct (Merge_run cmp seqs yield c)
    as [(_ & Hnil & HM)|(_ & h & fr' & o & HM & Hinit & Hfin & Hrun)].
  - exists emptySeq. split; [done|]. exists [], []. split_and!; try by constructor.
    intros i. split; [by intros ?%elem_of_nil|]. intros [l Hl].
    eapply Forall_lookup_1 in Hnil; [|exact Hl]. done.
  - eexists. split; [exact HM|]. rewrite Hrun. cbn [run_events].
    exists (trace fr'), (deferred 0 (wrap_seqs 0 seqs).1). split; [done|].
    rewrite deferred_wrap_seqs.
    destruct (deferred_spec seqs 0) as [Hsorted Hmem]. split_and!; auto.
    + destruct (finishes_no_stop _ _ _ _ _ _ Hfin) as (evs2 & -> & H2).
      cbn [set_items trace]. unfold all_start.
      destruct (open_loop_trace (T:=wrappedSeqValue T) (C:=C)
                  (wrap_seqs 0 seqs).1 0
                  (Frame [] (replicate (length (wrap_seqs 0 seqs).1) None)
                     (replicate (length (wrap_seqs 0 seqs).1) None) [] c))
        as (evs1 & -> & H1).
      cbn [trace]. simpl. by apply Forall_app.
    + intros i. rewrite Hmem, Nat.sub_0_r. split; [by intros [_ ?]|].
      intros ?. split; [lia|done].
Qed.

(** X7: whatever the comparator and the consumer, what was emitted of a
    source is the beginning of what was pulled from it, at most one
    element shorter; what was pulled from a source is the beginning of
    its list, in order, wrapped with the position of the source; a nil
    source, and a position beyond the sources, is never pulled. *)
Theorem Merge_reads_one_ahead {C} (cmp : T -> T -> Z) seqs
    (yield : C -> T -> C * bool) (c : C) :
  exists s, Merge (Some cmp) seqs = Ok s /\
    forall i,
      let e := emitted_from index i (run_events (s yield c)) in
      let p := pulled_from i (run_events (s yield c)) in
      e `prefix_of` p /\ length p <= S (length e) /\
      match seqs !! i with
      | Some (Some l) =>
          (sv_v <$> p) `prefix_of` l /\
          Forall (fun w => sv_i w = Z.of_nat i) p
      | _ => pulls_of i (run_events (s yield c)) = []
      end.
Proof.
  destruct (Merge_history cmp seqs yield c) as (s & HM & Hhist).
  exists s. split; [done|]. intros i e p. subst e p.
  specialize (Hhist i). rewrite wrap_seqs_lookup in Hhist. simpl in Hhist.
  rewrite pulled_from_pulls_of.
  destruct (seqs !! i) as [[l|]|]; simpl in Hhist.
  - destruct Hhist as (w & rest & nones & Hl & Hp & Hw & Hn & _).
    rewrite Hp, omap_app, omap_id_fmap_Some.
    assert (omap id nones = []) as ->.
    { by destruct Hn as [->|(-> & _)]. }
    rewrite app_nil_r. split_and!.
    + by exists w.
    + rewrite length_app. lia.
    + exists (sv_v <$> rest).
      rewrite <- (wrapSeq_values (Z.of_nat i) l), Hl.
      by rewrite (assoc app), fmap_app.
    + pose proof (wrapSeq_index (Z.of_nat i) l) as Hall.
      rewrite Hl, (assoc app) in Hall. by apply Forall_app in Hall as [? _].
  - destruct Hhist as [-> ->]. simpl. split_and!; auto.
  - destruct Hhist as [-> ->]. simpl. split_and!; auto.
Qed.

(** X8: in a run that ends drained, whatever the comparator and without
    any assumption on the order of the sources, every source that is not
    nil was pulled once for each of its elements, in order, and exactly
    once more, which found it exhausted; and the elements emitted with
    its index are its elements in their order. *)
Theorem Merge_pull_history {C} (cmp : T -> T -> Z) seqs
    (yield : C -> T -> C * bool) (c : C) :
  exists s, Merge (Some cmp) seqs = Ok s /\
    (run_outcome (s yield c) = Drained ->
     forall i,
       match seqs !! i with
       | Some (Some l) =>
           pulls_of i (run_events (s yield c)) =
             (Some <$> wrapSeq (Z.of_nat i) l) ++ [None] /\
           emitted_from index i (run_events (s yield c)) =
             wrapSeq (Z.of_nat i) l
       | _ =>
           pulls_of i (run_events (s yield c)) = [] /\
           emitted_from index i (run_events (s yield c)) = []
       end).
Proof.
  destruct (Merge_history cmp seqs yield c) as (s & HM & Hhist).
  exists s. split; [done|]. intros Hdr i.
  specialize (Hhist i). rewrite wrap_seqs_lookup in Hhist. simpl in Hhist.
  destruct (seqs !! i) as [[l|]|]; simpl in Hhist; [|done..].
  destruct Hhist as (w & rest & nones & Hl & Hp & _ & _ & Hd).
  destruct (Hd Hdr) as (-> & -> & ->).
  rewrite !app_nil_r in *. by rewrite Hp, <- Hl.
Qed.

(** X9: whatever the comparator and whether or not the sources are
    sorted, the consumer receives each element of the sources at most as
    often as the sources hold it; a run that ends drained has yielded
    exactly the elements of the sources, as many as they hold together;
    and a consumer that never stops drains the sequence. *)
Theorem Merge_loses_nothing {C} (cmp : T -> T -> Z) seqs
    (yield : C -> T -> C * bool) (c : C) :
  exists s, Merge (Some cmp) seqs = Ok s /\
    (exists rest, elements seqs ≡ₚ output (s yield c) ++ rest) /\
    (run_outcome (s yield c) = Drained ->
     output (s yield c) ≡ₚ elements seqs /\
     length (output (s yield c)) = total_length seqs) /\
    ((forall c v, (yield c v).2 = true) -> run_outcome (s yield c) = Drained).
Proof.
  destruct (Merge_emits cmp seqs yield c)
    as (s & HM & _ & Hdr & (rest & Hperm & Hrest) & _).
  exists s. split; [done|].
  assert (elements seqs ≡ₚ output (s yield c) ++ (sv_v <$> rest)) as Hout.
  { rewrite <- (wrap_seqs_elements seqs 0), Hperm, fmap_app. done. }
  split_and!; eauto.
  intros Hd. rewrite (Hrest Hd) in Hout. simpl in Hout.
  rewrite app_nil_r in Hout. split; [done|].
  by rewrite <- Hout, elements_length.
Qed.

Lemma Merge_consumer {C} (cmp : T -> T -> Z) seqs
    (yield : C -> T -> C * bool) (c : C) :
  exists s, Merge (Some cmp) seqs = Ok s /\
    range_over (output (s yield c)) yield c =
      (run_consumer (s yield c),
       if run_outcome (s yield c) is Drained then true else false) /\
    forall k, k < length (output (s yield c)) ->
      (range_over (take k (output (s yield c))) yield c).2 = true.
Proof.
  destruct (Merge_run cmp seqs yield c)
    as [(_ & Hnil & HM)|(_ & h & fr' & o & HM & Hinit & Hfin & Hrun)].
  - exists emptySeq. split; [done|]. split; [done|]. simpl. lia.
  - eexists. split; [exact HM|]. unfold output. rewrite Hrun.
    cbn [run_events run_consumer run_outcome].
    rewrite yielded_app, yielded_stops, app_nil_r.
    destruct (finishes_consumer _ _ _ c _ _ _ Hfin) as [Hc Hacc].
    { cbn [set_items trace consumer].
      by rewrite all_start_yielded, all_start_consumer. }
    split.
    + by rewrite range_over_fmap.
    + intros k Hk. rewrite length_fmap in Hk.
      rewrite <- fmap_take, range_over_fmap. by apply Hacc.
Qed.

(** X10: [yield] is called once for every element of the output, in
    order, each call starting from the state the previous one left: the
    consumer's final state is the one these calls leave.  Every call but
    the last returned true; the last returned false exactly when
    the run ended stopped, so [yield] is never called again after it
    returned false. *)
Theorem Merge_yield_protocol {C} (cmp : T -> T -> Z) seqs
    (yield : C -> T -> C * bool) (c : C) :
  exists s, Merge (Some cmp) seqs = Ok s /\
    range_over (output (s yield c)) yield c =
      (run_consumer (s yield c),
       if run_outcome (s yield c) is Drained then true else false) /\
    forall k, k < length (output (s yield c)) ->
      (range_over (take k (output (s yield c))) yield c).2 = true.
Proof. apply Merge_consumer. Qed.

(** Sources without elements. *)
Lemma Merge_nothing {C} (cmp : T -> T -> Z) seqs
    (yield : C -> T -> C * bool) (c : C) :
  elements seqs = [] ->
  exists s, Merge (Some cmp) seqs = Ok s /\
    run_outcome (s yield c) = Drained /\
    yielded (run_events (s yield c)) = [] /\
    run_consumer (s yield c) = c /\
    forall i l, seqs !! i = Some (Some l) ->
      l = [] /\ pulls_of i (run_events (s yield c)) = [None].
Proof.
  intros Hnone.
  destruct (Merge_emits cmp seqs yield c)
    as (s & HM & Ho & _ & (rest & Hperm & _) & _).
  exists s. split; [done|].
  assert (yielded (run_events (s yield c)) = []) as Hy.
  { pose proof (wrap_seqs_elements seqs 0) as He. rewrite Hnone in He.
    apply fmap_nil_inv in He. rewrite He in Hperm.
    apply Permutation_nil_l in Hperm. symmetry in Hperm.
    by apply app_eq_nil in Hperm as [? _]. }
  assert (run_outcome (s yield c) = Drained) as Hd.
  { destruct Ho as [?|Hs]; [done|exfalso].
    destruct (Merge_stopped_trace cmp seqs yield c) as (s' & HM' & Hst).
    rewrite HM in HM'. injection HM' as <-.
    destruct (Hst Hs) as (tr & v & Htr). rewrite Htr, yielded_app in Hy.
    simpl in Hy. by apply app_eq_nil in Hy as [_ ?]. }
  split_and!; auto.
  - destruct (Merge_consumer cmp seqs yield c) as (s' & HM' & Hc & _).
    rewrite HM in HM'. injection HM' as <-.
    unfold output in Hc. rewrite Hy in Hc. simpl in Hc. congruence.
  - intros i l Hl.
    destruct (Merge_history cmp seqs yield c) as (s' & HM' & Hhist).
    rewrite HM in HM'. injection HM' as <-.
    specialize (Hhist i). rewrite wrap_seqs_lookup, Hl in Hhist.
    simpl in Hhist.
    destruct Hhist as (w & rest' & nones & Hw & Hp & _ & _ & Hdr).
    destruct (Hdr Hd) as (-> & -> & ->).
    rewrite emitted_from_yielded, Hy in Hw, Hp. cbn in Hw, Hp.
    split; [|done]. by destruct l.
Qed.

(** A single source. *)
Lemma Merge_one {C} (cmp : T -> T -> Z) (l : list T)
    (yield : C -> T -> C * bool) (c : C) :
  (forall c v, (yield c v).2 = true) ->
  exists s, Merge (Some cmp) [Some l] = Ok s /\
    run_outcome (s yield c) = Drained /\
    output (s yield c) = l.
Proof.
  intros Hyield.
  destruct (Merge_emits cmp [Some l] yield c)
    as (s & HM & _ & Hdr & (rest & Hperm & _) & _).
  specialize (Hdr Hyield).
  destruct (Merge_history cmp [Some l] yield c) as (s' & HM' & Hhist).
  rewrite HM in HM'. injection HM' as <-.
  exists s. split_and!; auto.
  specialize (Hhist 0). cbn in Hhist.
  destruct Hhist as (w & rest' & nones & Hw & _ & _ & _ & Hd).
  destruct (Hd Hdr) as (-> & -> & _). rewrite !app_nil_r in Hw.
  rewrite emitted_from_yielded in Hw. unfold output.
  transitivity (sv_v <$> wrapSeq 0%Z l); [f_equal|apply wrapSeq_values].
  change (Z.of_nat 0) with 0%Z in Hw. rewrite Hw.
  unfold with_index. symmetry. apply filter_all. intros x Hx.
  assert (x ∈ elements (wrap_seqs 0 [Some l]).1) as Hin.
  { rewrite Hperm. apply elem_of_app. by left. }
  cbn in Hin. rewrite app_nil_r in Hin.
  by apply list_elem_of_fmap in Hin as (v & -> & _).
Qed.

(** X11: when no source holds an element (each one is nil or empty) the
    returned sequence ends drained without calling [yield], leaves the
    consumer's state as it was, and has pulled every source that is not
    nil exactly once. *)
Theorem Merge_of_empty_sources {C} (cmp : T -> T -> Z) seqs
    (yield : C -> T -> C * bool) (c : C) :
  elements seqs = [] ->
  exists s, Merge (Some cmp) seqs = Ok s /\
    run_outcome (s yield c) = Drained /\
    output (s yield c) = [] /\
    run_consumer (s yield c) = c /\
    forall i l, seqs !! i = Some (Some l) ->
      l = [] /\ pulls_of i (run_events (s yield c)) = [None].
Proof.
  intros Hnone.
  destruct (Merge_nothing cmp seqs yield c Hnone) as (s & HM & Hd & Hy & Hc & Hp).
  exists s. split_and!; auto. unfold output. by rewrite Hy.
Qed.
End MergeRuns.

Lemma Merge_pull_history_witness :
  exists s, Merge (Some cmp_Compare) [Some [1; 3]; None; Some [2]]%Z = Ok s /\
    run_outcome (s collect []) = Drained /\
    pulls_of 0 (run_events (s collect [])) =
      [Some (WrappedSeqValue 0 1); Some (WrappedSeqValue 0 3); None]%Z /\
    pulls_of 1 (run_events (s collect [])) = [] /\
    pulls_of 2 (run_events (s collect [])) = [Some (WrappedSeqValue 2 2%Z); None].
Proof.
  destruct (Merge_pull_history cmp_Compare [Some [1; 3]; None; Some [2]]%Z
              collect []) as (s & HM & Hhist).
  exists s. split; [exact HM|]. injection HM as <-.
  split; [reflexivity|]. specialize (Hhist eq_refl).
  split; [exact (proj1 (Hhist 0))|].
  split; [exact (proj1 (Hhist 1))|exact (proj1 (Hhist 2))].
Defined.

Lemma Merge_loses_nothing_witness :
  exists s, Merge (Some (fun _ _ : Z => 1%Z)) [Some [3; 1]; Some [2]]%Z = Ok s /\
    run_outcome (s collect []) = Drained /\
    output (s collect []) ≡ₚ [3; 1; 2]%Z /\
    length (output (s collect [])) = 3.
Proof.
  destruct (Merge_loses_nothing (fun _ _ : Z => 1%Z) [Some [3; 1]; Some [2]]%Z
              collect []) as (s & HM & _ & Hd & Hc).
  exists s. split; [exact HM|].
  specialize (Hc (fun _ _ => eq_refl)). split; [exact Hc|].
  exact (Hd Hc).
Defined.

Lemma Merge_yield_protocol_witness :
  exists s, Merge (Some cmp_Compare) [Some [1; 3]; Some [2]]%Z = Ok s /\
    range_over (output (s (stop_after 2) [])) (stop_after 2) [] =
      ([1; 2]%Z, false) /\
    (range_over (take 1 (output (s (stop_after 2) []))) (stop_after 2) []).2 = true.
Proof.
  destruct (Merge_yield_protocol cmp_Compare [Some [1; 3]; Some [2]]%Z
              (stop_after 2) []) as (s & HM & Hr & Hacc).
  exists s. split; [exact HM|]. injection HM as <-.
  split; [exact Hr|]. apply Hacc. simpl. lia.
Defined.

Lemma Merge_of_empty_sources_witness :
  exists s, Merge (Some cmp_Compare) [Some []; None; Some []] = Ok s /\
    run_outcome (s collect []) = Drained /\
    output (s collect []) = [] /\
    pulls_of 0 (run_events (s collect [])) = [None] /\
    pulls_of 2 (run_events (s collect [])) = [None].
Proof.
  destruct (Merge_of_empty_sources cmp_Compare [Some []; None; Some []]
              collect [] eq_refl) as (s & HM & Hd & Ho & _ & Hp).
  exists s. split_and!; auto.
  - exact (proj2 (Hp 0 [] eq_refl)).
  - exact (proj2 (Hp 2 [] eq_refl)).
Defined.

(** X12: [mergeState.all] relies on every element carrying the position
    of its own source.  With a first element whose [index()] is not 0, a
    single source is yielded that element and then line 60 panics with an
    index out of range; with [index()] 1 and an empty second source,
    whose entry of [pulls] was never set, it panics with a call of a nil
    function.  The deferred [stop] calls run in both cases. *)
Theorem all_foreign_index_panics {T C} (index : T -> Z) (cmp : T -> T -> Z)
    (yield : C -> T -> C * bool) (v : T) (l : list T) (c : C) :
  (yield c v).2 = true ->
  (index v <> 0%Z ->
   all index cmp yield [Some (v :: l)] c =
     Run (Panicked IndexOutOfRange)
         [EvPull 0 (Some v); EvYield v; EvStop 0] (yield c v).1) /\
  (index v = 1%Z ->
   all index cmp yield [Some (v :: l); Some []] c =
     Run (Panicked NilFunction)
         [EvPull 0 (Some v); EvPull 1 None; EvYield v; EvStop 1; EvStop 0]
         (yield c v).1).
Proof.
  intros Hy. destruct (yield c v) as [c' more] eqn:Hyv. simpl in Hy. subst more.
  split; intros Hi.
  - unfold all. cbn. rewrite Hyv. cbn.
    unfold refill. cbn [pulls]. unfold pulls_at.
    destruct (index v <? 0)%Z eqn:Hneg; [done|].
    apply Z.ltb_ge in Hneg.
    destruct (Z.to_nat (index v)) as [|n] eqn:Hn; [lia|]. done.
  - unfold all. cbn. rewrite Hyv. cbn.
    unfold refill. cbn [pulls]. unfold pulls_at. rewrite Hi. done.
Qed.

Lemma all_foreign_index_panics_witness :
  all (fun z : Z => z) cmp_Compare collect [Some [5; 7]%Z] [] =
    Run (Panicked IndexOutOfRange)
        [EvPull 0 (Some 5%Z); EvYield 5%Z; EvStop 0] [5%Z] /\
  all (fun z : Z => z) cmp_Compare collect [Some [1; 7]%Z; Some []] [] =
    Run (Panicked NilFunction)
        [EvPull 0 (Some 1%Z); EvPull 1 None; EvYield 1%Z; EvStop 1; EvStop 0]
        [1%Z].
Proof.
  split.
  - exact (proj1 (all_foreign_index_panics (fun z : Z => z) cmp_Compare collect
                    5%Z [7%Z] [] eq_refl) ltac:(lia)).
  - exact (proj2 (all_foreign_index_panics (fun z : Z => z) cmp_Compare collect
                    1%Z [7%Z] [] eq_refl) eq_refl).
Defined.

(** ** [wrapSeq] and [wrapSeq2] as functions of their consumer *)

Lemma range_over_ext {T C} (l : list T) (y1 y2 : C -> T -> C * bool) c :
  (forall c v, y1 c v = y2 c v) -> range_over l y1 c = range_over l y2 c.
Proof.
  intros Hy. revert c. induction l as [|v l IH]; intros c; simpl; [done|].
  rewrite Hy. destruct (y2 c v) as [c' []]; simpl; auto.
Qed.

Lemma range_over_collect {T} (l acc : list T) :
  range_over l collect acc = (acc ++ l, true).
Proof.
  revert acc. induction l as [|v l IH]; intros acc; simpl.
  - by rewrite app_nil_r.
  - rewrite IH. by rewrite <- (assoc app).
Qed.

Lemma range_over_stop_after {T} (k : nat) (l acc : list T) :
  length acc < k ->
  range_over l (stop_after k) acc =
    (acc ++ take (k - length acc) l, length acc + length l <? k).
Proof.
  revert acc. induction l as [|v l IH]; intros acc Hacc; simpl.
  - rewrite take_nil, app_nil_r, Nat.add_0_r.
    by apply Nat.ltb_lt in Hacc as ->.
  - unfold stop_after at 1.
    destruct (S (length acc) <? k) eqn:Hk; simpl.
    + apply Nat.ltb_lt in Hk. rewrite IH by (rewrite length_app; simpl; lia).
      rewrite length_app. simpl.
      replace (k - length acc) with (S (k - (length acc + 1))) by lia.
      simpl. rewrite <- (assoc app). simpl. do 2 f_equal. lia.
    + apply Nat.ltb_ge in Hk.
      replace (k - length acc) with 1 by lia. simpl. rewrite take_0.
      f_equal. symmetry. apply Nat.ltb_ge. lia.
Qed.

(** X13: the function returned by [wrapSeq(i, seq)] hands to [yield] the
    elements of [seq], each wrapped with [i], until [yield] returns false:
    it is a loop over the list [wrapSeq i seq].  A collecting consumer
    receives that list, one that breaks at the [k]-th element its first
    [k] elements; the wrapped values are those of [seq] in order and all
    carry [i] as index. *)
Theorem wrapSeq_run_list {T C} (i : Z) (seq : list T)
    (yield : C -> wrappedSeqValue T -> C * bool) (c : C) (k : nat) :
  wrapSeq_run i seq yield c = range_over (wrapSeq i seq) yield c /\
  wrapSeq_run i seq collect [] = (wrapSeq i seq, true) /\
  (0 < k ->
   wrapSeq_run i seq (stop_after k) [] =
     (take k (wrapSeq i seq), length seq <? k)) /\
  sv_v <$> wrapSeq i seq = seq /\
  Forall (fun w => index w = i) (wrapSeq i seq).
Proof.
  assert (forall C' (y : C' -> wrappedSeqValue T -> C' * bool) c',
            wrapSeq_run i seq y c' = range_over (wrapSeq i seq) y c') as Heq.
  { intros C' y c'. unfold wrapSeq_run, wrapSeq. by rewrite range_over_fmap. }
  split_and!.
  - apply Heq.
  - by rewrite Heq, range_over_collect.
  - intros Hk. rewrite Heq, range_over_stop_after by (simpl; lia).
    simpl. rewrite Nat.sub_0_r. unfold wrapSeq at 2. by rewrite length_fmap.
  - apply wrapSeq_values.
  - apply wrapSeq_index.
Qed.

Lemma wrapSeq_run_list_witness :
  wrapSeq_run 0 [1; 2; 3; 4; 5]%Z (stop_after 3) [] =
    ([WrappedSeqValue 0 1; WrappedSeqValue 0 2; WrappedSeqValue 0 3]%Z, false).
Proof.
  exact (proj1 (proj2 (proj2
    (wrapSeq_run_list 0 [1; 2; 3; 4; 5]%Z (stop_after 3) [] 3))) ltac:(lia)).
Defined.

(** X14: the function returned by [wrapSeq2(i, seq)] hands to [yield] the
    key/value pairs of [seq], each wrapped with [i], until [yield] returns
    false: it is a loop over the list [wrapSeq2 i seq], whose elements
    carry the pairs of [seq] in order and [i] as index, and which is
    [wrapSeq i seq] when every element is packed into a pair. *)
Theorem wrapSeq2_run_list {T1 T2 C} (i : Z) (seq : list (T1 * T2))
    (yield : C -> wrappedSeq2Value T1 T2 -> C * bool) (c : C) (k : nat) :
  wrapSeq2_run i seq yield c = range_over (wrapSeq2 i seq) yield c /\
  wrapSeq2_run i seq collect [] = (wrapSeq2 i seq, true) /\
  (0 < k ->
   wrapSeq2_run i seq (stop_after k) [] =
     (take k (wrapSeq2 i seq), length seq <? k)) /\
  (fun w => (sv2_v1 w, sv2_v2 w)) <$> wrapSeq2 i seq = seq /\
  Forall (fun w => index2 w = i) (wrapSeq2 i seq) /\
  pack <$> wrapSeq2 i seq = wrapSeq i seq.
Proof.
  assert (forall C' (y : C' -> wrappedSeq2Value T1 T2 -> C' * bool) c',
            wrapSeq2_run i seq y c' = range_over (wrapSeq2 i seq) y c') as Heq.
  { intros C' y c'. unfold wrapSeq2_run, wrapSeq2. rewrite range_over_fmap.
    apply range_over_ext. by intros c0 [v1 v2]. }
  split_and!.
  - apply Heq.
  - by rewrite Heq, range_over_collect.
  - intros Hk. rewrite Heq, range_over_stop_after by (simpl; lia).
    simpl. rewrite Nat.sub_0_r. unfold wrapSeq2 at 2. by rewrite length_fmap.
  - unfold wrapSeq2. rewrite <- list_fmap_compose.
    rewrite <- (list_fmap_id seq) at 2. apply list_fmap_ext.
    by intros _ [v1 v2] _.
  - unfold wrapSeq2. apply Forall_fmap, Forall_forall. by intros [v1 v2] _.
  - apply wrapSeq2_pack.
Qed.

Lemma wrapSeq2_run_list_witness :
  wrapSeq2_run 3 [(1, true); (2, false); (3, true)]%Z (stop_after 2) [] =
    ([WrappedSeq2Value 3 1%Z true; WrappedSeq2Value 3 2%Z false], false).
Proof.
  exact (proj1 (proj2 (proj2
    (wrapSeq2_run_list 3 [(1, true); (2, false); (3, true)]%Z
       (stop_after 2) [] 2))) ltac:(lia)).
Defined.

(** ** [Merge2] on its sources *)

Lemma key_Compare_ok {V} : comparator_ok (pair_compare (key_Compare (V:=V))).
Proof.
  split; unfold pair_compare, key_Compare, cmp_Compare; intros;
    repeat case_match; lia.
Qed.

Lemma pulls_of_map {A B} (f : A -> B) i (tr : list (event A)) :
  pulls_of i (event_map f <$> tr) = fmap (M:=option) f <$> pulls_of i tr.
Proof.
  induction tr as [|[h r|v|h] tr IH]; simpl; auto.
  case_decide; simpl; [f_equal|]; exact IH.
Qed.

Section Merge2Facts.
Context {T1 T2 : Type}.
Implicit Types seqs : list (option (list (T1 * T2))).

(** A run of [Merge2] is, element for element packed into a pair, the
    run of [Merge] on the pairs. *)
Lemma Merge2_run_pack {C} (cmp : T1 -> T2 -> T1 -> T2 -> Z) seqs
    (yield : C -> T1 -> T2 -> C * bool) (c : C) :
  exists s2 s1,
    Merge2 (Some cmp) seqs = Ok s2 /\
    Merge (Some (pair_compare cmp)) seqs = Ok s1 /\
    run_map pack (s2 yield c) = s1 (pair_yield yield) c /\
    output2 (s2 yield c) = output (s1 (pair_yield yield) c).
Proof.
  assert (exists s2 s1,
    Merge2 (Some cmp) seqs = Ok s2 /\
    Merge (Some (pair_compare cmp)) seqs = Ok s1 /\
    run_map pack (s2 yield c) = s1 (pair_yield yield) c)
    as (s2 & s1 & HM2 & HM1 & Hrun).
  { unfold Merge2, Merge. rewrite (wrap_seqs2_pack seqs 0).
    destruct (wrap_seqs2 0 seqs) as [ws ok]. simpl.
    destruct ok; simpl; eexists _, _; split_and!; try reflexivity.
    unfold mergeSeq2, mergeSeq. symmetry.
    by apply (all_map pack index2 (wrapCompare2 cmp) index
                (wrapCompare (pair_compare cmp))). }
  exists s2, s1. split_and!; auto.
  unfold output, output2. rewrite <- Hrun. cbn [run_map run_events].
  rewrite yielded_map, <- list_fmap_compose. done.
Qed.

Lemma pair_yield_continues {C} (yield : C -> T1 -> T2 -> C * bool) :
  (forall c k v, (yield c k v).2 = true) ->
  forall c p, (pair_yield yield c p).2 = true.
Proof. intros Hy c p. apply Hy. Qed.

(** X15: for a comparator of keys and values that follows the three-way
    contract and sources each sorted for it, the sequence returned by
    [Merge2], consumed to the end, is drained; the pairs it yields are
    sorted, as many as the sources hold together, and a permutation of
    their pairs. *)
Theorem Merge2_sorted_total {C} (cmp : T1 -> T2 -> T1 -> T2 -> Z) seqs
    (yield : C -> T1 -> T2 -> C * bool) (c : C) :
  comparator_ok (pair_compare cmp) ->
  sources_sorted (pair_compare cmp) seqs ->
  (forall c k v, (yield c k v).2 = true) ->
  exists s, Merge2 (Some cmp) seqs = Ok s /\
    run_outcome (s yield c) = Drained /\
    Sorted (cle (pair_compare cmp)) (output2 (s yield c)) /\
    length (output2 (s yield c)) = total_length seqs /\
    output2 (s yield c) ≡ₚ elements seqs.
Proof.
  intros Hcmp Hsorted Hyield.
  destruct (Merge2_run_pack cmp seqs yield c)
    as (s2 & s1 & HM2 & HM1 & Hrun & Hout).
  destruct (Merge_emits (pair_compare cmp) seqs (pair_yield yield) c)
    as (s & HM & _ & Hdr & (rest & Hperm & Hrest) & Hss).
  rewrite HM1 in HM. injection HM as <-.
  specialize (Hdr (pair_yield_continues yield Hyield)).
  specialize (Hrest Hdr). subst rest. rewrite app_nil_r in Hperm.
  exists s2. rewrite Hout.
  assert (output (s1 (pair_yield yield) c) ≡ₚ elements seqs) as Hel.
  { unfold output. by rewrite <- Hperm, wrap_seqs_elements. }
  split_and!; auto.
  - by rewrite <- Hdr, <- Hrun.
  - apply StronglySorted_Sorted. unfold output.
    eapply StronglySorted_fmap; [|apply (Hss Hcmp Hsorted)].
    intros a b Hab.
    by apply (before_cle index (wrapCompare (pair_compare cmp))
                (wrapCompare_ok _ Hcmp)) in Hab.
  - by rewrite Hel, elements_length.
Qed.

(** X16: [Less] on the elements of [Merge2] compares by the comparator
    first and by ascending source index on a tie, and for sorted sources
    [Merge2] is stable: of two yielded pairs that compare equal, the one
    of the earlier source was yielded first. *)
Theorem Merge2_stable {C} (cmp : T1 -> T2 -> T1 -> T2 -> Z) seqs
    (yield : C -> T1 -> T2 -> C * bool) (c : C) :
  comparator_ok (pair_compare cmp) ->
  sources_sorted (pair_compare cmp) seqs ->
  (forall a b : wrappedSeq2Value T1 T2,
     less index2 (wrapCompare2 cmp) a b = true <->
     (cmp (sv2_v1 a) (sv2_v2 a) (sv2_v1 b) (sv2_v2 b) < 0)%Z \/
     (cmp (sv2_v1 a) (sv2_v2 a) (sv2_v1 b) (sv2_v2 b) = 0%Z /\
      (sv2_i a < sv2_i b)%Z)) /\
  exists s, Merge2 (Some cmp) seqs = Ok s /\
    forall p q a b,
      yielded (run_events (s yield c)) !! p = Some a ->
      yielded (run_events (s yield c)) !! q = Some b ->
      (sv2_i a < sv2_i b)%Z ->
      cmp (sv2_v1 a) (sv2_v2 a) (sv2_v1 b) (sv2_v2 b) = 0%Z ->
      p < q.
Proof.
  intros Hcmp Hsorted. split.
  { intros a b. unfold less, wrapCompare2, index2.
    repeat case_match; simpl in *; lia. }
  destruct (Merge2_run_pack cmp seqs yield c)
    as (s2 & s1 & HM2 & HM1 & Hrun & _).
  destruct (Merge_emits (pair_compare cmp) seqs (pair_yield yield) c)
    as (s & HM & _ & _ & _ & Hss).
  rewrite HM1 in HM. injection HM as <-.
  specialize (Hss Hcmp Hsorted). rewrite <- Hrun in Hss.
  cbn [run_map run_events] in Hss. rewrite yielded_map in Hss.
  exists s2. split; [done|]. intros p q a b Hp Hq Hij Hab.
  destruct (decide (p < q)) as [|Hge]; [done|]. exfalso.
  assert (p <> q) by (intros ->; assert (a = b) by congruence; subst; lia).
  assert ((pack <$> yielded (run_events (s2 yield c))) !! q = Some (pack b))
    as Hq' by (by rewrite list_lookup_fmap, Hq).
  assert ((pack <$> yielded (run_events (s2 yield c))) !! p = Some (pack a))
    as Hp' by (by rewrite list_lookup_fmap, Hp).
  pose proof (strongly_sorted_lookup _ _ q p _ _ Hss Hq' Hp' ltac:(lia)) as Hba.
  unfold before, less, wrapCompare, pair_compare, index, pack in Hba.
  simpl in Hba. rewrite Hab in Hba. simpl in Hba. lia.
Qed.

Lemma wrap_seqs2_tagged seqs : tagged index2 (wrap_seqs2 0 seqs).1.
Proof.
  intros i l x Hi Hx.
  pose proof (wrap_seqs_tagged seqs) as Htag.
  rewrite (wrap_seqs2_pack seqs 0) in Htag. simpl in Htag.
  apply (Htag i (pack <$> l) (pack x)).
  - by rewrite list_lookup_fmap, Hi.
  - by apply list_elem_of_fmap_2.
Qed.

Lemma Merge2_run {C} (cmp : T1 -> T2 -> T1 -> T2 -> Z) seqs
    (yield : C -> T1 -> T2 -> C * bool) c :
  ((wrap_seqs2 0 seqs).2 = false /\ Forall (fun s => s = None) seqs /\
   Merge2 (C:=C) (Some cmp) seqs = Ok emptySeq2) \/
  ((wrap_seqs2 0 seqs).2 = true /\ exists h fr' o,
     Merge2 (C:=C) (Some cmp) seqs =
       Ok (mergeSeq2 (wrapCompare2 cmp) (wrap_seqs2 0 seqs).1) /\
     heap.Init index2 (wrapCompare2 cmp)
       (items (all_start (wrap_seqs2 0 seqs).1 c)) = Ok h /\
     finishes index2 (wrapCompare2 cmp)
       (fun c v => yield c (sv2_v1 v) (sv2_v2 v))
       (set_items h (all_start (wrap_seqs2 0 seqs).1 c)) fr' o /\
     mergeSeq2 (wrapCompare2 cmp) (wrap_seqs2 0 seqs).1 yield c =
       Run o (trace fr' ++ (EvStop <$> deferred 0 (wrap_seqs2 0 seqs).1))
           (consumer fr')).
Proof.
  pose proof (wrap_seqs_nil seqs 0) as Hnil.
  rewrite (wrap_seqs2_pack seqs 0) in Hnil. simpl in Hnil.
  unfold Merge2. destruct (wrap_seqs2 0 seqs) as [ws ok] eqn:Hws.
  simpl in *. destruct ok; simpl.
  - right. split; [done|].
    destruct (all_finishes index2 (wrapCompare2 cmp)
                (fun c v => yield c (sv2_v1 v) (sv2_v2 v)) ws c)
      as (h & fr' & o & Hinit & Hfin & Hall).
    { pose proof (wrap_seqs2_tagged seqs) as Ht. by rewrite Hws in Ht. }
    exists h, fr', o. split_and!; auto.
  - left. split_and!; auto. by apply Hnil.
Qed.

(** X17: whatever the consumer of a sequence returned by [Merge2], what
    it received is the beginning of what a consumer that never stops
    receives; the run ends drained or stopped, never in a panic; and a
    run that ends stopped has nothing but the deferred [stop] calls after
    the [yield] that returned false. *)
Theorem Merge2_early_stop {C C'} (cmp : T1 -> T2 -> T1 -> T2 -> Z) seqs
    (yield : C -> T1 -> T2 -> C * bool) (c : C)
    (yield' : C' -> T1 -> T2 -> C' * bool) (c' : C') :
  (forall c k v, (yield' c k v).2 = true) ->
  exists (s : OutSeq2 T1 T2 C) (s' : OutSeq2 T1 T2 C'),
    Merge2 (Some cmp) seqs = Ok s /\ Merge2 (Some cmp) seqs = Ok s' /\
    output2 (s yield c) `prefix_of` output2 (s' yield' c') /\
    (run_outcome (s yield c) = Drained \/ run_outcome (s yield c) = Stopped) /\
    (run_outcome (s yield c) = Stopped ->
     exists tr v stops,
       run_events (s yield c) = tr ++ EvYield v :: (EvStop <$> stops)).
Proof.
  intros Hyield'.
  destruct (Merge2_run_pack cmp seqs yield c)
    as (s2 & s1 & HM2 & HM1 & Hrun & Hout).
  destruct (Merge2_run_pack cmp seqs yield' c')
    as (s2' & s1' & HM2' & HM1' & Hrun' & Hout').
  destruct (Merge_prefix (pair_compare cmp) seqs
              (pair_yield yield) c (pair_yield yield') c')
    as (t & t' & Ht & Ht' & Hpre); [by apply pair_yield_continues|].
  rewrite HM1 in Ht. injection Ht as <-.
  rewrite HM1' in Ht'. injection Ht' as <-.
  exists s2, s2'. split_and!; auto.
  - by rewrite Hout, Hout'.
  - destruct (Merge2_run cmp seqs yield c)
      as [(_ & _ & HM)|(_ & h & fr' & o & HM & _ & Hfin & Hr)];
      rewrite HM2 in HM; injection HM as ->; [by left|].
    rewrite Hr. cbn [run_outcome]. by eapply finishes_outcome.
  - destruct (Merge2_run cmp seqs yield c)
      as [(_ & _ & HM)|(_ & h & fr' & o & HM & _ & Hfin & Hr)];
      rewrite HM2 in HM; injection HM as ->; [done|].
    rewrite Hr. cbn [run_outcome run_events]. intros ->.
    destruct (finishes_stopped _ _ _ _ _ Hfin) as (tr & v & ->).
    exists tr, v, (deferred 0 (wrap_seqs2 0 seqs).1).
    by rewrite <- (assoc app).
Qed.

(** X18: with sources that are all nil, [Merge2] returns [emptySeq2],
    which does nothing; and whenever no source holds a pair, the
    returned sequence ends drained without calling [yield], leaves the
    consumer's state as it was, and has pulled every source that is not
    nil exactly once. *)
Theorem Merge2_of_empty_sources {C} (cmp : T1 -> T2 -> T1 -> T2 -> Z) seqs
    (yield : C -> T1 -> T2 -> C * bool) (c : C) :
  (Forall (fun s => s = None) seqs ->
   Merge2 (C:=C) (Some cmp) seqs = Ok emptySeq2) /\
  emptySeq2 yield c = Run (T:=wrappedSeq2Value T1 T2) Drained [] c /\
  (elements seqs = [] ->
   exists s, Merge2 (Some cmp) seqs = Ok s /\
     run_outcome (s yield c) = Drained /\
     output2 (s yield c) = [] /\
     run_consumer (s yield c) = c /\
     forall i l, seqs !! i = Some (Some l) ->
       l = [] /\ pulls_of i (run_events (s yield c)) = [None]).
Proof.
  split_and!.
  - intros Hnil.
    destruct (Merge2_run cmp seqs yield c)
      as [(_ & _ & HM)|(Hok & _)]; [done|].
    pose proof (wrap_seqs_nil seqs 0) as Hn.
    rewrite (wrap_seqs2_pack seqs 0) in Hn. simpl in Hn.
    apply Hn in Hnil. congruence.
  - done.
  - intros Hnone.
    destruct (Merge2_run_pack cmp seqs yield c)
      as (s2 & s1 & HM2 & HM1 & Hrun & Hout).
    destruct (Merge_nothing (pair_compare cmp) seqs (pair_yield yield) c Hnone)
      as (s & HM & Hd & Hy & Hc & Hp).
    rewrite HM1 in HM. injection HM as <-.
    exists s2. rewrite Hout. rewrite <- Hrun in Hd, Hc, Hp.
    cbn [run_map run_outcome run_consumer run_events] in Hd, Hc, Hp.
    split_and!; auto.
    + unfold output. by rewrite Hy.
    + intros i l Hl. destruct (Hp i l Hl) as [-> Hpi]. split; [done|].
      rewrite pulls_of_map in Hpi.
      destruct (pulls_of i (run_events (s2 yield c))) as [|[w|] [|r tl]];
        by simplify_eq/=.
Qed.

(** X19: [Merge2] of a single sequence, consumed to the end, yields the
    pairs of that sequence in their order, whatever the comparator and
    whether or not the sequence is sorted. *)
Theorem Merge2_single {C} (cmp : T1 -> T2 -> T1 -> T2 -> Z)
    (l : list (T1 * T2)) (yield : C -> T1 -> T2 -> C * bool) (c : C) :
  (forall c k v, (yield c k v).2 = true) ->
  exists s, Merge2 (Some cmp) [Some l] = Ok s /\
    run_outcome (s yield c) = Drained /\
    output2 (s yield c) = l.
Proof.
  intros Hyield.
  destruct (Merge2_run_pack cmp [Some l] yield c)
    as (s2 & s1 & HM2 & HM1 & Hrun & Hout).
  destruct (Merge_one (pair_compare cmp) l (pair_yield yield) c)
    as (s & HM & Hd & Hl); [by apply pair_yield_continues|].
  rewrite HM1 in HM. injection HM as <-.
  exists s2. rewrite Hout. split_and!; auto.
  by rewrite <- Hd, <- Hrun.
Qed.
End Merge2Facts.

Lemma Merge2_sorted_total_witness :
  let seqs := [Some [(1, 10); (5, 50)]; Some [(3, 30)]]%Z in
  sources_sorted (pair_compare key_Compare) seqs /\
  exists s, Merge2 (Some key_Compare) seqs = Ok s /\
    run_outcome (s collect2 []) = Drained /\
    Sorted (cle (pair_compare key_Compare)) (output2 (s collect2 [])) /\
    length (output2 (s collect2 [])) = 3 /\
    output2 (s collect2 []) ≡ₚ [(1, 10); (5, 50); (3, 30)]%Z.
Proof.
  intros seqs.
  assert (sources_sorted (pair_compare key_Compare) seqs) as Hs.
  { intros i l Hl. destruct i as [|[|i]]; simplify_eq/=;
      repeat constructor; by vm_compute. }
  split; [exact Hs|].
  exact (Merge2_sorted_total key_Compare seqs collect2 []
           key_Compare_ok Hs (fun _ _ _ => eq_refl)).
Defined.

Lemma Merge2_stable_witness :
  let seqs := [Some [(1, 10); (3, 30)]; Some [(1, 11); (3, 31)]]%Z in
  exists s, Merge2 (Some key_Compare) seqs = Ok s /\
    output2 (s collect2 []) = [(1, 10); (1, 11); (3, 30); (3, 31)]%Z /\
    forall p q a b,
      yielded (run_events (s collect2 [])) !! p = Some a ->
      yielded (run_events (s collect2 [])) !! q = Some b ->
      (sv2_i a < sv2_i b)%Z ->
      key_Compare (sv2_v1 a) (sv2_v2 a) (sv2_v1 b) (sv2_v2 b) = 0%Z ->
      p < q.
Proof.
  intros seqs.
  destruct (Merge2_stable key_Compare seqs collect2 [])
    as (_ & s & HM & Hstable).
  - exact key_Compare_ok.
  - intros i l Hl. destruct i as [|[|i]]; simplify_eq/=;
      repeat constructor; by vm_compute.
  - exists s. injection HM as <-. split; [reflexivity|]. split; [reflexivity|].
    exact Hstable.
Defined.

Lemma Merge2_early_stop_witness :
  let seqs := [Some [(1, 10); (5, 50)]; Some [(3, 30)]]%Z in
  let brk := fun (c : list (Z * Z)) k v => (c ++ [(k, v)], length c <? 1) in
  exists s s', Merge2 (Some key_Compare) seqs = Ok s /\
    Merge2 (Some key_Compare) seqs = Ok s' /\
    output2 (s brk []) = [(1, 10); (3, 30)]%Z /\
    output2 (s' collect2 []) = [(1, 10); (3, 30); (5, 50)]%Z /\
    output2 (s brk []) `prefix_of` output2 (s' collect2 []) /\
    run_outcome (s brk []) = Stopped.
Proof.
  intros seqs brk.
  destruct (Merge2_early_stop key_Compare seqs brk [] collect2 []
              (fun _ _ _ => eq_refl))
    as (s & s' & HM & HM' & Hpre & _ & _).
  exists s, s'. split; [exact HM|]. split; [exact HM'|].
  injection HM as <-. injection HM' as <-.
  split; [reflexivity|]. split; [reflexivity|]. split; [exact Hpre|reflexivity].
Defined.

Lemma Merge2_of_empty_sources_witness :
  exists s, Merge2 (Some (key_Compare (V:=Z))) [Some []; None] = Ok s /\
    run_outcome (s collect2 []) = Drained /\
    output2 (s collect2 []) = [] /\
    pulls_of 0 (run_events (s collect2 [])) = [None].
Proof.
  destruct (proj2 (proj2 (Merge2_of_empty_sources (key_Compare (V:=Z))
                            [Some []; None] collect2 [])) eq_refl)
    as (s & HM & Hd & Ho & _ & Hp).
  exists s. split_and!; auto. exact (proj2 (Hp 0 [] eq_refl)).
Defined.

Lemma Merge2_single_witness :
  exists s, Merge2 (Some (fun _ _ _ _ => 1%Z)) [Some [(3, 1); (1, 2); (2, 3)]%Z] = Ok s /\
    run_outcome (s collect2 []) = Drained /\
    output2 (s collect2 []) = [(3, 1); (1, 2); (2, 3)]%Z.
Proof.
  exact (Merge2_single (fun _ _ _ _ => 1%Z) [(3, 1); (1, 2); (2, 3)]%Z
           collect2 [] (fun _ _ _ => eq_refl)).
Defined.

(** ** The merged list

    [Merge] against the two-way stable merge. *)

Lemma stable_merge_nil_l {T} (cmp : T -> T -> Z) l : stable_merge cmp [] l = l.
Proof. by destruct l. Qed.

Lemma stable_merge_nil_r {T} (cmp : T -> T -> Z) l : stable_merge cmp l [] = l.
Proof. by destruct l. Qed.

Lemma stable_merge_cons {T} (cmp : T -> T -> Z) a l1 b l2 :
  stable_merge cmp (a :: l1) (b :: l2) =
    if (cmp a b <=? 0)%Z then a :: stable_merge cmp l1 (b :: l2)
    else b :: stable_merge cmp (a :: l1) l2.
Proof. reflexivity. Qed.

Lemma stable_merge_perm {T} (cmp : T -> T -> Z) l1 : forall l2,
  stable_merge cmp l1 l2 ≡ₚ l1 ++ l2.
Proof.
  induction l1 as [|a l1 IH1]; intros l2.
  { by rewrite stable_merge_nil_l. }
  induction l2 as [|b l2 IH2].
  { by rewrite stable_merge_nil_r, app_nil_r. }
  rewrite stable_merge_cons. destruct (cmp a b <=? 0)%Z.
  - by rewrite IH1.
  - rewrite IH2. by rewrite <- Permutation_middle.
Qed.

Lemma stable_merge_fmap {A B} (f : A -> B) (cmp : B -> B -> Z) l1 : forall l2,
  f <$> stable_merge (fun x y => cmp (f x) (f y)) l1 l2 =
    stable_merge cmp (f <$> l1) (f <$> l2).
Proof.
  induction l1 as [|a l1 IH1]; intros l2.
  { by rewrite fmap_nil, !stable_merge_nil_l. }
  induction l2 as [|b l2 IH2].
  { by rewrite fmap_nil, !stable_merge_nil_r. }
  rewrite !fmap_cons, !stable_merge_cons.
  destruct (cmp (f a) (f b) <=? 0)%Z; rewrite fmap_cons; f_equal.
  - apply IH1.
  - apply IH2.
Qed.

Lemma stable_merge_filter_l {T} (cmp : T -> T -> Z) (P : T -> Prop)
    `{forall x, Decision (P x)} l1 : forall l2,
  (forall x, x ∈ l1 -> P x) -> (forall x, x ∈ l2 -> ~ P x) ->
  filter P (stable_merge cmp l1 l2) = l1.
Proof.
  induction l1 as [|a l1 IH1]; intros l2 H1 H2.
  { rewrite stable_merge_nil_l. by apply filter_none. }
  induction l2 as [|b l2 IH2].
  { rewrite stable_merge_nil_r. by apply filter_all. }
  rewrite stable_merge_cons. destruct (cmp a b <=? 0)%Z.
  - rewrite filter_cons, decide_True by (apply H1; left).
    f_equal. apply IH1; [|done]. intros x Hx. apply H1. by right.
  - rewrite filter_cons, decide_False by (apply H2; left).
    apply IH2. intros x Hx. apply H2. by right.
Qed.

Lemma stable_merge_filter_r {T} (cmp : T -> T -> Z) (P : T -> Prop)
    `{forall x, Decision (P x)} l1 : forall l2,
  (forall x, x ∈ l1 -> ~ P x) ->
  filter P (stable_merge cmp l1 l2) = filter P l2.
Proof.
  induction l1 as [|a l1 IH1]; intros l2 H1.
  { by rewrite stable_merge_nil_l. }
  induction l2 as [|b l2 IH2].
  { rewrite stable_merge_nil_r. by apply filter_none. }
  rewrite stable_merge_cons. destruct (cmp a b <=? 0)%Z.
  - rewrite filter_cons, decide_False by (apply H1; left).
    apply IH1. intros x Hx. apply H1. by right.
  - rewrite !filter_cons. case_decide; [f_equal|]; apply IH2.
Qed.

Section Reference.
Context {T : Type} (index : T -> Z) (cmp : T -> T -> Z).
Hypothesis Hcmp : comparator_ok cmp.

Lemma cle_lt_before a b :
  cle cmp a b -> (index a < index b)%Z -> before index cmp a b.
Proof.
  unfold cle, before, less. intros Hab Hi.
  pose proof (cmp_antisym cmp Hcmp a b). repeat case_match; lia.
Qed.

Lemma gt_before a b : (0 < cmp a b)%Z -> before index cmp b a.
Proof. unfold before, less. intros Hab. repeat case_match; lia. Qed.

Lemma before_both a b :
  before index cmp a b -> before index cmp b a ->
  cmp a b = 0%Z /\ index a = index b.
Proof.
  unfold before, less. intros Hab Hba.
  pose proof (cmp_antisym cmp Hcmp a b). repeat case_match; lia.
Qed.

Lemma stable_merge_sorted l1 : forall l2,
  StronglySorted (before index cmp) l1 ->
  StronglySorted (before index cmp) l2 ->
  (forall a b, a ∈ l1 -> b ∈ l2 -> (index a < index b)%Z) ->
  StronglySorted (before index cmp) (stable_merge cmp l1 l2).
Proof.
  induction l1 as [|a l1 IH1]; intros l2 H1 H2 Hlt.
  { by rewrite stable_merge_nil_l. }
  induction l2 as [|b l2 IH2].
  { by rewrite stable_merge_nil_r. }
  apply StronglySorted_inv in H1 as [H1 Ha].
  apply StronglySorted_inv in H2 as [H2 Hb].
  rewrite Forall_forall in Ha, Hb.
  rewrite stable_merge_cons. destruct (cmp a b <=? 0)%Z eqn:Hab.
  - apply Z.leb_le in Hab. constructor.
    + apply IH1; [done|by constructor; [|apply Forall_forall]|].
      intros x y Hx Hy. apply Hlt; [by right|done].
    + apply Forall_forall. intros x Hx. rewrite stable_merge_perm in Hx.
      apply elem_of_app in Hx as [Hx|Hx]; [by apply Ha|].
      assert (cle cmp a x) as Hax.
      { apply elem_of_cons in Hx as [->|Hx]; [done|].
        apply (cmp_trans cmp Hcmp a b x); [done|].
        by apply (before_cle index cmp Hcmp), Hb. }
      apply cle_lt_before; [done|]. apply Hlt; [left|done].
  - apply Z.leb_gt in Hab.
    assert (forall x, x ∈ a :: l1 -> (0 < cmp x b)%Z) as Hgt.
    { intros x Hx. apply elem_of_cons in Hx as [->|Hx]; [lia|].
      destruct (decide (cmp x b <= 0)%Z) as [Hxb|]; [|lia].
      assert (cle cmp a x) by (by apply (before_cle index cmp Hcmp), Ha).
      pose proof (cmp_trans cmp Hcmp a x b). unfold cle in *. lia. }
    constructor.
    + apply IH2; [done|].
      intros x y Hx Hy. apply Hlt; [done|by right].
    + apply Forall_forall. intros x Hx. rewrite stable_merge_perm in Hx.
      apply elem_of_app in Hx as [Hx|Hx]; [|by apply Hb].
      apply gt_before. by apply Hgt.
Qed.

(** Two lists in [Less] order that agree source by source are equal. *)
Lemma sorted_by_source_unique (l1 : list T) : forall l2,
  StronglySorted (before index cmp) l1 ->
  StronglySorted (before index cmp) l2 ->
  (forall x, x ∈ l1 -> exists i, index x = Z.of_nat i) ->
  (forall x, x ∈ l2 -> exists i, index x = Z.of_nat i) ->
  (forall i, with_index index i l1 = with_index index i l2) ->
  l1 = l2.
Proof.
  induction l1 as [|a l1 IH]; intros l2 H1 H2 Hn1 Hn2 Heq.
  - destruct l2 as [|b l2]; [done|exfalso].
    destruct (Hn2 b) as [i Hi]; [left|].
    specialize (Heq i). unfold with_index in Heq.
    rewrite filter_cons, decide_True in Heq by done. done.
  - destruct (Hn1 a) as [i Hi]; [left|].
    apply StronglySorted_inv in H1 as [H1 Ha]. rewrite Forall_forall in Ha.
    pose proof (Heq i) as Hi1. unfold with_index in Hi1.
    rewrite filter_cons, decide_True in Hi1 by done.
    destruct l2 as [|b l2]; [done|].
    apply StronglySorted_inv in H2 as [H2 Hb]. rewrite Forall_forall in Hb.
    assert (a = b) as <-.
    { destruct (decide (index b = Z.of_nat i)) as [Hbi|Hbi].
      - rewrite filter_cons, decide_True in Hi1 by done. congruence.
      - exfalso. rewrite filter_cons, decide_False in Hi1 by done.
        assert (a ∈ l2) as Hal2.
        { assert (a ∈ filter (fun x => index x = Z.of_nat i) l2) as Hin
            by (rewrite <- Hi1; left).
          by apply list_elem_of_filter in Hin as [_ ?]. }
        destruct (Hn2 b) as [j Hj]; [left|].
        pose proof (Heq j) as Hj1. unfold with_index in Hj1.
        rewrite (filter_cons _ b), decide_True in Hj1 by done.
        rewrite filter_cons, decide_False in Hj1 by congruence.
        assert (b ∈ l1) as Hbl1.
        { assert (b ∈ filter (fun x => index x = Z.of_nat j) l1) as Hin
            by (rewrite Hj1; left).
          by apply list_elem_of_filter in Hin as [_ ?]. }
        destruct (before_both a b (Ha b Hbl1) (Hb a Hal2)) as [_ ?].
        congruence. }
    f_equal. apply IH; auto.
    + intros x Hx. apply Hn1. by right.
    + intros x Hx. apply Hn2. by right.
    + intros j. specialize (Heq j). unfold with_index in *.
      rewrite !filter_cons in Heq. case_decide; congruence.
Qed.
End Reference.

Lemma range_over_cons {T C} v (l : list T) (yield : C -> T -> C * bool) c :
  range_over (v :: l) yield c =
    if (yield c v).2 then range_over l yield (yield c v).1
    else ((yield c v).1, false).
Proof. simpl. by destruct (yield c v) as [c' []]. Qed.

Lemma consumed_accepted {T C} (l : list T) (yield : C -> T -> C * bool) : forall c,
  (forall k, k < length l -> (range_over (take k l) yield c).2 = true) ->
  consumed l yield c = l.
Proof.
  induction l as [|v l IH]; intros c Hacc; [done|].
  simpl. f_equal. destruct (yield c v).2 eqn:Hy.
  - apply IH. intros k Hk. specialize (Hacc (S k) ltac:(simpl; lia)).
    rewrite firstn_cons, range_over_cons, Hy in Hacc. done.
  - destruct l as [|v' l]; [done|].
    specialize (Hacc 1 ltac:(simpl; lia)).
    rewrite firstn_cons, take_0, range_over_cons, Hy in Hacc. done.
Qed.

Lemma consumed_app {T C} (l1 l2 : list T) (yield : C -> T -> C * bool) : forall c,
  (range_over l1 yield c).2 = false ->
  consumed (l1 ++ l2) yield c = consumed l1 yield c.
Proof.
  induction l1 as [|v l1 IH]; intros c Hr; [done|].
  rewrite range_over_cons in Hr. simpl. f_equal.
  destruct (yield c v).2; [|done]. by apply IH.
Qed.

Lemma range_over_all {T C} (l : list T) (yield : C -> T -> C * bool) c :
  (range_over l yield c).2 = true ->
  forall k, (range_over (take k l) yield c).2 = true.
Proof.
  intros Hr k. rewrite <- (take_drop k l), range_over_app in Hr.
  by destruct (range_over (take k l) yield c) as [c1 []].
Qed.

Lemma merge_all_perm {T} (cmp : T -> T -> Z) (seqs : list (option (list T))) :
  merge_all cmp seqs ≡ₚ elements seqs.
Proof.
  unfold merge_all, elements, unpulled.
  induction (omap id seqs) as [|l ls IH]; simpl; [done|].
  by rewrite stable_merge_perm, IH.
Qed.

Lemma merge_all_live {T} (cmp : T -> T -> Z) (seqs : list (option (list T))) :
  merge_all cmp seqs =
    foldr (stable_merge cmp) [] (filter (fun l => l <> []) (omap id seqs)).
Proof.
  unfold merge_all.
  induction (omap id seqs) as [|l ls IH]; simpl; [done|].
  rewrite filter_cons. destruct l as [|v l].
  - rewrite decide_False by (by intros []). by rewrite stable_merge_nil_l.
  - rewrite decide_True by done. simpl foldr. by rewrite IH.
Qed.

Lemma merge_all_app {T} (cmp : T -> T -> Z) (xs ys : list (option (list T))) :
  merge_all cmp (xs ++ ys) = merge_all cmp (xs ++ [Some (merge_all cmp ys)]).
Proof.
  unfold merge_all. rewrite !omap_app, !foldr_app. simpl.
  by rewrite stable_merge_nil_r.
Qed.

Section ReferenceMerge.
Context {T : Type} (cmp : T -> T -> Z).
Implicit Types seqs : list (option (list T)).

Lemma sources_sorted_cons seq seqs :
  sources_sorted cmp (seq :: seqs) ->
  (forall l, seq = Some l -> Sorted (cle cmp) l) /\ sources_sorted cmp seqs.
Proof.
  intros Hs. split.
  - intros l ->. by apply (Hs 0).
  - intros i l Hi. by apply (Hs (S i)).
Qed.

Lemma merge_all_wrap seqs : forall k,
  sv_v <$> merge_all (wrapCompare cmp) (wrap_seqs k seqs).1 = merge_all cmp seqs.
Proof.
  induction seqs as [|seq seqs IH]; intros k; simpl; [done|].
  specialize (IH (S k)). destruct (wrap_seqs (S k) seqs) as [ws ok].
  simpl in IH. destruct seq as [l|]; simpl; [|done].
  unfold merge_all in *. simpl.
  etrans; [apply (stable_merge_fmap sv_v cmp)|].
  rewrite wrapSeq_values. f_equal. exact IH.
Qed.

Lemma merge_all_wrap_index seqs k x :
  x ∈ merge_all (wrapCompare cmp) (wrap_seqs k seqs).1 ->
  exists i, k <= i /\ sv_i x = Z.of_nat i.
Proof.
  rewrite merge_all_perm. intros Hx.
  apply unpulled_elem in Hx as (j & l & Hj & Hx).
  rewrite wrap_seqs_lookup in Hj.
  destruct (seqs !! j) as [[l0|]|]; simplify_eq/=.
  exists (k + j). split; [lia|].
  unfold wrapSeq in Hx. by apply list_elem_of_fmap in Hx as (v & -> & _).
Qed.

Lemma merge_all_wrap_sorted seqs : forall k,
  comparator_ok cmp -> sources_sorted cmp seqs ->
  StronglySorted (before index (wrapCompare cmp))
    (merge_all (wrapCompare cmp) (wrap_seqs k seqs).1).
Proof.
  induction seqs as [|seq seqs IH]; intros k Hcmp Hs; simpl; [constructor|].
  apply sources_sorted_cons in Hs as [Hl Hs].
  specialize (IH (S k) Hcmp Hs).
  pose proof (merge_all_wrap_index seqs (S k)) as Hidx.
  destruct (wrap_seqs (S k) seqs) as [ws ok]. simpl in IH, Hidx.
  destruct seq as [l|]; simpl; [|done].
  change (merge_all (wrapCompare cmp) (Some (wrapSeq (Z.of_nat k) l) :: ws))
    with (stable_merge (wrapCompare cmp) (wrapSeq (Z.of_nat k) l)
            (merge_all (wrapCompare cmp) ws)).
  pose proof (wrapCompare_ok cmp Hcmp) as Hcmp'.
  apply (stable_merge_sorted index (wrapCompare cmp) Hcmp'); [|done|].
  - unfold wrapSeq.
    apply (StronglySorted_fmap _ (cle cmp)).
    + intros a b Hab. by apply (cle_before index (wrapCompare cmp) Hcmp').
    + apply Sorted_StronglySorted; [|by apply Hl].
      intros x y z. apply (cmp_trans _ Hcmp).
  - intros a b Ha Hb. destruct (Hidx b Hb) as (i & Hi & Hbi).
    unfold wrapSeq in Ha. apply list_elem_of_fmap in Ha as (v & -> & _).
    unfold index. simpl. lia.
Qed.

Lemma merge_all_wrap_source seqs : forall k i,
  with_index index i (merge_all (wrapCompare cmp) (wrap_seqs k seqs).1) =
    match (if decide (k <= i) then seqs !! (i - k) else None) with
    | Some (Some l) => wrapSeq (Z.of_nat i) l
    | _ => []
    end.
Proof.
  induction seqs as [|seq seqs IH]; intros k i; simpl.
  { by case_decide. }
  specialize (IH (S k) i).
  pose proof (merge_all_wrap_index seqs (S k)) as Hidx.
  destruct (wrap_seqs (S k) seqs) as [ws ok]. simpl in IH, Hidx.
  assert ((if decide (S k <= i) then seqs !! (i - S k) else None) =
          (if decide (k = i) then None
           else if decide (k <= i) then (seq :: seqs) !! (i - k) else None))
    as Hshift.
  { repeat case_decide; try lia; try done.
    replace (i - k) with (S (i - S k)) by lia. done. }
  rewrite Hshift in IH. clear Hshift.
  destruct seq as [l|]; simpl.
  - change (merge_all (wrapCompare cmp) (Some (wrapSeq (Z.of_nat k) l) :: ws))
      with (stable_merge (wrapCompare cmp) (wrapSeq (Z.of_nat k) l)
              (merge_all (wrapCompare cmp) ws)).
    unfold with_index in *.
    destruct (decide (k = i)) as [->|Hne].
    + rewrite decide_True, Nat.sub_diag by lia. simpl.
      apply stable_merge_filter_l.
      * intros x Hx. unfold wrapSeq in Hx.
        by apply list_elem_of_fmap in Hx as (v & -> & _).
      * intros x Hx. destruct (Hidx x Hx) as (j & Hj & Hxj).
        unfold index. lia.
    + rewrite stable_merge_filter_r; [exact IH|].
      intros x Hx. unfold wrapSeq in Hx.
      apply list_elem_of_fmap in Hx as (v & -> & _). unfold index. simpl. lia.
  - change (merge_all (wrapCompare cmp) (None :: ws))
      with (merge_all (wrapCompare cmp) ws).
    rewrite IH. destruct (decide (k = i)) as [->|Hne]; [|done].
    by rewrite decide_True, Nat.sub_diag by lia.
Qed.

(** Consumed to the end, the merge yields the sources merged one
    after the other. *)
Lemma Merge_drained_output {C} seqs (yield : C -> T -> C * bool) c :
  comparator_ok cmp -> sources_sorted cmp seqs ->
  exists s, Merge (Some cmp) seqs = Ok s /\
    (run_outcome (s yield c) = Drained ->
     output (s yield c) = merge_all cmp seqs).
Proof.
  intros Hcmp Hs.
  destruct (Merge_emits cmp seqs yield c)
    as (s & HM & _ & _ & (rest & Hperm & _) & Hss).
  destruct (Merge_history cmp seqs yield c) as (s' & HM' & Hhist).
  rewrite HM in HM'. injection HM' as <-.
  exists s. split; [done|]. intros Hd.
  unfold output. rewrite <- (merge_all_wrap seqs 0). f_equal.
  apply (sorted_by_source_unique index (wrapCompare cmp) (wrapCompare_ok _ Hcmp)).
  - by apply Hss.
  - by apply merge_all_wrap_sorted.
  - intros x Hx.
    assert (x ∈ elements (wrap_seqs 0 seqs).1) as Hin.
    { rewrite Hperm. apply elem_of_app. by left. }
    apply unpulled_elem in Hin as (i & l & Hi & Hin).
    exists i. by eapply wrap_seqs_tagged.
  - intros x Hx. destruct (merge_all_wrap_index seqs 0 x Hx) as (i & _ & Hi).
    by exists i.
  - intros i. rewrite merge_all_wrap_source, <- emitted_from_yielded.
    rewrite decide_True, Nat.sub_0_r by lia.
    specialize (Hhist i). rewrite wrap_seqs_lookup in Hhist. simpl in Hhist.
    destruct (seqs !! i) as [[l|]|]; simpl in Hhist; [|by destruct Hhist..].
    destruct Hhist as (w & rest' & nones & Hl & _ & _ & _ & Hdr).
    destruct (Hdr Hd) as (-> & -> & _). by rewrite !app_nil_r in Hl.
Qed.

(** For any consumer the run is the one of a loop over the merged
    list. *)
Lemma Merge_reference {C} seqs (yield : C -> T -> C * bool) c :
  comparator_ok cmp -> sources_sorted cmp seqs ->
  exists s, Merge (Some cmp) seqs = Ok s /\
    output (s yield c) = consumed (merge_all cmp seqs) yield c /\
    run_consumer (s yield c) = (range_over (merge_all cmp seqs) yield c).1 /\
    run_outcome (s yield c) =
      (if (range_over (merge_all cmp seqs) yield c).2 then Drained else Stopped).
Proof.
  intros Hcmp Hs.
  destruct (Merge_prefix cmp seqs yield c collect [])
    as (s & sl & HM & HMl & [rest Hpre]); [done|].
  destruct (Merge_drained_output seqs collect [] Hcmp Hs) as (sl' & HMl' & Hfull).
  rewrite HMl in HMl'. injection HMl' as <-.
  destruct (Merge_emits cmp seqs collect []) as (sl' & HMl' & _ & Hdr & _).
  rewrite HMl in HMl'. injection HMl' as <-.
  rewrite (Hfull (Hdr (fun _ _ => eq_refl))) in Hpre.
  destruct (Merge_drained_output seqs yield c Hcmp Hs) as (s' & HM' & Hdrained).
  rewrite HM in HM'. injection HM' as <-.
  destruct (Merge_consumer cmp seqs yield c) as (s' & HM' & Hc & Hacc).
  rewrite HM in HM'. injection HM' as <-.
  destruct (Merge_emits cmp seqs yield c) as (s' & HM' & Ho & _).
  rewrite HM in HM'. injection HM' as <-.
  exists s. split; [done|].
  destruct Ho as [Hd|Hst].
  - rewrite Hd in Hc |- *. rewrite <- (Hdrained Hd), Hc. simpl.
    split_and!; auto. symmetry. by apply consumed_accepted.
  - rewrite Hst in Hc |- *. rewrite Hpre, range_over_app, Hc. simpl.
    split_and!; auto.
    rewrite consumed_app by (by rewrite Hc). symmetry.
    by apply consumed_accepted.
Qed.
End ReferenceMerge.

Section ReferenceResults.
Context {T : Type}.
Implicit Types seqs : list (option (list T)).

Lemma merge_all_sorted (cmp : T -> T -> Z) seqs :
  comparator_ok cmp -> sources_sorted cmp seqs ->
  StronglySorted (cle cmp) (merge_all cmp seqs).
Proof.
  intros Hcmp Hs. rewrite <- (merge_all_wrap cmp seqs 0).
  eapply StronglySorted_fmap; [|by apply (merge_all_wrap_sorted cmp seqs 0)].
  intros a b Hab.
  by apply (before_cle index (wrapCompare cmp) (wrapCompare_ok _ Hcmp)) in Hab.
Qed.

Lemma sources_sorted_app (cmp : T -> T -> Z) xs ys :
  sources_sorted cmp (xs ++ ys) <->
  sources_sorted cmp xs /\ sources_sorted cmp ys.
Proof.
  split.
  - intros Hs. split; intros i l Hi.
    + apply (Hs i). by apply lookup_app_l_Some.
    + apply (Hs (length xs + i)). by rewrite lookup_app_r, Nat.add_comm, Nat.add_sub by lia.
  - intros [Hx Hy] i l Hi. apply lookup_app_Some in Hi as [Hi|[_ Hi]].
    + by apply (Hx i).
    + by apply (Hy (i - length xs)).
Qed.

(** X20: for a comparator that follows the three-way contract and sorted
    sources, a sequence returned by [Merge] behaves, for every consumer,
    as a loop over one list: the sources that are not nil merged by the
    two-way stable merge, from the last source to the first.  The
    consumer receives that list up to the element at which it stops, its
    final state is the one the loop over that list leaves, and the run
    ends drained or stopped as that loop runs to the end or breaks. *)
Theorem Merge_is_stable_merge {C} (cmp : T -> T -> Z) seqs
    (yield : C -> T -> C * bool) (c : C) :
  comparator_ok cmp -> sources_sorted cmp seqs ->
  exists s, Merge (Some cmp) seqs = Ok s /\
    output (s yield c) = consumed (merge_all cmp seqs) yield c /\
    run_consumer (s yield c) = (range_over (merge_all cmp seqs) yield c).1 /\
    run_outcome (s yield c) =
      (if (range_over (merge_all cmp seqs) yield c).2 then Drained else Stopped) /\
    (run_outcome (s yield c) = Drained ->
     output (s yield c) = merge_all cmp seqs) /\
    merge_all cmp seqs ≡ₚ elements seqs.
Proof.
  intros Hcmp Hs.
  destruct (Merge_reference cmp seqs yield c Hcmp Hs) as (s & HM & Ho & Hc & Hr).
  destruct (Merge_drained_output cmp seqs yield c Hcmp Hs) as (s' & HM' & Hd).
  rewrite HM in HM'. injection HM' as <-.
  exists s. split_and!; auto. apply merge_all_perm.
Qed.

(** X21: sources that are nil or empty do not change the result: two
    lists of sorted sources that hold the same non-empty sequences in the
    same order give, for every consumer, the same output, the same final
    consumer state and the same outcome. *)
Theorem Merge_ignores_nil_and_empty {C} (cmp : T -> T -> Z) seqs seqs'
    (yield : C -> T -> C * bool) (c : C) :
  comparator_ok cmp -> sources_sorted cmp seqs -> sources_sorted cmp seqs' ->
  filter (fun l => l <> []) (omap id seqs) =
    filter (fun l => l <> []) (omap id seqs') ->
  exists s s', Merge (Some cmp) seqs = Ok s /\ Merge (Some cmp) seqs' = Ok s' /\
    output (s yield c) = output (s' yield c) /\
    run_consumer (s yield c) = run_consumer (s' yield c) /\
    run_outcome (s yield c) = run_outcome (s' yield c).
Proof.
  intros Hcmp Hs Hs' Hlive.
  destruct (Merge_reference cmp seqs yield c Hcmp Hs) as (s & HM & Ho & Hc & Hr).
  destruct (Merge_reference cmp seqs' yield c Hcmp Hs')
    as (s' & HM' & Ho' & Hc' & Hr').
  assert (merge_all cmp seqs = merge_all cmp seqs') as Heq.
  { by rewrite (merge_all_live cmp seqs), (merge_all_live cmp seqs'), Hlive. }
  exists s, s'. rewrite Ho, Ho', Hc, Hc', Hr, Hr', Heq. done.
Qed.

(** X22: merging can be done in stages: replacing the last sources [ys]
    by the single sequence of what their own merge yields gives, for
    every consumer, the same output, final consumer state and outcome as
    merging all sources at once. *)
Theorem Merge_in_stages {C} (cmp : T -> T -> Z) xs ys
    (yield : C -> T -> C * bool) (c : C) :
  comparator_ok cmp -> sources_sorted cmp (xs ++ ys) ->
  exists (sy : OutSeq T (list T)) (s1 s2 : OutSeq T C),
    Merge (Some cmp) ys = Ok sy /\
    Merge (Some cmp) (xs ++ [Some (output (sy collect []))]) = Ok s1 /\
    Merge (Some cmp) (xs ++ ys) = Ok s2 /\
    output (s1 yield c) = output (s2 yield c) /\
    run_consumer (s1 yield c) = run_consumer (s2 yield c) /\
    run_outcome (s1 yield c) = run_outcome (s2 yield c).
Proof.
  intros Hcmp Hs. pose proof Hs as Hs0.
  apply sources_sorted_app in Hs0 as [Hx Hy].
  destruct (Merge_drained_output cmp ys collect [] Hcmp Hy) as (sy & HMy & Hfull).
  destruct (Merge_emits cmp ys collect []) as (sy' & HMy' & _ & Hdr & _).
  rewrite HMy in HMy'. injection HMy' as <-.
  specialize (Hfull (Hdr (fun _ _ => eq_refl))).
  assert (sources_sorted cmp (xs ++ [Some (merge_all cmp ys)])) as Hs1.
  { apply sources_sorted_app. split; [done|].
    intros i l Hi. destruct i as [|i]; [|done]. simplify_eq/=.
    apply StronglySorted_Sorted. by apply merge_all_sorted. }
  destruct (Merge_reference cmp (xs ++ [Some (merge_all cmp ys)]) yield c Hcmp Hs1)
    as (s1 & HM1 & Ho1 & Hc1 & Hr1).
  destruct (Merge_reference cmp (xs ++ ys) yield c Hcmp Hs)
    as (s2 & HM2 & Ho2 & Hc2 & Hr2).
  exists sy, s1, s2. rewrite Hfull.
  rewrite Ho1, Ho2, Hc1, Hc2, Hr1, Hr2, <- merge_all_app. done.
Qed.

(** X23: for a comparator that returns zero on equal elements only, the
    result does not depend on how the elements are spread over the
    sources or on the order of the sources: two lists of sorted sources
    with the same elements give, for every consumer, the same output,
    final consumer state and outcome. *)
Theorem Merge_total_order_canonical {C} (cmp : T -> T -> Z) seqs seqs'
    (yield : C -> T -> C * bool) (c : C) :
  comparator_ok cmp -> (forall a b, cmp a b = 0%Z -> a = b) ->
  sources_sorted cmp seqs -> sources_sorted cmp seqs' ->
  elements seqs ≡ₚ elements seqs' ->
  exists s s', Merge (Some cmp) seqs = Ok s /\ Merge (Some cmp) seqs' = Ok s' /\
    output (s yield c) = output (s' yield c) /\
    run_consumer (s yield c) = run_consumer (s' yield c) /\
    run_outcome (s yield c) = run_outcome (s' yield c).
Proof.
  intros Hcmp Hstrict Hs Hs' Hperm.
  destruct (Merge_reference cmp seqs yield c Hcmp Hs) as (s & HM & Ho & Hc & Hr).
  destruct (Merge_reference cmp seqs' yield c Hcmp Hs')
    as (s' & HM' & Ho' & Hc' & Hr').
  assert (merge_all cmp seqs = merge_all cmp seqs') as Heq.
  { apply (StronglySorted_unique_strong (cle cmp)).
    - intros a b _ _ Hab Hba. apply Hstrict.
      pose proof (cmp_antisym cmp Hcmp a b). unfold cle in *. lia.
    - by apply merge_all_sorted.
    - by apply merge_all_sorted.
    - by rewrite !merge_all_perm. }
  exists s, s'. rewrite Ho, Ho', Hc, Hc', Hr, Hr', Heq. done.
Qed.
End ReferenceResults.

Lemma Merge_is_stable_merge_witness :
  let seqs := [Some [1; 4; 7]; None; Some [2; 4; 8]]%Z in
  sources_sorted cmp_Compare seqs /\
  merge_all cmp_Compare seqs = [1; 2; 4; 4; 7; 8]%Z /\
  exists s, Merge (Some cmp_Compare) seqs = Ok s /\
    output (s (stop_after 4) []) = [1; 2; 4; 4]%Z /\
    output (s (stop_after 4) []) =
      consumed (merge_all cmp_Compare seqs) (stop_after 4) [] /\
    run_outcome (s (stop_after 4) []) = Stopped.
Proof.
  intros seqs.
  assert (sources_sorted cmp_Compare seqs) as Hs.
  { intros i l Hl. destruct i as [|[|[|i]]]; simplify_eq/=;
      repeat constructor; by vm_compute. }
  split; [exact Hs|]. split; [reflexivity|].
  destruct (Merge_is_stable_merge cmp_Compare seqs (stop_after 4) []
              cmp_Compare_ok Hs) as (s & HM & Ho & _ & Hr & _).
  exists s. split; [exact HM|]. split; [|split; [exact Ho|exact Hr]].
  injection HM as <-. reflexivity.
Defined.

Lemma Merge_ignores_nil_and_empty_witness :
  let seqs := [Some [1; 3]; None; Some []; Some [2]]%Z in
  let seqs' := [Some [1; 3]; Some [2]]%Z in
  exists s s', Merge (Some cmp_Compare) seqs = Ok s /\
    Merge (Some cmp_Compare) seqs' = Ok s' /\
    output (s collect []) = output (s' collect []) /\
    output (s' collect []) = [1; 2; 3]%Z.
Proof.
  intros seqs seqs'.
  destruct (Merge_ignores_nil_and_empty cmp_Compare seqs seqs' collect []
              cmp_Compare_ok)
    as (s & s' & HM & HM' & Ho & _).
  - intros i l Hl. destruct i as [|[|[|[|i]]]]; simplify_eq/=;
      repeat constructor; by vm_compute.
  - intros i l Hl. destruct i as [|[|i]]; simplify_eq/=;
      repeat constructor; by vm_compute.
  - reflexivity.
  - exists s, s'. split; [exact HM|]. split; [exact HM'|].
    split; [exact Ho|]. injection HM' as <-. reflexivity.
Defined.

Lemma Merge_in_stages_witness :
  let xs := [Some [1; 6]]%Z in
  let ys := [Some [2; 5]; Some [3; 4]]%Z in
  exists (sy : OutSeq Z (list Z)) (s1 s2 : OutSeq Z (list Z)),
    Merge (Some cmp_Compare) ys = Ok sy /\
    output (sy collect []) = [2; 3; 4; 5]%Z /\
    Merge (Some cmp_Compare) (xs ++ [Some (output (sy collect []))]) = Ok s1 /\
    Merge (Some cmp_Compare) (xs ++ ys) = Ok s2 /\
    output (s1 collect []) = output (s2 collect []) /\
    output (s2 collect []) = [1; 2; 3; 4; 5; 6]%Z.
Proof.
  intros xs ys.
  destruct (Merge_in_stages cmp_Compare xs ys collect [] cmp_Compare_ok)
    as (sy & s1 & s2 & HMy & HM1 & HM2 & Ho & _).
  - intros i l Hl. destruct i as [|[|[|i]]]; simplify_eq/=;
      repeat constructor; by vm_compute.
  - exists sy, s1, s2. split; [exact HMy|].
    split; [injection HMy as <-; reflexivity|].
    split; [exact HM1|]. split; [exact HM2|]. split; [exact Ho|].
    injection HM2 as <-. reflexivity.
Defined.

Lemma Merge_total_order_canonical_witness :
  let seqs := [Some [1; 4]; Some [2; 3]]%Z in
  let seqs' := [Some [2; 3]; Some [1; 4]]%Z in
  exists s s', Merge (Some cmp_Compare) seqs = Ok s /\
    Merge (Some cmp_Compare) seqs' = Ok s' /\
    output (s collect []) = output (s' collect []).
Proof.
  intros seqs seqs'.
  destruct (Merge_total_order_canonical cmp_Compare seqs seqs' collect []
              cmp_Compare_ok)
    as (s & s' & HM & HM' & Ho & _).
  - intros a b. unfold cmp_Compare. repeat case_match; lia.
  - intros i l Hl. destruct i as [|[|i]]; simplify_eq/=;
      repeat constructor; by vm_compute.
  - intros i l Hl. destruct i as [|[|i]]; simplify_eq/=;
      repeat constructor; by vm_compute.
  - apply (Permutation_app_comm [1; 4]%Z [2; 3]%Z).
  - exists s, s'. split; [exact HM|]. split; [exact HM'|]. exact Ho.
Defined.

(** X24: for a comparator that follows the three-way contract and sorted
    sources, a sequence returned by [Merge2] behaves, for every consumer,
    as a loop over the list of pairs obtained by merging the sources that
    are not nil with the two-way stable merge: same output, same final
    consumer state, and drained or stopped as that loop ends. *)
Theorem Merge2_is_stable_merge {T1 T2 C} (cmp : T1 -> T2 -> T1 -> T2 -> Z)
    (seqs : list (option (list (T1 * T2))))
    (yield : C -> T1 -> T2 -> C * bool) (c : C) :
  comparator_ok (pair_compare cmp) -> sources_sorted (pair_compare cmp) seqs ->
  exists s, Merge2 (Some cmp) seqs = Ok s /\
    output2 (s yield c) =
      consumed (merge_all (pair_compare cmp) seqs) (pair_yield yield) c /\
    run_consumer (s yield c) =
      (range_over (merge_all (pair_compare cmp) seqs) (pair_yield yield) c).1 /\
    run_outcome (s yield c) =
      (if (range_over (merge_all (pair_compare cmp) seqs) (pair_yield yield) c).2
       then Drained else Stopped).
Proof.
  intros Hcmp Hs.
  destruct (Merge2_run_pack cmp seqs yield c)
    as (s2 & s1 & HM2 & HM1 & Hrun & Hout).
  destruct (Merge_reference (pair_compare cmp) seqs (pair_yield yield) c Hcmp Hs)
    as (s & HM & Ho & Hc & Hr).
  rewrite HM1 in HM. injection HM as <-.
  exists s2. rewrite Hout, Ho. rewrite <- Hrun in Hc, Hr.
  split_and!; auto.
Qed.

Lemma Merge2_is_stable_merge_witness :
  let seqs := [Some [(1, 10); (5, 50)]; Some [(3, 30)]]%Z in
  exists s, Merge2 (Some key_Compare) seqs = Ok s /\
    output2 (s collect2 []) = [(1, 10); (3, 30); (5, 50)]%Z /\
    output2 (s collect2 []) =
      consumed (merge_all (pair_compare key_Compare) seqs)
               (pair_yield collect2) [].
Proof.
  intros seqs.
  destruct (Merge2_is_stable_merge key_Compare seqs collect2 [] key_Compare_ok)
    as (s & HM & Ho & _).
  - intros i l Hl. destruct i as [|[|i]]; simplify_eq/=;
      repeat constructor; by vm_compute.
  - exists s. split; [exact HM|]. split; [|exact Ho].
    injection HM as <-. reflexivity.
Defined.
